(** * spacy/cli/train.py: the training control loop and the best-model composer

    A shallow embedding of [spacy/cli/train.py] and a verification of the
    properties its specification states about it.

    Conventions of the embedding.
    - Python floats read from JSON are rationals ([Q]); NaN is not modelled.
    - A JSON object is a finite map [gmap string _]; a dict whose iteration
      order is observed ([bests]) is an association list in insertion order.
    - The output directory is a finite map from the names of its entries
      to their content; [Path.iterdir] lists it in an unspecified order.
    - A child of the output directory is named by its last path part: two
      [Path]s with the same parent compare like their last parts.
    - A Python string is represented by its UTF-8 encoding; the order of
      the encodings, byte by byte, is the order of the strings, code
      point by code point.
    - Python code that raises is a computation in a state-and-exception
      monad; the state survives a raised exception, as in Python.  *)

From Stdlib Require Import QArith Ascii.
From stdpp Require Import gmap strings list fin_maps pretty.

(** ** A fragment of the Python runtime *)

Module Py.

(** The exceptions the modelled code can raise. [Fault] is an exception
    raised inside an external collaborator (pipeline, corpus, scorer,
    serialisation), named by a tag. *)
Inductive exn : Type :=
| ValueError (msg : string)
| TypeError (msg : string)
| KeyError (key : string)
| FileNotFoundError (path : string)
| FileExistsError (path : string)
| ZeroDivisionError
| SystemExit (code : Z)
| Fault (tag : string).

Inductive res (A : Type) : Type :=
| Ok (a : A)
| Raise (e : exn).
Arguments Ok {A} a.
Arguments Raise {A} e.

Definition is_ok {A} (r : res A) : bool :=
  match r with Ok _ => true | Raise _ => false end.

(** [x > y] on floats. *)
Definition float_gt (x y : Q) : bool :=
  match (x ?= y)%Q with Gt => true | _ => false end.

(** [a == b] on lists of floats. *)
Fixpoint list_eq (a b : list Q) : bool :=
  match a, b with
  | [], [] => true
  | x :: a', y :: b' => Qeq_bool x y && list_eq a' b'
  | _, _ => false
  end.

(** [a > b] on lists of floats: the first index at which the items are
    not [==] decides; without one, the longer list is the greater. *)
Fixpoint list_gt (a b : list Q) : bool :=
  match a, b with
  | x :: a', y :: b' => if Qeq_bool x y then list_gt a' b' else float_gt x y
  | _ :: _, [] => true
  | [], _ => false
  end.

(** [p > q] on two [Path]s with the same parent, named by their last
    part: string comparison by code point. *)
Definition path_gt (p q : string) : bool := String.ltb q p.

(** [a > b] on [(scores, path)] tuples. *)
Definition tuple_gt (a b : list Q * string) : bool :=
  if list_eq a.1 b.1 then path_gt a.2 b.2 else list_gt a.1 b.1.

(** The builtin [max] on a non-empty iterable: the running maximum is
    replaced only by an item that is [>] it. *)
Fixpoint max_from (m : list Q * string) (l : list (list Q * string))
  : list Q * string :=
  match l with
  | [] => m
  | x :: l' => max_from (if tuple_gt x m then x else m) l'
  end.

Definition max (l : list (list Q * string)) : res (list Q * string) :=
  match l with
  | [] => Raise (ValueError "max() arg is an empty sequence")
  | x :: l' => Ok (max_from x l')
  end.

(** [d[k] = v] on a dict that remembers insertion order. *)
Fixpoint dict_set {V} (d : list (string * V)) (k : string) (v : V)
  : list (string * V) :=
  match d with
  | [] => [(k, v)]
  | (k', v') :: d' =>
      if String.eqb k k' then (k, v) :: d' else (k', v') :: dict_set d' k v
  end.

(** [s.split(sep)] for a one-character separator. *)
Fixpoint split_go (sep : Ascii.ascii) (cur : string) (s : string) : list string :=
  match s with
  | EmptyString => [String.rev cur]
  | String c s' =>
      if Ascii.eqb c sep then String.rev cur :: split_go sep EmptyString s'
      else split_go sep (String c cur) s'
  end.

Definition split (sep : Ascii.ascii) (s : string) : list string :=
  split_go sep EmptyString s.

(** [s.strip()] of Python 3: the characters of [str.isspace] removed at
    both ends. A string is the UTF-8 encoding of the Python string, and
    a white space character is recognised by its encoding, of one, two
    or three bytes. No encoding of a white space character ends another
    character, so that the end of the string is stripped on the
    reversed bytes. *)

(** U+0009 to U+000D, U+001C to U+001F and U+0020. *)
Definition is_space (c : Ascii.ascii) : bool :=
  let n := Ascii.nat_of_ascii c in
  (n =? 32)%nat || ((9 <=? n)%nat && (n <=? 13)%nat)
  || ((28 <=? n)%nat && (n <=? 31)%nat).

(** U+0085 and U+00A0: the bytes C2 85 and C2 A0. *)
Definition is_space2 (c1 c2 : Ascii.ascii) : bool :=
  let n1 := Ascii.nat_of_ascii c1 in
  let n2 := Ascii.nat_of_ascii c2 in
  (n1 =? 194)%nat && ((n2 =? 133)%nat || (n2 =? 160)%nat).

(** U+1680 (E1 9A 80), U+2000 to U+200A (E2 80 80 to E2 80 8A), U+2028,
    U+2029 and U+202F (E2 80 A8, E2 80 A9, E2 80 AF), U+205F (E2 81 9F)
    and U+3000 (E3 80 80). *)
Definition is_space3 (c1 c2 c3 : Ascii.ascii) : bool :=
  let n1 := Ascii.nat_of_ascii c1 in
  let n2 := Ascii.nat_of_ascii c2 in
  let n3 := Ascii.nat_of_ascii c3 in
  ((n1 =? 225)%nat && (n2 =? 154)%nat && (n3 =? 128)%nat)
  || ((n1 =? 226)%nat && (n2 =? 128)%nat
      && (((128 <=? n3)%nat && (n3 <=? 138)%nat)
          || (n3 =? 168)%nat || (n3 =? 169)%nat || (n3 =? 175)%nat))
  || ((n1 =? 226)%nat && (n2 =? 129)%nat && (n3 =? 159)%nat)
  || ((n1 =? 227)%nat && (n2 =? 128)%nat && (n3 =? 128)%nat).

(** The white space at the start of [s] removed; [two] and [three]
    recognise the encodings of two and of three bytes. *)
Fixpoint lstrip_with (two : Ascii.ascii → Ascii.ascii → bool)
  (three : Ascii.ascii → Ascii.ascii → Ascii.ascii → bool) (s : string)
  : string :=
  match s with
  | String c1 s1 =>
      if is_space c1 then lstrip_with two three s1
      else
        match s1 with
        | String c2 s2 =>
            if two c1 c2 then lstrip_with two three s2
            else
              match s2 with
              | String c3 s3 =>
                  if three c1 c2 c3 then lstrip_with two three s3 else s
              | EmptyString => s
              end
        | EmptyString => s
        end
  | EmptyString => EmptyString
  end.

Definition lstrip (s : string) : string := lstrip_with is_space2 is_space3 s.

Definition rstrip (s : string) : string :=
  String.rev
    (lstrip_with (fun c1 c2 => is_space2 c2 c1)
       (fun c1 c2 c3 => is_space3 c3 c2 c1) (String.rev s)).

Definition strip (s : string) : string := rstrip (lstrip s).

(** Truth value of a string: non-empty. *)
Definition truthy (s : string) : bool :=
  match s with EmptyString => false | _ => true end.

(** [x in l] on a list of strings. *)
Definition contains (l : list string) (x : string) : bool :=
  existsb (String.eqb x) l.

End Py.
Export Py.

(** ** The output directory *)

Module Storage.

(** Which parameters a saved component holds: the optimizer's running
    averages or the raw parameters, after [blob_updates] calls of
    [nlp.update]. *)
Inductive view : Type := Raw | Averaged.

Record blob : Type := Blob { blob_view : view; blob_updates : nat }.

(** [scorer.scores], and the content of [accuracy.json]. *)
Abbreviation accs := (gmap string Q).

(** [meta['speed']]; [gpu] is Python's [None] or a float. *)
Record speed : Type := Speed { nwords : nat; cpu : Q; gpu : option Q }.

(** The run's meta descriptor, a dict with these known keys. *)
Record meta : Type := Meta {
  m_lang : option string;
  m_pipeline : option (list string);
  m_spacy_version : option string;
  m_accuracy : option accs;
  m_speed : option speed;
  m_vectors : option (nat * nat * nat);
  m_name : option string;
  m_version : option string
}.

Definition empty_meta : meta :=
  Meta None None None None None None None None.

(** A model directory: one sub-directory per pipeline component, and the
    two JSON files the training loop writes beside them. *)
Record dir : Type := Dir {
  d_pipes : gmap string blob;
  d_accuracy : option accs;
  d_meta : option meta
}.

Inductive node : Type :=
| IsFile
| IsDir (d : dir).

(** The entries of [output_path], by name. *)
Abbreviation fs := (gmap string node).

Definition lookup_dir (f : fs) (name : string) : option dir :=
  match f !! name with
  | Some (IsDir d) => Some d
  | _ => None
  end.

Definition exists_path (f : fs) (name : string) : bool :=
  match f !! name with Some _ => true | None => false end.

(** [output_path.iterdir()]: the entries in an order that the embedding,
    like the operating system, leaves unspecified. *)
Definition iterdir (f : fs) : list (string * node) := map_to_list f.

Definition is_dir (x : node) : bool :=
  match x with IsDir _ => true | IsFile => false end.

End Storage.
Export Storage.

(** ** The best-model composer: [_get_metrics], [_find_best],
       [_collate_best_model] *)

Definition _get_metrics (component : string) : list string :=
  if String.eqb component "parser" then ["las"; "uas"; "token_acc"]
  else if String.eqb component "tagger" then ["tags_acc"]
  else if String.eqb component "ner" then ["ents_f"; "ents_p"; "ents_r"]
  else ["token_acc"].

(** [[accs.get(metric, 0.0) for metric in _get_metrics(component)]] *)
Definition scores_of (a : accs) (component : string) : list Q :=
  map (fun metric => default 0%Q (a !! metric)) (_get_metrics component).

(** The loop of [_find_best]: [accuracies] grows by one pair per
    sub-directory other than [model-final]; opening a missing
    [accuracy.json] raises. *)
Fixpoint find_best_loop (entries : list (string * node)) (component : string)
  (accuracies : list (list Q * string)) : res (list (list Q * string)) :=
  match entries with
  | [] => Ok accuracies
  | (name, x) :: rest =>
      match x with
      | IsDir d =>
          if negb (String.eqb name "model-final") then
            match d_accuracy d with
            | None => Raise (FileNotFoundError (name +:+ "/accuracy.json"))
            | Some a =>
                find_best_loop rest component
                  (accuracies ++ [(scores_of a component, name)])
            end
          else find_best_loop rest component accuracies
      | IsFile => find_best_loop rest component accuracies
      end
  end.

Definition _find_best (experiment_dir : fs) (component : string)
  : res (option string) :=
  match find_best_loop (iterdir experiment_dir) component [] with
  | Raise e => Raise e
  | Ok accuracies =>
      match accuracies with
      | [] => Ok None
      | _ :: _ =>
          match Py.max accuracies with
          | Ok m => Ok (Some m.2)
          | Raise e => Raise e
          end
      end
  end.

(** ** The world the training command runs in *)

Module World.

Definition doc : Type := list string.
Definition gold : Type := list string.

(** The two scoped acquisitions of the command: the averaged-parameter
    view ([nlp.use_params(optimizer.averages)]) and the baseline backend
    ([Model.use_device('cpu')]). *)
Inductive scope : Type := AveragedParams | CpuDevice.

(** Calls into the external collaborators. *)
Inductive op : Type :=
| OpLoadModel (name : string)
| OpGetLangClass (lang : string)
| OpCreatePipe (name : string)
| OpLoadVectors (name : string)
| OpGetPipe (name : string)
| OpAddObjective (pipe objective : string)
| OpCountTrain
| OpOptimizer
| OpTrainDocs (i : nat)
| OpUpdate (i : nat) (docs : list doc) (golds : list gold)
| OpToDisk (path : string)
| OpLoadFromPath (path : string) (on_cpu : bool)
| OpDevDocs (i : nat) (on_cpu : bool)
| OpEvaluate (i : nat) (on_cpu : bool)
| OpWriteJson (path : string).

Inductive event : Type :=
| Call (o : op)
| Enter (s : scope)
| Exit (s : scope)
| EnvLog (value : bool)
| Collate.

Record world : Type := World {
  w_fs : fs;                            (* entries of [output_path] *)
  w_env_log : bool;                     (* flag set by [util.set_env_log] *)
  w_scopes : list scope;                (* open scopes, innermost first *)
  w_pipe_names : list string;           (* [nlp.pipe_names] *)
  w_lang : string;                      (* [nlp.lang] *)
  w_updates : nat;                      (* calls of [nlp.update] done *)
  w_objectives : list (string * string);(* registered side objectives *)
  w_meta : meta;                        (* the dict [meta] refers to *)
  w_clock : nat;                        (* readings of [timer()] taken *)
  w_batch_cursor : nat;                 (* draws from [batch_sizes] *)
  w_dropout_cursor : nat;               (* draws from [dropout_rates] *)
  w_trace : list event                  (* oldest first *)
}.

Definition set_fs (f : fs) (w : world) : world :=
  World f (w_env_log w) (w_scopes w) (w_pipe_names w) (w_lang w)
    (w_updates w) (w_objectives w) (w_meta w) (w_clock w)
    (w_batch_cursor w) (w_dropout_cursor w) (w_trace w).
Definition set_log (b : bool) (w : world) : world :=
  World (w_fs w) b (w_scopes w) (w_pipe_names w) (w_lang w)
    (w_updates w) (w_objectives w) (w_meta w) (w_clock w)
    (w_batch_cursor w) (w_dropout_cursor w) (w_trace w).
Definition set_scopes (s : list scope) (w : world) : world :=
  World (w_fs w) (w_env_log w) s (w_pipe_names w) (w_lang w)
    (w_updates w) (w_objectives w) (w_meta w) (w_clock w)
    (w_batch_cursor w) (w_dropout_cursor w) (w_trace w).
Definition set_pipe_names (p : list string) (w : world) : world :=
  World (w_fs w) (w_env_log w) (w_scopes w) p (w_lang w)
    (w_updates w) (w_objectives w) (w_meta w) (w_clock w)
    (w_batch_cursor w) (w_dropout_cursor w) (w_trace w).
Definition set_lang (l : string) (w : world) : world :=
  World (w_fs w) (w_env_log w) (w_scopes w) (w_pipe_names w) l
    (w_updates w) (w_objectives w) (w_meta w) (w_clock w)
    (w_batch_cursor w) (w_dropout_cursor w) (w_trace w).
Definition set_updates (n : nat) (w : world) : world :=
  World (w_fs w) (w_env_log w) (w_scopes w) (w_pipe_names w) (w_lang w)
    n (w_objectives w) (w_meta w) (w_clock w)
    (w_batch_cursor w) (w_dropout_cursor w) (w_trace w).
Definition set_objectives (o : list (string * string)) (w : world) : world :=
  World (w_fs w) (w_env_log w) (w_scopes w) (w_pipe_names w) (w_lang w)
    (w_updates w) o (w_meta w) (w_clock w)
    (w_batch_cursor w) (w_dropout_cursor w) (w_trace w).
Definition set_meta (m : meta) (w : world) : world :=
  World (w_fs w) (w_env_log w) (w_scopes w) (w_pipe_names w) (w_lang w)
    (w_updates w) (w_objectives w) m (w_clock w)
    (w_batch_cursor w) (w_dropout_cursor w) (w_trace w).
Definition set_clock (n : nat) (w : world) : world :=
  World (w_fs w) (w_env_log w) (w_scopes w) (w_pipe_names w) (w_lang w)
    (w_updates w) (w_objectives w) (w_meta w) n
    (w_batch_cursor w) (w_dropout_cursor w) (w_trace w).
Definition set_batch_cursor (n : nat) (w : world) : world :=
  World (w_fs w) (w_env_log w) (w_scopes w) (w_pipe_names w) (w_lang w)
    (w_updates w) (w_objectives w) (w_meta w) (w_clock w)
    n (w_dropout_cursor w) (w_trace w).
Definition set_dropout_cursor (n : nat) (w : world) : world :=
  World (w_fs w) (w_env_log w) (w_scopes w) (w_pipe_names w) (w_lang w)
    (w_updates w) (w_objectives w) (w_meta w) (w_clock w)
    (w_batch_cursor w) n (w_trace w).
Definition set_trace (t : list event) (w : world) : world :=
  World (w_fs w) (w_env_log w) (w_scopes w) (w_pipe_names w) (w_lang w)
    (w_updates w) (w_objectives w) (w_meta w) (w_clock w)
    (w_batch_cursor w) (w_dropout_cursor w) t.

(** A fresh process in front of the output directory [f]. *)
Definition initial (f : fs) : world :=
  World f false [] [] "" 0 [] empty_meta 0 0 0 [].

(** Computations that read and write the world and may raise. *)
Definition M (A : Type) : Type := world → res A * world.

Definition ret {A} (a : A) : M A := fun w => (Ok a, w).
Definition raise {A} (e : exn) : M A := fun w => (Raise e, w).
Definition bind {A B} (m : M A) (k : A → M B) : M B :=
  fun w => match m w with
           | (Ok a, w') => k a w'
           | (Raise e, w') => (Raise e, w')
           end.
Definition gets {A} (f : world → A) : M A := fun w => (Ok (f w), w).
Definition modify (f : world → world) : M unit := fun w => (Ok tt, f w).
Definition lift {A} (r : res A) : M A := fun w => (r, w).

Definition log (e : event) : M unit :=
  modify (fun w => set_trace (w_trace w ++ [e]) w).

(** [try: body finally: handler]. An exception of the handler replaces
    the one of the body. *)
Definition try_finally {A} (body : M A) (handler : M unit) : M A :=
  fun w => match body w with
           | (r, w1) =>
               match handler w1 with
               | (Ok _, w2) => (r, w2)
               | (Raise e, w2) => (Raise e, w2)
               end
           end.

(** [for x in l: body x] *)
Fixpoint for_each {A} (l : list A) (body : A → M unit) : M unit :=
  match l with
  | [] => ret tt
  | x :: l' => bind (body x) (fun _ => for_each l' body)
  end.

End World.
Export World.

(** [x ← m; k] and [m;; k] are stdpp's notations for [bind]. *)
#[global] Instance M_ret : MRet M := @ret.
#[global] Instance M_bind : MBind M := fun A B k m => bind m k.

(** ** File operations on the output directory *)

Definition find_best (component : string) : M (option string) :=
  w ← gets w_fs; lift (_find_best w component).

(** [shutil.copytree(output_path / src, output_path / dst)] *)
Definition copytree (src dst : string) : M unit :=
  f ← gets w_fs;
  match lookup_dir f src with
  | None => raise (FileNotFoundError src)
  | Some d =>
      if exists_path f dst then raise (FileExistsError dst)
      else modify (set_fs (<[dst := IsDir d]> f))
  end.

(** [shutil.rmtree(output_path / parent / component)] *)
Definition rmtree_in (parent component : string) : M unit :=
  f ← gets w_fs;
  match lookup_dir f parent with
  | None => raise (FileNotFoundError (parent +:+ "/" +:+ component))
  | Some d =>
      match d_pipes d !! component with
      | None => raise (FileNotFoundError (parent +:+ "/" +:+ component))
      | Some _ =>
          modify (set_fs (<[parent :=
            IsDir (Dir (delete component (d_pipes d))
                       (d_accuracy d) (d_meta d))]> f))
      end
  end.

(** [shutil.copytree(output_path / src / component,
                     output_path / dst / component)] *)
Definition copytree_in (src dst component : string) : M unit :=
  f ← gets w_fs;
  match lookup_dir f src ≫= (fun d => d_pipes d !! component) with
  | None => raise (FileNotFoundError (src +:+ "/" +:+ component))
  | Some b =>
      match lookup_dir f dst with
      | None => raise (FileNotFoundError dst)
      | Some d =>
          match d_pipes d !! component with
          | Some _ => raise (FileExistsError (dst +:+ "/" +:+ component))
          | None =>
              modify (set_fs (<[dst :=
                IsDir (Dir (<[component := b]> (d_pipes d))
                           (d_accuracy d) (d_meta d))]> f))
          end
      end
  end.

(** [json.load((output_path / name / 'accuracy.json').open())] *)
Definition load_accuracy (name : string) : M accs :=
  f ← gets w_fs;
  match lookup_dir f name ≫= d_accuracy with
  | None => raise (FileNotFoundError (name +:+ "/accuracy.json"))
  | Some a => ret a
  end.

(** [write_json(output_path / name / 'meta.json', meta)] *)
Definition write_meta (name : string) : M unit :=
  f ← gets w_fs;
  m ← gets w_meta;
  match lookup_dir f name with
  | None => raise (FileNotFoundError (name +:+ "/meta.json"))
  | Some d =>
      modify (set_fs (<[name :=
        IsDir (Dir (d_pipes d) (d_accuracy d) (Some m))]> f))
  end.

(** [write_json(output_path / name / 'accuracy.json', scores)] *)
Definition write_accuracy (name : string) (scores : accs) : M unit :=
  f ← gets w_fs;
  match lookup_dir f name with
  | None => raise (FileNotFoundError (name +:+ "/accuracy.json"))
  | Some d =>
      modify (set_fs (<[name :=
        IsDir (Dir (d_pipes d) (Some scores) (d_meta d))]> f))
  end.

(** [meta['accuracy'][metric] = value] *)
Definition set_accuracy (metric : string) (value : Q) : M unit :=
  m ← gets w_meta;
  match m_accuracy m with
  | None => raise (KeyError "accuracy")
  | Some a =>
      modify (set_meta (Meta (m_lang m) (m_pipeline m) (m_spacy_version m)
        (Some (<[metric := value]> a)) (m_speed m) (m_vectors m)
        (m_name m) (m_version m)))
  end.

(** [bests[component] = _find_best(output_path, component)] for every
    component, in order. *)
Fixpoint collect_bests (components : list string)
  (bests : list (string * option string)) : M (list (string * option string)) :=
  match components with
  | [] => ret bests
  | component :: rest =>
      b ← find_best component;
      collect_bests rest (dict_set bests component b)
  end.

(** The body of [for component, best_component_src in bests.items()]. The
    operand [best_component_src / component] is evaluated after [rmtree]
    has run, and [None / component] raises [TypeError]. *)
Definition collate_component (component : string)
  (best_component_src : option string) : M unit :=
  rmtree_in "model-best" component;;
  src ← match best_component_src with
        | None => raise (TypeError
            "unsupported operand type(s) for /: 'NoneType' and 'str'")
        | Some s => ret s
        end;
  copytree_in src "model-best" component;;
  a ← load_accuracy src;
  for_each (_get_metrics component) (fun metric =>
    match a !! metric with
    | None => raise (KeyError metric)
    | Some v => set_accuracy metric v
    end).

(** [_collate_best_model(meta, output_path, components)]; [meta] and
    [output_path] are the world's [w_meta] and [w_fs]. *)
Definition _collate_best_model (components : list string) : M unit :=
  log Collate;;
  bests ← collect_bests components [];
  copytree "model-final" "model-best";;
  for_each bests (fun cb => collate_component cb.1 cb.2);;
  write_meta "model-best".

(** ** The minibatch partitioner *)

(** Modelled from the spec: [util.minibatch_by_words] is imported by
    [train.py] and is not among the sources. Section 4.2 of the
    specification: keep an accumulator; add each incoming pair to the
    current batch with its token length; when the cumulative length meets
    or exceeds the target drawn for the batch, close the batch and draw a
    fresh target for the next one; an empty batch is discarded. [cursor]
    is the index in the schedule of the target of the current batch; the
    result is the batches and the number of targets drawn so far. *)
Fixpoint minibatch_go (size : nat → Q) (cursor : nat)
  (batch : list (doc * gold)) (count : nat) (items : list (doc * gold))
  : list (list (doc * gold)) * nat :=
  match items with
  | [] => (match batch with [] => [] | _ => [batch] end, S cursor)
  | item :: items' =>
      let batch' := batch ++ [item] in
      let count' := (count + length item.1)%nat in
      if Qle_bool (size cursor) (inject_Z (Z.of_nat count')) then
        let r := minibatch_go size (S cursor) [] 0 items' in
        (batch' :: r.1, r.2)
      else minibatch_go size cursor batch' count' items'
  end.

Definition minibatch_by_words (items : list (doc * gold)) (size : nat → Q)
  (cursor : nat) : list (list (doc * gold)) * nat :=
  minibatch_go size cursor [] 0 items.

(** Number of tokens of a batch: [sum(len(doc) for doc in docs)]. *)
Definition batch_words (batch : list (doc * gold)) : nat :=
  sum_list (map (fun dg => length dg.1) batch).

(** ** The command [train] *)

(** [meta_path] and what is found there. *)
Inductive meta_file : Type :=
| NoMetaPath
| MetaMissing
| MetaNotDict
| MetaDict (m : meta).

(** The arguments of [train]; the three paths given on the command line
    are represented by what the command asks of them. *)
Record args : Type := Args {
  lang : string;
  train_path_exists : bool;
  dev_path_exists : bool;
  base_model : option string;
  pipeline : string;
  vectors : option string;
  n_iter : Z;
  n_examples : Z;
  use_gpu : Z;
  version : string;
  meta_path : meta_file;
  parser_multitasks : string;
  entity_multitasks : string;
  noise_level : Q;
  gold_preproc : bool;
  learn_tokens : bool;
  verbose : bool;
  debug_flag : bool
}.

(** The external collaborators: which of their calls raise, and what the
    others return. *)
Record collab : Type := Collab {
  fault : op → option exn;
  base_pipes : list string;            (* pipes of the base model *)
  base_lang : string;
  about_version : string;              (* [about.__version__] *)
  vectors_stats : nat * nat * nat;     (* width, vectors, keys *)
  train_docs : nat → list (doc * gold);
  dev_docs : nat → bool → list (doc * gold);
  scorer_scores : nat → bool → accs;   (* [scorer.scores] *)
  clock : nat → Q;                     (* readings of [timer()] *)
  batch_sizes : nat → Q;
  dropout_rates : nat → Q
}.

#[global] Instance scope_eq_dec : EqDecision scope.
Proof. solve_decision. Defined.

Section train.

Context (E : collab).

Definition call (o : op) : M unit :=
  log (Call o);;
  match fault E o with
  | Some e => raise e
  | None => ret tt
  end.

Definition set_env_log (value : bool) : M unit :=
  modify (set_log value);; log (EnvLog value).

Definition timer : M Q :=
  n ← gets w_clock;
  modify (set_clock (S n));;
  ret (clock E n).

(** [nwords / (end_time - start_time)] under true division. *)
Definition wps (nwords : nat) (start_time end_time : Q) : M Q :=
  if Qeq_bool (end_time - start_time) 0 then raise ZeroDivisionError
  else ret (inject_Z (Z.of_nat nwords) / (end_time - start_time))%Q.

(** Modelled from the spec: [Language.use_params] and [Model.use_device]
    are not among the sources. Section 5 of the specification: both are
    scoped acquisitions, released when the block is left, also by an
    exception. *)
Definition with_scope {A} (s : scope) (body : M A) : M A :=
  modify (fun w => set_scopes (s :: w_scopes w) w);;
  log (Enter s);;
  try_finally body
    (modify (fun w => set_scopes (tail (w_scopes w)) w);; log (Exit s)).

Definition current_view (w : world) : view :=
  if bool_decide (AveragedParams ∈ w_scopes w) then Averaged else Raw.

(** [nlp.to_disk(output_path / path)]: the directory is created when it
    is missing, and receives one sub-directory per pipeline component,
    holding the parameters in view. *)
Definition to_disk (path : string) : M unit :=
  call (OpToDisk path);;
  w ← gets id;
  let pipes : gmap string blob :=
    list_to_map (map (fun name => (name, Blob (current_view w) (w_updates w)))
                     (w_pipe_names w)) in
  match w_fs w !! path with
  | Some IsFile => raise (Fault "NotADirectoryError")
  | Some (IsDir d) =>
      modify (set_fs (<[path :=
        IsDir (Dir (pipes ∪ d_pipes d) (d_accuracy d) (d_meta d))]> (w_fs w)))
  | None =>
      modify (set_fs (<[path := IsDir (Dir pipes None None)]> (w_fs w)))
  end.

Definition add_pipe (name : string) : M unit :=
  call (OpCreatePipe name);;
  modify (fun w => set_pipe_names (w_pipe_names w ++ [name]) w).

(** Lines 64-75: the paths and the meta file. *)
Definition check_paths (a : args) : M unit :=
  (if train_path_exists a then ret tt else raise (SystemExit 1));;
  (if dev_path_exists a then ret tt else raise (SystemExit 1));;
  match meta_path a with
  | MetaMissing => raise (SystemExit 1)
  | MetaNotDict => raise (SystemExit 1)
  | NoMetaPath => modify (set_meta empty_meta)
  | MetaDict m => modify (set_meta m)
  end.

(** Lines 82-101: the base model or a blank one, and its pipes. *)
Definition setup_pipeline (a : args) (pipeline : list string) : M unit :=
  match base_model a with
  | Some name =>
      if truthy name then
        call (OpLoadModel name);;
        modify (set_lang (base_lang E));;
        modify (set_pipe_names
          (filter (fun pipe => contains pipeline pipe = true) (base_pipes E)));;
        for_each pipeline (fun pipe =>
          names ← gets w_pipe_names;
          if contains names pipe then ret tt else add_pipe pipe)
      else
        call (OpGetLangClass (lang a));;
        modify (set_lang (lang a));;
        for_each pipeline add_pipe
  | None =>
      call (OpGetLangClass (lang a));;
      modify (set_lang (lang a));;
      for_each pipeline add_pipe
  end;;
  (if learn_tokens a then add_pipe "merge_subtokens" else ret tt);;
  match vectors a with
  | Some v => if truthy v then call (OpLoadVectors v) else ret tt
  | None => ret tt
  end.

(** Lines 106-111, for one [(pipe_name, multitasks)] pair. *)
Definition add_multitask_objectives (pipeline : list string)
  (pipe_name multitasks : string) : M unit :=
  if truthy multitasks then
    (if contains pipeline pipe_name then ret tt
     else raise (ValueError ("Needs '" +:+ pipe_name +:+ "' in pipeline")));;
    call (OpGetPipe pipe_name);;
    for_each (split ","%char multitasks) (fun objective =>
      call (OpAddObjective pipe_name objective);;
      modify (fun w =>
        set_objectives (w_objectives w ++ [(pipe_name, objective)]) w))
  else ret tt.

Definition multitask_objectives (a : args) (pipeline : list string)
  : M unit :=
  for_each [("parser", parser_multitasks a); ("ner", entity_multitasks a)]
    (fun pm => add_multitask_objectives pipeline pm.1 pm.2).

(** Lines 135-141: one batch of the epoch loop. *)
Definition train_batch (i : nat) (batch : list (doc * gold)) : M unit :=
  match batch with
  | [] => ret tt
  | _ :: _ =>
      modify (fun w => set_dropout_cursor (S (w_dropout_cursor w)) w);;
      call (OpUpdate i (map fst batch) (map snd batch));;
      modify (fun w => set_updates (S (w_updates w)) w)
  end.

(** Lines 129-141. The schedule [batch_sizes] is read as far as the
    partitioner needs for the whole epoch. *)
Definition train_epoch (i : nat) : M unit :=
  call (OpTrainDocs i);;
  cursor ← gets w_batch_cursor;
  let r := minibatch_by_words (train_docs E i) (batch_sizes E) cursor in
  modify (set_batch_cursor r.2);;
  for_each r.1 (train_batch i).

(** Lines 171-181: the meta descriptor after epoch [i]. *)
Definition update_meta (a : args) (i : nat) (scores : accs) (s : speed)
  : M unit :=
  modify (fun w =>
    let m := w_meta w in
    set_meta (Meta (Some (w_lang w)) (Some (w_pipe_names w))
      (Some (">=" +:+ about_version E)) (Some scores) (Some s)
      (Some (vectors_stats E))
      (Some (default ("model" +:+ pretty i) (m_name m)))
      (Some (default (version a) (m_version m)))) w).

(** Lines 151-166: the throughput of one or two backends. The result is
    [(cpu_wps, gpu_wps, scorer.scores)]. *)
Definition benchmark (a : args) (i : nat) (epoch_model_path : string)
  (nwords : nat) : M (Q * option Q * accs) :=
  start_time ← timer;
  call (OpEvaluate i false);;
  end_time ← timer;
  if (use_gpu a <? 0)%Z then
    cpu_wps ← wps nwords start_time end_time;
    ret (cpu_wps, None, scorer_scores E i false)
  else
    gpu_wps ← wps nwords start_time end_time;
    with_scope CpuDevice (
      call (OpLoadFromPath epoch_model_path true);;
      call (OpDevDocs i true);;
      start_time ← timer;
      call (OpEvaluate i true);;
      end_time ← timer;
      cpu_wps ← wps nwords start_time end_time;
      ret (cpu_wps, Some gpu_wps, scorer_scores E i true)).

(** Lines 143-185: the statements of the block that saves, reloads,
    evaluates and records epoch [i]. *)
Definition checkpoint_steps (a : args) (i : nat) : M unit :=
  set_env_log false;;
  let epoch_model_path := "model" +:+ pretty i in
  to_disk epoch_model_path;;
  call (OpLoadFromPath epoch_model_path false);;
  call (OpDevDocs i false);;
  let nwords := batch_words (dev_docs E i false) in
  r ← benchmark a i epoch_model_path nwords;
  call (OpWriteJson (epoch_model_path +:+ "/accuracy.json"));;
  write_accuracy epoch_model_path r.2;;
  update_meta a i r.2 (Speed nwords r.1.1 r.1.2);;
  call (OpWriteJson (epoch_model_path +:+ "/meta.json"));;
  write_meta epoch_model_path;;
  set_env_log (verbose a).

(** Lines 142-185: the block, under the averaged parameters. *)
Definition checkpoint (a : args) (i : nat) : M unit :=
  with_scope AveragedParams (checkpoint_steps a i).

Definition epoch (a : args) (i : nat) : M unit :=
  train_epoch i;;
  checkpoint a i.

Definition epoch_loop (a : args) : M unit :=
  for_each (seq 0 (Z.to_nat (n_iter a))) (epoch a).

(** Lines 190-194. *)
Definition save_final : M unit :=
  with_scope AveragedParams (to_disk "model-final").

(** Lines 60-111: the paths, the pipeline and the multitask objectives. *)
Definition configure (a : args) : M unit :=
  set_env_log (verbose a);;
  check_paths a;;
  let pipeline := map strip (split ","%char (pipeline a)) in
  setup_pipeline a pipeline;;
  multitask_objectives a pipeline.

(** Lines 60-126: what [train] does before the epoch loop. The corpus is
    read and counted, and the optimizer is created. *)
Definition prepare (a : args) : M unit :=
  configure a;;
  call OpCountTrain;;
  call OpOptimizer.

(** [train]. What it prints is left out. *)
Definition train (a : args) : M unit :=
  prepare a;;
  try_finally (epoch_loop a) save_final;;
  names ← gets w_pipe_names;
  _collate_best_model names.

End train.

(** ** The progress row: [print_progress] *)

(** The columns that [print_progress] sets to 0.0 first. *)
Definition progress_columns : list string :=
  ["dep_loss"; "tag_loss"; "uas"; "tags_acc"; "token_acc";
   "ents_p"; "ents_r"; "ents_f"; "cpu_wps"; "gpu_wps"].

(** The named fields of the template, in the order of the row. *)
Definition template_fields : list string :=
  ["dep_loss"; "ner_loss"; "uas"; "ents_p"; "ents_r"; "ents_f";
   "tags_acc"; "token_acc"; "cpu_wps"; "gpu_wps"].

(** [x or 0.0] on a float or [None]. *)
Definition or_zero (x : option Q) : Q :=
  match x with
  | Some v => if Qeq_bool v 0 then 0%Q else v
  | None => 0%Q
  end.

(** Lines 253-262: the dict [scores]. [scores.update(dev_scores)] lets
    the entries of [dev_scores] replace those of [scores]. *)
Definition progress_scores (losses dev_scores : accs) (cpu_wps : Q)
  (gpu_wps : option Q) : accs :=
  let scores := foldl (fun scores col => <[col := 0%Q]> scores) ∅
                  progress_columns in
  let scores := <["dep_loss" := default 0%Q (losses !! "parser")]> scores in
  let scores := <["ner_loss" := default 0%Q (losses !! "ner")]> scores in
  let scores := <["tag_loss" := default 0%Q (losses !! "tagger")]> scores in
  let scores := dev_scores ∪ scores in
  let scores := <["cpu_wps" := cpu_wps]> scores in
  <["gpu_wps" := or_zero gpu_wps]> scores.

(** [tpl.format(itn, **scores)] looks every named field of the template
    up in [scores]; a field that is missing raises [KeyError]. *)
Fixpoint format_fields (fields : list string) (scores : accs)
  : res (list Q) :=
  match fields with
  | [] => Ok []
  | field :: rest =>
      match scores !! field with
      | None => Raise (KeyError field)
      | Some v =>
          match format_fields rest scores with
          | Ok row => Ok (v :: row)
          | Raise e => Raise e
          end
      end
  end.

(** [print_progress]: the iteration and the numbers of the row in the
    order of the template. How the numbers are rendered is left out. *)
Definition print_progress (itn : nat) (losses dev_scores : accs)
  (cpu_wps : Q) (gpu_wps : option Q) : res (nat * list Q) :=
  match format_fields template_fields
          (progress_scores losses dev_scores cpu_wps gpu_wps) with
  | Ok row => Ok (itn, row)
  | Raise e => Raise e
  end.

(** * Notions used by the statements *)

(** ** Three-way comparisons

    The comparisons that [max] uses are read off three-way comparisons;
    each of them obeys the laws of a total preorder, and so does their
    lexicographic combination. *)

Class Lawful {A : Type} (cmp : A → A → comparison) : Prop := {
  cmp_sym x y : cmp y x = CompOpp (cmp x y);
  cmp_lt_trans x y z : cmp x y = Lt → cmp y z = Lt → cmp x z = Lt;
  cmp_eq_l x y z : cmp x y = Eq → cmp x z = cmp y z
}.

(** The first component decides unless it compares equal. *)
Definition lex_cmp {A B : Type} (c1 : A → A → comparison)
  (c2 : B → B → comparison) (a b : A * B) : comparison :=
  match c1 a.1 b.1 with
  | Eq => c2 a.2 b.2
  | c => c
  end.

Fixpoint list_cmp {A : Type} (c : A → A → comparison) (a b : list A)
  : comparison :=
  match a, b with
  | [], [] => Eq
  | [], _ :: _ => Lt
  | _ :: _, [] => Gt
  | x :: a', y :: b' =>
      match c x y with
      | Eq => list_cmp c a' b'
      | r => r
      end
  end.

(** The three-way comparison of [(scores, path)] tuples. *)
Definition tuple_cmp : list Q * string → list Q * string → comparison :=
  lex_cmp (list_cmp Qcompare) String.compare.

(** ** The tournament *)

(** The pairs that [_find_best] ranks: one per sub-directory other than
    [model-final] that holds an accuracy record. *)
Definition candidates (entries : list (string * node)) (component : string)
  : list (list Q * string) :=
  flat_map (fun e =>
    match e.2 with
    | IsDir d =>
        if negb (String.eqb e.1 "model-final") then
          match d_accuracy d with
          | Some a => [(scores_of a component, e.1)]
          | None => []
          end
        else []
    | IsFile => []
    end) entries.

(** Every sub-directory other than [model-final] holds an accuracy
    record. *)
Definition readable (entries : list (string * node)) : Prop :=
  ∀ name d, (name, IsDir d) ∈ entries → name ≠ "model-final" →
    is_Some (d_accuracy d).

(** An epoch of the output directory and its accuracy record. *)
Definition epoch_record (f : fs) (name : string) (a : accs) : Prop :=
  name ≠ "model-final" ∧
  ∃ d, f !! name = Some (IsDir d) ∧ d_accuracy d = Some a.

(** Following the specification: tuples are compared lexicographically,
    the first element being the most significant. [ranks_below s t] when
    at the first position where [s] and [t] differ, [s] is the smaller. *)
Inductive ranks_below : list Q → list Q → Prop :=
| ranks_below_head x y s t :
    (x < y)%Q → ranks_below (x :: s) (y :: t)
| ranks_below_tail x y s t :
    (x == y)%Q → ranks_below s t → ranks_below (x :: s) (y :: t).

(** ** Reasoning about computations *)

(** [m] relates every world to the world it leaves, whatever it returns
    or raises. *)
Definition preserves {A} (R : relation world) (m : M A) : Prop :=
  ∀ w, R w (m w).2.

(** The worlds agree on an observation. *)
Definition same {X} (obs : world → X) : relation world :=
  fun w w' => obs w' = obs w.

(** The trace grows by events that satisfy [P]. *)
Definition traces (P : event → Prop) : relation world :=
  fun w w' => ∃ t, w_trace w' = w_trace w ++ t ∧ Forall P t.

(** ** The composite *)

(** No metric of the ranking tuple of [c] is in the one of [c']. *)
Definition metrics_disjoint (c c' : string) : Prop :=
  ∀ metric, metric ∈ _get_metrics c → metric ∉ _get_metrics c'.

(** The components in the order in which the composer writes them to
    the composite: the keys of the dict [bests] in their iteration
    order, which is the order of their first occurrence among the
    components. *)
Definition write_order (components : list string) : list string :=
  (foldl (fun bests component => dict_set bests component tt) []
     components).*1.

(** The composer writes [c'] after [c]. *)
Definition written_after (components : list string) (c c' : string) : Prop :=
  ∃ before after,
    write_order components = before ++ c :: after ∧ c' ∈ after.

(** [acc] after the metrics [metrics] of the record [a] are written to
    it. *)
Definition merge_metrics (a acc : accs) (metrics : list string) : accs :=
  foldl (fun acc metric =>
    match a !! metric with
    | Some v => <[metric := v]> acc
    | None => acc
    end) acc metrics.

Definition with_accuracy (acc : accs) (m : meta) : meta :=
  Meta (m_lang m) (m_pipeline m) (m_spacy_version m) (Some acc)
    (m_speed m) (m_vectors m) (m_name m) (m_version m).

(** The accuracy record in the directory [name], if any. *)
Definition accuracy_in (name : string) (w : world) : option accs :=
  lookup_dir (w_fs w) name ≫= d_accuracy.

(** The decidable form of [readable]. *)
Definition readableb (entries : list (string * node)) : bool :=
  forallb (fun e =>
    match e.2 with
    | IsDir d =>
        String.eqb e.1 "model-final"
        || match d_accuracy d with Some _ => true | None => false end
    | IsFile => true
    end) entries.

(** *** Concrete output directories *)

Definition record (las uas token_acc : Q) : accs :=
  {[ "las" := las; "uas" := uas; "token_acc" := token_acc ]}.

(** A model directory saved after [updates] updates. *)
Definition saved (pipes : list string) (updates : nat) (a : option accs)
  : dir :=
  Dir (list_to_map (map (fun p => (p, Blob Averaged updates)) pipes)) a None.

(** The process after the last epoch left the record [a] in [meta]. *)
Definition after_epochs (f : fs) (a : accs) : world :=
  set_meta (with_accuracy a empty_meta) (initial f).

(** Scenario A of the specification: three epochs whose parser LAS is
    0.80, 0.91 and 0.85. *)
Definition scenario_A : world :=
  after_epochs
    {[ "model0" := IsDir (saved ["parser"] 1 (Some (record 0.80 0.5 0.9)));
       "model1" := IsDir (saved ["parser"] 2 (Some (record 0.91 0.5 0.9)));
       "model2" := IsDir (saved ["parser"] 3 (Some (record 0.85 0.5 0.9)));
       "model-final" := IsDir (saved ["parser"] 3 None) ]}
    (record 0.85 0.5 0.9).

(** Two epochs of the pipeline [textcat,parser]: the parser is best at
    epoch 0 and the token accuracy, the only metric of [textcat], at
    epoch 1. *)
Definition shared_metric : world :=
  after_epochs
    {[ "model0" :=
         IsDir (saved ["textcat"; "parser"] 1 (Some (record 0.9 0.5 0.5)));
       "model1" :=
         IsDir (saved ["textcat"; "parser"] 2 (Some (record 0.8 0.5 0.7)));
       "model-final" := IsDir (saved ["textcat"; "parser"] 2 None) ]}
    (record 0.8 0.5 0.7).

(** ** The epoch loop *)

(** The event of [nlp.update] on a batch of epoch [i]. *)
Definition update_event (i : nat) (batch : list (doc * gold)) : event :=
  Call (OpUpdate i (map fst batch) (map snd batch)).

Definition nonempty {A} (l : list A) : bool :=
  match l with [] => false | _ :: _ => true end.

(** No collaborator raises. *)
Definition no_fault (E : collab) : Prop := ∀ o, fault E o = None.

(** ** The command *)

(** [m] preserves [R], and raises only exceptions that satisfy [P]. *)
Definition sound {A} (P : exn → Prop) (R : relation world) (m : M A) : Prop :=
  ∀ w, R w (m w).2 ∧ ∀ e, (m w).1 = Raise e → P e.

(** [m] raises, in every world. *)
Definition fails {A} (m : M A) : Prop := ∀ w, ∃ e, (m w).1 = Raise e.

(** The entries [keep] of the output directory and the open scopes are
    as before, and the trace has grown by events that satisfy [P]. *)
Definition steady (P : event → Prop) (keep : string → Prop) : relation world :=
  fun w w' =>
    (∀ name, keep name → w_fs w' !! name = w_fs w !! name) ∧
    w_scopes w' = w_scopes w ∧
    traces P w w'.

(** The events of lines 60-111. *)
Definition setup_event (ev : event) : Prop :=
  match ev with
  | EnvLog _ => True
  | Call (OpLoadModel _) | Call (OpGetLangClass _) | Call (OpCreatePipe _)
  | Call (OpLoadVectors _) | Call (OpGetPipe _) | Call (OpAddObjective _ _) =>
      True
  | _ => False
  end.

(** The pipeline list of line 80. *)
Definition pipeline_list (a : args) : list string :=
  map strip (split ","%char (pipeline a)).

(** An objective list is given for a component that the pipeline list
    lacks. *)
Definition misconfigured (a : args) (pipe_name multitasks : string) : Prop :=
  truthy multitasks = true ∧ contains (pipeline_list a) pipe_name = false.

Definition needs (pipe_name : string) : exn :=
  ValueError ("Needs '" +:+ pipe_name +:+ "' in pipeline").

Definition bad_paths (a : args) : Prop :=
  train_path_exists a = false ∨ dev_path_exists a = false ∨
  meta_path a = MetaMissing ∨ meta_path a = MetaNotDict.

(** The exceptions of lines 60-111 and their causes. *)
Definition configure_error (E : collab) (a : args) (e : exn) : Prop :=
  (e = SystemExit 1 ∧ bad_paths a) ∨
  (∃ o, fault E o = Some e) ∨
  (e = needs "parser" ∧ misconfigured a "parser" (parser_multitasks a)) ∨
  (e = needs "ner" ∧ misconfigured a "ner" (entity_multitasks a)).

(** The name of an epoch directory. *)
Definition epoch_path (i : nat) : string := "model" +:+ pretty i.

(** A name that no epoch directory has. *)
Definition no_epoch_path (name : string) : Prop := ∀ i, name ≠ epoch_path i.

(** The world on entry into a scope and on exit from it. *)
Definition enter (s : scope) (w : world) : world :=
  set_trace (w_trace w ++ [Enter s]) (set_scopes (s :: w_scopes w) w).

Definition leave (s : scope) (w : world) : world :=
  set_trace (w_trace w ++ [Exit s]) (set_scopes (tail (w_scopes w)) w).

(** The components of the pipeline as [nlp.to_disk] writes them. *)
Definition snapshot (w : world) : gmap string blob :=
  list_to_map (map (fun name => (name, Blob (current_view w) (w_updates w)))
                   (w_pipe_names w)).

(** The directory [path] after [nlp.to_disk] wrote to it. *)
Definition to_disk_dir (w : world) (path : string) : dir :=
  match w_fs w !! path with
  | Some (IsDir d) => Dir (snapshot w ∪ d_pipes d) (d_accuracy d) (d_meta d)
  | _ => Dir (snapshot w) None None
  end.

(** The world after a call of a collaborator that returns. *)
Definition called (o : op) (w : world) : world :=
  set_trace (w_trace w ++ [Call o]) w.

(** *** Concrete runs *)

(** The accuracy record of epoch [i] in the runs below: the parser LAS of
    scenario A of the specification for the first three epochs. *)
Definition scores_at (i : nat) : accs :=
  let las := match i with O => 0.80%Q | S O => 0.91%Q | _ => 0.85%Q end in
  {[ "las" := las; "uas" := 0.5%Q; "token_acc" := 0.9%Q; "tags_acc" := 0.7%Q ]}.

(** Collaborators that raise where [faults] says: a blank English model,
    three training documents of two, one and three tokens, one
    development document of two tokens, a clock that advances by one
    second per reading and a target batch size of two tokens. *)
Definition collaborators (faults : op → option exn) : collab :=
  Collab faults [] "en" "2.0.12" (0, 0, 0)%nat
    (fun _ => [(["a"; "b"], []); (["c"], []); (["d"; "e"; "f"], [])])
    (fun _ _ => [(["x"; "y"], [])])
    (fun i _ => scores_at i)
    (fun n => inject_Z (Z.of_nat n))
    (fun _ => 2%Q) (fun _ => 0.2%Q).

Definition never : op → option exn := fun _ => None.

(** The evaluation of epoch 2 raises. *)
Definition in_epoch_2 (o : op) : option exn :=
  match o with
  | OpEvaluate 2 _ => Some (Fault "evaluate")
  | _ => None
  end.

(** The command [train en output train.json dev.json] with the options
    [--pipeline], [--n-iter], [--use-gpu], [--entity-multitasks] and
    [--verbose]. *)
Definition command (pipeline : string) (n_iter use_gpu : Z)
  (entity_multitasks : string) (verbose : bool) : args :=
  Args "en" true true None pipeline None n_iter 0 use_gpu "0.0.0" NoMetaPath
    "" entity_multitasks 0 false false verbose false.

(** Epochs 9 and 10 with the same accuracy record. *)
Definition tie : fs :=
  {[ "model9" := IsDir (saved ["parser"] 10 (Some (record 0.9 0.5 0.9)));
     "model10" := IsDir (saved ["parser"] 11 (Some (record 0.9 0.5 0.9)));
     "model-final" := IsDir (saved ["parser"] 11 None) ]}.

(** ** The tournament on a listing *)

(** [_find_best] on a listing [entries] of the experiment directory, in
    the order of the listing. *)
Definition find_best_in (entries : list (string * node)) (component : string)
  : res (option string) :=
  match find_best_loop entries component [] with
  | Raise e => Raise e
  | Ok accuracies =>
      match accuracies with
      | [] => Ok None
      | _ :: _ =>
          match Py.max accuracies with
          | Ok m => Ok (Some m.2)
          | Raise e => Raise e
          end
      end
  end.

(** An output directory of two epochs and a log file beside them. *)
Definition two_epochs : fs :=
  {[ "model0" := IsDir (saved ["tagger"] 1 (Some {[ "tags_acc" := 0.9%Q ]}));
     "model1" := IsDir (saved ["tagger"] 2 (Some {[ "tags_acc" := 0.8%Q ]}));
     "model-final" := IsDir (saved ["tagger"] 2 None) ]}.

(** ** What a computation changes in the output directory *)

(** The entries of the output directory outside [paths] are as before,
    and no entry has disappeared. *)
Definition changes (paths : string → Prop) : relation world :=
  fun w w' =>
    (∀ name, ¬ paths name → w_fs w' !! name = w_fs w !! name) ∧
    (∀ name, is_Some (w_fs w !! name) → is_Some (w_fs w' !! name)).

(** The output directory of a run that is started again: two epochs,
    the final snapshot and the composite of the first run. *)
Definition second_run : world :=
  after_epochs
    (<["model-best" :=
         IsDir (saved ["tagger"] 1 (Some {[ "tags_acc" := 0.9%Q ]}))]>
       two_epochs)
    {[ "tags_acc" := 0.8%Q ]}.


(** ** The command: what it changes *)

(** The entries of the output directory that [train] writes: one
    directory per epoch, the final snapshot and the composite. *)
Definition train_paths (a : args) (name : string) : Prop :=
  (∃ i, (i < Z.to_nat (n_iter a))%nat ∧ name = epoch_path i) ∨
  name = "model-final" ∨ name = "model-best".

(** Lines 60-194: [train] up to the call of the composer. *)
Definition training (E : collab) (a : args) : M unit :=
  prepare E a;; try_finally (epoch_loop E a) (save_final E).

(** The command of [command] when the development data is missing. *)
Definition without_dev_data : args :=
  Args "en" true false None "tagger" None 30 0 (-1) "0.0.0" NoMetaPath
    "" "" 0 false false true false.

(** ** The pipeline of the command *)

(** [merge_subtokens], when the parser learns the tokenization. *)
Definition token_merger (a : args) : list string :=
  if learn_tokens a then ["merge_subtokens"] else [].

(** No base model is given. *)
Definition from_blank (a : args) : Prop :=
  ∀ name, base_model a = Some name → truthy name = false.

(** The command of [command] on top of the base model [en_base]. *)
Definition on_base (pipeline : string) : args :=
  Args "en" true true (Some "en_base") pipeline None 1 0 (-1) "0.0.0"
    NoMetaPath "" "" 0 false false false false.

(** Collaborators whose base model has a tagger, a parser and an entity
    recogniser. *)
Definition with_base_model : collab :=
  Collab never ["tagger"; "parser"; "ner"] "en" "2.0.12" (0, 0, 0)%nat
    (fun _ => []) (fun _ _ => []) (fun i _ => scores_at i)
    (fun n => inject_Z (Z.of_nat n)) (fun _ => 2%Q) (fun _ => 0.2%Q).

(** ** The record of an epoch *)

(** What a checkpoint reads of the world and does not change before it
    updates the meta descriptor. *)
Definition pipeline_state (w : world)
  : meta * string * list string * nat :=
  (w_meta w, w_lang w, w_pipe_names w, w_updates w).


(** A name and a version that the meta descriptor holds are kept. *)
Definition keeps_identity : relation world :=
  fun w w' =>
    (∀ n, m_name (w_meta w) = Some n → m_name (w_meta w') = Some n) ∧
    (∀ v, m_version (w_meta w) = Some v → m_version (w_meta w') = Some v).

(** [m] leaves every world it raises in related by [R] to the one it
    started in. *)
Definition raises_in {A} (R : relation world) (m : M A) : Prop :=
  ∀ w e w', m w = (Raise e, w') → R w w'.

(** A meta file that names and versions the model. *)
Definition named_meta : meta :=
  Meta None None None None None None (Some "en_custom") (Some "1.2.3").

(** The command of [command] with the meta file [named_meta]. *)
Definition with_meta_file : args :=
  Args "en" true true None "tagger" None 2 0 (-1) "0.0.0"
    (MetaDict named_meta) "" "" 0 false false false false.

(** A clock that stands still. *)
Definition stopped_clock : collab :=
  Collab never [] "en" "2.0.12" (0, 0, 0)%nat
    (fun _ => []) (fun _ _ => [(["x"; "y"], [])]) (fun i _ => scores_at i)
    (fun _ => 1%Q) (fun _ => 2%Q) (fun _ => 0.2%Q).

(** ** The side objectives of the command *)

(** The objectives that the list [multitasks] asks for on the component
    [pipe_name]: none when the list is the empty string, and the names
    between its commas otherwise. *)
Definition requested (pipe_name multitasks : string)
  : list (string * string) :=
  if truthy multitasks then map (pair pipe_name) (split ","%char multitasks)
  else [].

(** ** The composer without an epoch *)

(** The exception of [None / component]. *)
Definition none_path : exn :=
  TypeError "unsupported operand type(s) for /: 'NoneType' and 'str'".

(** The output directory holds no sub-directory but [model-final]. *)
Definition no_epoch (f : fs) : Prop :=
  ∀ name d, f !! name = Some (IsDir d) → name = "model-final".

(** An output directory that holds the final snapshot and a log file. *)
Definition only_final : world :=
  after_epochs
    {[ "model-final" := IsDir (saved ["tagger"; "parser"] 0 None);
       "train.log" := IsFile ]}
    ∅.

(** ** The progress row *)

(** The value that the row shows for the column [col]: the entry of
    [dev_scores] if there is one, and [fallback] otherwise. *)
Definition shown (dev_scores : accs) (col : string) (fallback : Q) : Q :=
  default fallback (dev_scores !! col).

(** ** A run that nothing disturbs *)

(** The pipeline of a blank model of the command. *)
Definition blank_pipeline (a : args) : list string :=
  pipeline_list a ++ token_merger a.

(** The scorer reports the metrics of every component of the pipeline,
    at every epoch and on both backends. *)
Definition scores_cover (E : collab) (pipes : list string) : Prop :=
  ∀ i on_cpu c metric, c ∈ pipes → metric ∈ _get_metrics c →
    is_Some (scorer_scores E i on_cpu !! metric).

(** * Verification *)

(** ** Python's ordering of floats, lists, paths and tuples *)

Section lawful.

Context {A : Type} (cmp : A → A → comparison) `{!Lawful cmp}.

Lemma cmp_refl x : cmp x x = Eq.
Proof. pose proof (cmp_sym (cmp:=cmp) x x) as H. destruct (cmp x x); done. Qed.

Lemma cmp_eq_r x y z : cmp x y = Eq → cmp z x = cmp z y.
Proof.
  intros H. rewrite (cmp_sym (cmp:=cmp) x z), (cmp_sym (cmp:=cmp) y z).
  f_equal. by apply (cmp_eq_l (cmp:=cmp)).
Qed.

Lemma cmp_gt_lt x y : cmp x y = Gt ↔ cmp y x = Lt.
Proof.
  rewrite (cmp_sym (cmp:=cmp) x y). destruct (cmp x y); simpl; split; done.
Qed.

(** "Not greater" is transitive. *)
Lemma cmp_le_trans x y z : cmp x y ≠ Gt → cmp y z ≠ Gt → cmp x z ≠ Gt.
Proof.
  intros Hxy Hyz. destruct (cmp x y) eqn:Exy; [| |done].
  - by rewrite (cmp_eq_l (cmp:=cmp) x y z Exy).
  - destruct (cmp y z) eqn:Eyz; [| |done].
    + by rewrite <-(cmp_eq_r y z x Eyz), Exy.
    + by rewrite (cmp_lt_trans (cmp:=cmp) x y z Exy Eyz).
Qed.

End lawful.

#[global] Instance lex_cmp_lawful {A B} (c1 : A → A → comparison)
  (c2 : B → B → comparison) `{!Lawful c1, !Lawful c2} :
  Lawful (lex_cmp c1 c2).
Proof.
  split; unfold lex_cmp.
  - intros [x1 x2] [y1 y2]; simpl.
    rewrite (cmp_sym (cmp:=c1) x1 y1), (cmp_sym (cmp:=c2) x2 y2).
    by destruct (c1 x1 y1).
  - intros [x1 x2] [y1 y2] [z1 z2]; simpl.
    destruct (c1 x1 y1) eqn:E1; [| |done]; destruct (c1 y1 z1) eqn:E2;
      try done; intros H1 H2.
    + rewrite (cmp_eq_l (cmp:=c1) x1 y1 z1 E1), E2.
      by apply (cmp_lt_trans (cmp:=c2) x2 y2 z2).
    + by rewrite (cmp_eq_l (cmp:=c1) x1 y1 z1 E1), E2.
    + by rewrite <-(cmp_eq_r c1 y1 z1 x1 E2), E1.
    + by rewrite (cmp_lt_trans (cmp:=c1) x1 y1 z1 E1 E2).
  - intros [x1 x2] [y1 y2] [z1 z2]; simpl.
    destruct (c1 x1 y1) eqn:E1; [|done..]. intros H.
    rewrite (cmp_eq_l (cmp:=c1) x1 y1 z1 E1).
    destruct (c1 y1 z1); [|done..].
    by apply (cmp_eq_l (cmp:=c2)).
Qed.

#[global] Instance list_cmp_lawful {A} (c : A → A → comparison)
  `{!Lawful c} : Lawful (list_cmp c).
Proof.
  split.
  - intros x. induction x as [|x a IH]; intros [|y b]; simpl; try done.
    rewrite (cmp_sym (cmp:=c) x y). destruct (c x y); simpl; auto.
  - intros x. induction x as [|x a IH]; intros [|y b] [|z d]; simpl;
      try done.
    destruct (c x y) eqn:E1; [| |done]; destruct (c y z) eqn:E2;
      try done; intros H1 H2.
    + rewrite (cmp_eq_l (cmp:=c) x y z E1), E2. eauto.
    + by rewrite (cmp_eq_l (cmp:=c) x y z E1), E2.
    + by rewrite <-(cmp_eq_r c y z x E2), E1.
    + by rewrite (cmp_lt_trans (cmp:=c) x y z E1 E2).
  - intros x. induction x as [|x a IH]; intros [|y b] [|z d]; simpl;
      try done.
    destruct (c x y) eqn:E1; [|done..]. intros H.
    rewrite (cmp_eq_l (cmp:=c) x y z E1).
    destruct (c y z); [|done..]. eauto.
Qed.

#[global] Instance Qcompare_lawful : Lawful Qcompare.
Proof.
  split.
  - intros x y. symmetry. apply Qcompare_antisym.
  - intros x y z. rewrite <-!Qlt_alt. apply Qlt_trans.
  - intros x y z. rewrite <-Qeq_alt. intros H. by rewrite H.
Qed.

#[global] Instance ascii_compare_lawful : Lawful Ascii.compare.
Proof.
  split; unfold Ascii.compare.
  - intros x y. apply N.compare_antisym.
  - intros x y z. rewrite !N.compare_lt_iff. apply N.lt_trans.
  - intros x y z. rewrite N.compare_eq_iff. intros H. by rewrite H.
Qed.

(** [String.compare] is the lexicographic comparison of the characters. *)
Lemma string_compare_list s t :
  String.compare s t
  = list_cmp Ascii.compare (String.list_ascii_of_string s)
      (String.list_ascii_of_string t).
Proof.
  revert t. induction s as [|c s IH]; intros [|d t]; simpl; try done.
  rewrite IH. by destruct (Ascii.compare c d).
Qed.

#[global] Instance string_compare_lawful : Lawful String.compare.
Proof.
  split; intros; rewrite ?string_compare_list in *.
  - apply (cmp_sym (cmp:=list_cmp Ascii.compare)).
  - by eapply (cmp_lt_trans (cmp:=list_cmp Ascii.compare)).
  - by apply (cmp_eq_l (cmp:=list_cmp Ascii.compare)).
Qed.

Lemma float_gt_cmp x y : float_gt x y = true ↔ (x ?= y)%Q = Gt.
Proof. unfold float_gt. destruct (x ?= y)%Q; split; done. Qed.

Lemma Qeq_bool_cmp x y : Qeq_bool x y = true ↔ (x ?= y)%Q = Eq.
Proof. rewrite Qeq_bool_iff. apply Qeq_alt. Qed.

Lemma list_eq_cmp a b : list_eq a b = true ↔ list_cmp Qcompare a b = Eq.
Proof.
  revert b. induction a as [|x a IH]; intros [|y b]; simpl; try done.
  rewrite andb_true_iff, IH, Qeq_bool_cmp.
  destruct (x ?= y)%Q; split; try done; by intros [??].
Qed.

Lemma list_gt_cmp a b : list_gt a b = true ↔ list_cmp Qcompare a b = Gt.
Proof.
  revert b. induction a as [|x a IH]; intros [|y b]; simpl; try done.
  destruct (Qeq_bool x y) eqn:E.
  - apply Qeq_bool_cmp in E. by rewrite E.
  - rewrite float_gt_cmp. destruct (x ?= y)%Q eqn:E'; try done.
    apply Qeq_bool_cmp in E'. congruence.
Qed.

Lemma path_gt_cmp p q : path_gt p q = true ↔ String.compare p q = Gt.
Proof.
  unfold path_gt, String.ltb. rewrite (cmp_gt_lt String.compare).
  destruct (String.compare q p); split; done.
Qed.

Lemma tuple_gt_cmp a b : tuple_gt a b = true ↔ tuple_cmp a b = Gt.
Proof.
  unfold tuple_gt, tuple_cmp, lex_cmp. destruct (list_eq a.1 b.1) eqn:E.
  - apply list_eq_cmp in E. rewrite E. apply path_gt_cmp.
  - rewrite list_gt_cmp. destruct (list_cmp Qcompare a.1 b.1) eqn:E'; try done.
    apply list_eq_cmp in E'. congruence.
Qed.

Lemma tuple_gt_false a b : tuple_gt a b = false ↔ tuple_cmp a b ≠ Gt.
Proof. rewrite <-tuple_gt_cmp. by destruct (tuple_gt a b). Qed.

(** [max] returns an item of the list that no item is greater than. *)
Lemma max_from_spec m l :
  max_from m l ∈ m :: l ∧ ∀ x, x ∈ m :: l → tuple_gt x (max_from m l) = false.
Proof.
  revert m. induction l as [|y l IH]; intros m; simpl.
  - split; [set_solver|]. intros x Hx. apply tuple_gt_false.
    assert (x = m) as -> by set_solver.
    by rewrite (cmp_refl tuple_cmp).
  - destruct (IH (if tuple_gt y m then y else m)) as [Hin Hmax].
    split; [destruct (tuple_gt y m); set_solver|].
    intros x Hx. destruct (tuple_gt y m) eqn:E.
    + apply elem_of_cons in Hx as [->|Hx]; [|apply Hmax; set_solver].
      apply tuple_gt_false.
      apply (cmp_le_trans tuple_cmp _ y); [|apply tuple_gt_false, Hmax; set_solver].
      apply tuple_gt_cmp, (cmp_gt_lt tuple_cmp) in E. by rewrite E.
    + apply elem_of_cons in Hx as [->|Hx]; [apply Hmax; set_solver|].
      apply elem_of_cons in Hx as [->|Hx]; [|apply Hmax; set_solver].
      apply tuple_gt_false.
      apply (cmp_le_trans tuple_cmp _ m); [by apply tuple_gt_false|].
      apply tuple_gt_false, Hmax. set_solver.
Qed.

(** Two items of which neither is greater are the same item, up to [==]
    on the scores. *)
Lemma tuple_cmp_eq a b :
  tuple_cmp a b = Eq → list_eq a.1 b.1 = true ∧ a.2 = b.2.
Proof.
  unfold tuple_cmp, lex_cmp.
  destruct (list_cmp Qcompare a.1 b.1) eqn:E; [|done..].
  intros H%String.compare_eq_iff. by rewrite list_eq_cmp.
Qed.

(** ** The tournament: [_get_metrics] and [_find_best] *)

Lemma find_best_loop_ok entries component acc :
  readable entries →
  find_best_loop entries component acc
  = Ok (acc ++ candidates entries component).
Proof.
  revert acc. induction entries as [|[name x] entries IH]; intros acc Hr; simpl.
  { by rewrite app_nil_r. }
  assert (readable entries) as Hr'.
  { intros n d Hin. apply Hr. by right. }
  destruct x as [|d]; simpl; [by apply IH|].
  destruct (String.eqb_spec name "model-final") as [->|Hne]; simpl;
    [by apply IH|].
  destruct (Hr name d) as [a Ha]; [by left|done|]. rewrite Ha.
  rewrite IH by done. by rewrite <-app_assoc.
Qed.

Lemma find_best_loop_inv entries component acc l :
  find_best_loop entries component acc = Ok l →
  readable entries ∧ l = acc ++ candidates entries component.
Proof.
  revert acc. induction entries as [|[name x] entries IH]; intros acc; simpl.
  { intros [= <-]. split; [|by rewrite app_nil_r]. intros ?? []%elem_of_nil. }
  assert (∀ acc', find_best_loop entries component acc' = Ok l →
    (x = IsFile ∨ name = "model-final" ∨ ∃ d, x = IsDir d ∧ is_Some (d_accuracy d)) →
    readable ((name, x) :: entries) ∧ l = acc' ++ candidates entries component)
    as Hstep.
  { intros acc' [Hr ->]%IH Hx. split; [|done].
    intros n d [[= -> <-]|Hin]%elem_of_cons Hn; [|by eapply Hr].
    destruct Hx as [?|[?|(d' & [= ->] & ?)]]; done. }
  destruct x as [|d]; simpl; [intros H; apply Hstep; auto|].
  destruct (String.eqb_spec name "model-final") as [->|Hne]; simpl;
    [intros H; apply Hstep; auto|].
  destruct (d_accuracy d) as [a|] eqn:Ha; [|done].
  intros H. destruct (Hstep _ H) as [Hr ->]; [by eauto 10|].
  split; [done|]. by rewrite <-app_assoc.
Qed.

Lemma find_best_loop_raise entries component acc name d :
  (name, IsDir d) ∈ entries → name ≠ "model-final" → d_accuracy d = None →
  ∃ p, find_best_loop entries component acc = Raise (FileNotFoundError p).
Proof.
  intros Hin Hne Hd.
  destruct (find_best_loop entries component acc) as [l|e] eqn:E.
  - apply find_best_loop_inv in E as [Hr _].
    destruct (Hr name d Hin Hne) as [a Ha]. congruence.
  - revert acc E. clear Hin.
    induction entries as [|[n x] entries IH]; intros acc; simpl; [done|].
    destruct x as [|d']; simpl; [by apply IH|].
    destruct (negb (String.eqb n "model-final")); [|by apply IH].
    destruct (d_accuracy d'); [by apply IH|]. intros [= <-]. eauto.
Qed.

Lemma elem_of_candidates entries component s name :
  (s, name) ∈ candidates entries component ↔
  name ≠ "model-final" ∧
  ∃ d a, (name, IsDir d) ∈ entries ∧ d_accuracy d = Some a
         ∧ s = scores_of a component.
Proof.
  unfold candidates. rewrite list_elem_of_In, in_flat_map. split.
  - intros ([n x] & Hin & Hx). simpl in Hx. apply list_elem_of_In in Hin.
    destruct x as [|d]; [done|].
    destruct (String.eqb_spec n "model-final") as [->|Hne]; simpl in Hx;
      [done|].
    destruct (d_accuracy d) as [a|] eqn:Ha; [|done].
    destruct Hx as [[= <- <-]|[]]. eauto 10.
  - intros (Hne & d & a & Hin & Ha & ->). exists (name, IsDir d).
    split; [by apply list_elem_of_In|]. simpl.
    destruct (String.eqb_spec name "model-final"); [done|]. simpl.
    rewrite Ha. by left.
Qed.

Lemma elem_of_iterdir (f : fs) name x : (name, x) ∈ iterdir f ↔ f !! name = Some x.
Proof. apply elem_of_map_to_list. Qed.

Lemma elem_of_candidates_fs (f : fs) component s name :
  (s, name) ∈ candidates (iterdir f) component ↔
  ∃ a, epoch_record f name a ∧ s = scores_of a component.
Proof.
  rewrite elem_of_candidates. unfold epoch_record.
  setoid_rewrite elem_of_iterdir. naive_solver.
Qed.

(** What [_find_best] returns, in terms of the candidates. *)
Lemma find_best_Some (f : fs) component winner :
  _find_best f component = Ok (Some winner) →
  ∃ s, (s, winner) ∈ candidates (iterdir f) component ∧
    ∀ x, x ∈ candidates (iterdir f) component → tuple_gt x (s, winner) = false.
Proof.
  unfold _find_best.
  destruct (find_best_loop _ _ _) as [l|e] eqn:E; [|done].
  apply find_best_loop_inv in E as [_ ->]. simpl.
  destruct (candidates _ _) as [|m l]; [done|]. simpl. intros [= <-].
  destruct (max_from_spec m l) as [Hin Hmax].
  exists (max_from m l).1. by rewrite <-surjective_pairing.
Qed.

Lemma find_best_None (f : fs) component :
  _find_best f component = Ok None ↔
  readable (iterdir f) ∧ candidates (iterdir f) component = [].
Proof.
  unfold _find_best. split.
  - destruct (find_best_loop _ _ _) as [l|e] eqn:E; [|done].
    apply find_best_loop_inv in E as [Hr ->]. simpl.
    by destruct (candidates _ _).
  - intros [Hr Hc]. by rewrite find_best_loop_ok, Hc.
Qed.

(** [_find_best] returns a winner as soon as an epoch exists and every
    sub-directory is readable. *)
Lemma find_best_total (f : fs) component name a :
  readable (iterdir f) → epoch_record f name a →
  ∃ winner, _find_best f component = Ok (Some winner).
Proof.
  intros Hr Ha. unfold _find_best. rewrite find_best_loop_ok by done. simpl.
  destruct (candidates _ _) as [|m l] eqn:E; [|by eauto].
  assert ((scores_of a component, name) ∈ candidates (iterdir f) component)
    as Hin by (apply elem_of_candidates_fs; eauto).
  rewrite E in Hin. by apply elem_of_nil in Hin.
Qed.

Lemma find_best_Raise (f : fs) component name d :
  f !! name = Some (IsDir d) → name ≠ "model-final" → d_accuracy d = None →
  ∃ p, _find_best f component = Raise (FileNotFoundError p).
Proof.
  intros Hin%elem_of_iterdir Hne Hd. unfold _find_best.
  destruct (find_best_loop_raise _ component [] _ _ Hin Hne Hd) as [p ->].
  eauto.
Qed.

(** The winner is an epoch, and no epoch has a greater [(scores, path)]
    pair. *)
Lemma find_best_spec (f : fs) component winner :
  _find_best f component = Ok (Some winner) →
  ∃ a, epoch_record f winner a ∧
    ∀ name a', epoch_record f name a' →
      tuple_gt (scores_of a' component, name) (scores_of a component, winner)
      = false.
Proof.
  intros (s & (a & Ha & ->)%elem_of_candidates_fs & Hmax)%find_best_Some.
  exists a. split; [done|]. intros name a' Ha'.
  apply Hmax, elem_of_candidates_fs. eauto.
Qed.

(** The specification's order and Python's agree on tuples of one length. *)
Lemma ranks_below_list_gt s t :
  length s = length t → ranks_below s t ↔ list_gt t s = true.
Proof.
  revert t. induction s as [|x s IH]; intros [|y t]; simpl; try done.
  { split; [inversion 1|done]. }
  intros [= Hlen]. destruct (Qeq_bool y x) eqn:E.
  - apply Qeq_bool_iff in E. rewrite <-IH by done. split.
    + inversion 1; subst; [|done].
      exfalso. eapply Qlt_not_eq; [done|]. by symmetry.
    + intros. apply ranks_below_tail; [by symmetry|done].
  - apply Qeq_bool_neq in E. rewrite float_gt_cmp, <-Qgt_alt. split.
    + inversion 1; subst; [done|]. exfalso. apply E. by symmetry.
    + by constructor.
Qed.

Lemma scores_of_length a component :
  length (scores_of a component) = length (_get_metrics component).
Proof. unfold scores_of. by rewrite length_map. Qed.

Lemma list_eq_refl s : list_eq s s = true.
Proof. apply list_eq_cmp, (cmp_refl (list_cmp Qcompare)). Qed.

(** A pair with greater scores is a greater pair. *)
Lemma tuple_gt_scores s t p q : list_gt s t = true → tuple_gt (s, p) (t, q) = true.
Proof.
  intros H. unfold tuple_gt; simpl. destruct (list_eq s t) eqn:E; [|done].
  apply list_eq_cmp in E. apply list_gt_cmp in H. congruence.
Qed.

(** C8. The tournament projects each accuracy record onto the metric tuple
    of the component, (las, uas, token_acc) for the parser, (tags_acc) for
    the tagger, (ents_f, ents_p, ents_r) for ner and (token_acc) for any
    other component, with 0.0 for a missing metric, and no epoch ranks
    above the winner in the lexicographic order of these tuples; a winner
    exists as soon as an epoch does and every sub-directory is readable. *)
Theorem find_best_ranks_metric_tuples :
  _get_metrics "parser" = ["las"; "uas"; "token_acc"] ∧
  _get_metrics "tagger" = ["tags_acc"] ∧
  _get_metrics "ner" = ["ents_f"; "ents_p"; "ents_r"] ∧
  (∀ component, component ≠ "parser" → component ≠ "tagger" →
     component ≠ "ner" → _get_metrics component = ["token_acc"]) ∧
  (∀ (a : accs) component k metric,
     _get_metrics component !! k = Some metric →
     scores_of a component !! k
     = Some (match a !! metric with Some v => v | None => 0%Q end)) ∧
  (∀ (f : fs) component winner,
     _find_best f component = Ok (Some winner) →
     ∃ a, epoch_record f winner a ∧
       ∀ name a', epoch_record f name a' →
         ¬ ranks_below (scores_of a component) (scores_of a' component)) ∧
  (∀ (f : fs) component name a,
     readable (iterdir f) → epoch_record f name a →
     ∃ winner, _find_best f component = Ok (Some winner)).
Proof.
  split_and!; try done.
  - intros component H1 H2 H3. unfold _get_metrics.
    destruct (String.eqb_spec component "parser"); [done|].
    destruct (String.eqb_spec component "tagger"); [done|].
    by destruct (String.eqb_spec component "ner").
  - intros a component k metric Hk. unfold scores_of.
    rewrite list_lookup_fmap, Hk. simpl. by destruct (a !! metric).
  - intros f component winner (a & Ha & Hmax)%find_best_spec.
    exists a. split; [done|]. intros name a' Ha' Hlt.
    apply ranks_below_list_gt in Hlt; [|by rewrite !scores_of_length].
    specialize (Hmax name a' Ha').
    by rewrite (tuple_gt_scores _ _ name winner Hlt) in Hmax.
  - intros f component name a. apply find_best_total.
Qed.

(** C4. When epochs tie on the metric tuple of the winner, the winner is
    the tied epoch whose location is the greatest in the lexicographic
    order of strings; an epoch [model9] that ties with [model10] is chosen
    over it. *)
Theorem find_best_tie_break :
  (∀ (f : fs) component winner,
     _find_best f component = Ok (Some winner) →
     ∃ a, epoch_record f winner a ∧
       ∀ name a', epoch_record f name a' →
         scores_of a' component = scores_of a component →
         String.leb name winner = true) ∧
  (∀ (f : fs) component a,
     readable (iterdir f) →
     epoch_record f "model9" a → epoch_record f "model10" a →
     (∀ name a', epoch_record f name a' → name = "model9" ∨ name = "model10") →
     _find_best f component = Ok (Some "model9")).
Proof.
  assert (∀ (f : fs) component winner,
     _find_best f component = Ok (Some winner) →
     ∃ a, epoch_record f winner a ∧
       ∀ name a', epoch_record f name a' →
         scores_of a' component = scores_of a component →
         String.leb name winner = true) as Hgen.
  { intros f component winner (a & Ha & Hmax)%find_best_spec.
    exists a. split; [done|]. intros name a' Ha' Heq.
    specialize (Hmax name a' Ha'). unfold tuple_gt in Hmax; simpl in Hmax.
    rewrite Heq, list_eq_refl in Hmax. unfold path_gt, String.ltb in Hmax.
    unfold String.leb. rewrite (cmp_sym (cmp:=String.compare) winner name).
    by destruct (String.compare winner name). }
  split; [done|].
  intros f component a Hr H9 H10 Hall.
  destruct (find_best_total f component _ _ Hr H9) as [winner Hw].
  rewrite Hw. destruct (Hgen _ _ _ Hw) as (aw & Haw & Htie).
  destruct (Hall _ _ Haw) as [-> | ->]; [done|].
  assert (aw = a) as ->.
  { destruct Haw as [_ (d & Hd & Hda)]. destruct H10 as [_ (d' & Hd' & Hda')].
    congruence. }
  by specialize (Htie "model9" a H9 eq_refl).
Qed.

(** ** Running computations *)

Lemma run_bind {A B} (m : M A) (k : A → M B) w :
  (m ≫= k) w = match m w with
               | (Ok a, w') => k a w'
               | (Raise e, w') => (Raise e, w')
               end.
Proof. done. Qed.

Lemma bind_Ok {A B} (m : M A) (k : A → M B) w a w' :
  m w = (Ok a, w') → (m ≫= k) w = k a w'.
Proof. intros H. by rewrite run_bind, H. Qed.

Lemma bind_Raise {A B} (m : M A) (k : A → M B) w e w' :
  m w = (Raise e, w') → (m ≫= k) w = (Raise e, w').
Proof. intros H. by rewrite run_bind, H. Qed.

Lemma bind_Ok_inv {A B} (m : M A) (k : A → M B) w b w' :
  (m ≫= k) w = (Ok b, w') →
  ∃ a w1, m w = (Ok a, w1) ∧ k a w1 = (Ok b, w').
Proof. rewrite run_bind. destruct (m w) as [[a|e] w1]; [eauto|done]. Qed.


Lemma for_each_nil {A} (body : A → M unit) w :
  for_each [] body w = (Ok tt, w).
Proof. done. Qed.

Lemma for_each_cons {A} (x : A) l (body : A → M unit) w :
  for_each (x :: l) body w
  = match body x w with
    | (Ok _, w') => for_each l body w'
    | (Raise e, w') => (Raise e, w')
    end.
Proof. done. Qed.

(** A loop whose body cannot fail under an invariant indexed by the items
    done so far. *)
Lemma for_each_Ok {A} (I : list A → world → Prop) l (body : A → M unit) w :
  I [] w →
  (∀ done x todo w, l = done ++ x :: todo → I done w →
     ∃ w', body x w = (Ok tt, w') ∧ I (done ++ [x]) w') →
  ∃ w', for_each l body w = (Ok tt, w') ∧ I l w'.
Proof.
  intros H0 Hstep.
  cut (∀ todo done w, l = done ++ todo → I done w →
    ∃ w', for_each todo body w = (Ok tt, w') ∧ I l w').
  { intros Hcut. by apply (Hcut l []). }
  clear w H0. induction todo as [|x todo IH]; intros done w Hl Hi.
  - exists w. rewrite app_nil_r in Hl. by subst.
  - destruct (Hstep done x todo w Hl Hi) as (w1 & Hx & Hi1).
    rewrite for_each_cons, Hx. apply (IH (done ++ [x])); [|done].
    by rewrite <-app_assoc.
Qed.

(** ** Relations that a computation preserves *)

#[global] Instance same_preorder {X} (obs : world → X) : PreOrder (same obs).
Proof.
  split; [by intros w|]. intros w1 w2 w3 H1 H2. unfold same in *. congruence.
Qed.

#[global] Instance traces_preorder P : PreOrder (traces P).
Proof.
  split.
  - intros w. exists []. by rewrite app_nil_r.
  - intros w1 w2 w3 (t1 & H1 & F1) (t2 & H2 & F2). exists (t1 ++ t2).
    rewrite H2, H1, app_assoc. split; [done|]. by apply Forall_app.
Qed.

Section preserves.

Context (R : relation world) `{!PreOrder R}.

Lemma preserves_ret {A} (a : A) : preserves R (ret a).
Proof. by intros w. Qed.

Lemma preserves_raise {A} e : preserves R (raise (A:=A) e).
Proof. by intros w. Qed.

Lemma preserves_gets {A} (f : world → A) : preserves R (gets f).
Proof. by intros w. Qed.

Lemma preserves_lift {A} (r : res A) : preserves R (lift r).
Proof. by intros w. Qed.

Lemma preserves_modify f : (∀ w, R w (f w)) → preserves R (modify f).
Proof. intros H w. apply H. Qed.

Lemma preserves_bind {A B} (m : M A) (k : A → M B) :
  preserves R m → (∀ a, preserves R (k a)) → preserves R (m ≫= k).
Proof.
  intros Hm Hk w. rewrite run_bind. specialize (Hm w).
  destruct (m w) as [[a|e] w1]; simpl in *; [|done].
  by etrans; [|apply Hk].
Qed.

Lemma preserves_for_each {A} l (body : A → M unit) :
  (∀ x, x ∈ l → preserves R (body x)) → preserves R (for_each l body).
Proof.
  induction l as [|x l IH]; intros H; [by intros w|].
  intros w. rewrite for_each_cons. pose proof (H x (list_elem_of_here _ _) w) as Hx.
  destruct (body x w) as [[[]|e] w1]; simpl in *; [|done].
  etrans; [done|]. apply IH. intros y Hy. apply H. by right.
Qed.

Lemma preserves_try_finally {A} (body : M A) handler :
  preserves R body → preserves R handler →
  preserves R (try_finally body handler).
Proof.
  intros Hb Hh w. unfold try_finally. specialize (Hb w).
  destruct (body w) as [r w1]. specialize (Hh w1).
  destruct (handler w1) as [[[]|e] w2]; simpl in *; by etrans.
Qed.

End preserves.

(** A step of the proofs that a computation preserves a relation. *)
Ltac preserves_leaf :=
  first
    [ apply preserves_ret | apply preserves_raise
    | apply preserves_gets | apply preserves_lift ];
  apply _.

Ltac preserves_step :=
  first
    [ preserves_leaf
    | apply preserves_bind; [apply _| |intros ?]
    | apply preserves_try_finally; [apply _| |]
    | apply preserves_for_each; [apply _|intros ? ?] ].

Lemma traces_log P e : P e → preserves (traces P) (log e).
Proof. intros H w. exists [e]. split; [done|]. by constructor. Qed.

Lemma traces_field P f :
  (∀ w, w_trace (f w) = w_trace w) → preserves (traces P) (modify f).
Proof. intros H w. exists []. simpl. rewrite H, app_nil_r. by split. Qed.

(** A weaker property of the events is preserved too. *)
Lemma traces_mono (P P' : event → Prop) w w' :
  (∀ e, P e → P' e) → traces P w w' → traces P' w w'.
Proof.
  intros H (t & Ht & F). exists t. split; [done|].
  eapply Forall_impl; [done|]. auto.
Qed.

(** ** The composer: [_collate_best_model] *)

Lemma lookup_dir_Some (f : fs) name d :
  lookup_dir f name = Some d ↔ f !! name = Some (IsDir d).
Proof.
  unfold lookup_dir. destruct (f !! name) as [[|d']|]; naive_solver.
Qed.

Lemma lookup_dir_insert_eq (f : fs) name d :
  lookup_dir (<[name := IsDir d]> f) name = Some d.
Proof. unfold lookup_dir. by rewrite lookup_insert_eq. Qed.

Lemma lookup_dir_insert_ne (f : fs) name name' x :
  name ≠ name' → lookup_dir (<[name := x]> f) name' = lookup_dir f name'.
Proof. intros H. unfold lookup_dir. by rewrite lookup_insert_ne. Qed.

Lemma merge_metrics_notin a acc metrics metric :
  metric ∉ metrics → merge_metrics a acc metrics !! metric = acc !! metric.
Proof.
  unfold merge_metrics. revert acc.
  induction metrics as [|x metrics IH]; intros acc Hnotin; simpl; [done|].
  apply not_elem_of_cons in Hnotin as [Hne Hnotin]. rewrite IH by done.
  destruct (a !! x); [|done]. by rewrite lookup_insert_ne.
Qed.

Lemma merge_metrics_in a acc metrics metric :
  (∀ x, x ∈ metrics → is_Some (a !! x)) →
  metric ∈ metrics → merge_metrics a acc metrics !! metric = a !! metric.
Proof.
  unfold merge_metrics. revert acc.
  induction metrics as [|x metrics IH]; intros acc Hall Hin; simpl.
  { by apply elem_of_nil in Hin. }
  destruct (decide (metric ∈ metrics)) as [Hin'|Hnotin].
  { apply IH; [|done]. intros y Hy. apply Hall. by right. }
  apply elem_of_cons in Hin as [->|]; [|done].
  fold (merge_metrics a (match a !! x with Some v => <[x:=v]> acc | None => acc end) metrics).
  rewrite merge_metrics_notin by done.
  destruct (Hall x) as [v Hv]; [by left|]. by rewrite Hv, lookup_insert_eq.
Qed.

(** The inner loop of [_collate_best_model]: the metrics of the component
    are copied from the record of its winner. *)
Lemma merge_loop_run (a acc : accs) metrics w :
  m_accuracy (w_meta w) = Some acc →
  (∀ x, x ∈ metrics → is_Some (a !! x)) →
  for_each metrics (fun metric =>
    match a !! metric with
    | None => raise (KeyError metric)
    | Some v => set_accuracy metric v
    end) w
  = (Ok tt, set_meta (with_accuracy (merge_metrics a acc metrics) (w_meta w)) w).
Proof.
  revert acc w. induction metrics as [|x metrics IH]; intros acc w Hacc Hall.
  { rewrite for_each_nil. f_equal. destruct w as [? ? ? ? ? ? ? m ? ? ? ?]; simpl in *.
    destruct m; simpl in *. by subst. }
  rewrite for_each_cons. destruct (Hall x) as [v Hv]; [by left|].
  rewrite Hv. unfold set_accuracy at 1. rewrite run_bind. simpl. rewrite Hacc.
  simpl. erewrite IH; [|done|intros y Hy; apply Hall; by right].
  simpl. unfold merge_metrics at 2. simpl. by rewrite Hv.
Qed.

(** *** The dict [bests] *)

Lemma dict_set_keys {V} (d : list (string * V)) k v :
  NoDup d.*1 → NoDup (dict_set d k v).*1 ∧
  ∀ k' v', (k', v') ∈ dict_set d k v ↔
    (k' = k ∧ v' = v) ∨ (k' ≠ k ∧ (k', v') ∈ d).
Proof.
  induction d as [|[k0 v0] d IH]; simpl; intros Hnd.
  { split; [apply NoDup_singleton|]. intros k' v'.
    rewrite list_elem_of_singleton, elem_of_nil. naive_solver. }
  apply NoDup_cons in Hnd as [Hk0 Hnd]. destruct (IH Hnd) as [IH1 IH2].
  destruct (String.eqb_spec k k0) as [->|Hne]; simpl.
  - split; [by apply NoDup_cons|]. intros k' v'. rewrite !elem_of_cons.
    split; [intros [[= -> ->]|Hin]|intros [[-> ->]|[? [[= -> ->]|?]]]]; auto.
    + right. split; [|by right]. intros ->. apply Hk0.
      apply list_elem_of_fmap. by exists (k0, v').
    + done.
  - split.
    + apply NoDup_cons. split; [|done]. intros Hin.
      apply list_elem_of_fmap in Hin as ([k1 v1] & -> & Hin). simpl in *.
      apply IH2 in Hin as [[-> _]|[_ Hin]]; [done|].
      apply Hk0, list_elem_of_fmap. by exists (k1, v1).
    + intros k' v'. rewrite !elem_of_cons, IH2. naive_solver.
Qed.

(** The keys of a dict after an assignment depend on its keys only. *)
Lemma dict_set_fst {V W} (d : list (string * V)) (d' : list (string * W))
  k v v' :
  d.*1 = d'.*1 → (dict_set d k v).*1 = (dict_set d' k v').*1.
Proof.
  revert d'. induction d as [|[k0 v0] d IH]; intros [|[k1 v1] d'];
    simpl; try done.
  intros [= -> H]. destruct (String.eqb k k1); simpl; [by rewrite H|].
  f_equal. by apply IH.
Qed.

Lemma dict_set_fresh {V} (d : list (string * V)) k v :
  k ∉ d.*1 → dict_set d k v = d ++ [(k, v)].
Proof.
  induction d as [|[k0 v0] d IH]; simpl; [done|].
  rewrite not_elem_of_cons. intros [Hne Hk].
  destruct (String.eqb_spec k k0) as [->|_]; [done|]. by rewrite IH.
Qed.

Lemma write_order_NoDup components :
  NoDup components → write_order components = components.
Proof.
  unfold write_order. intros Hnd.
  cut (∀ d : list (string * unit), NoDup (d.*1 ++ components) →
         (foldl (fun bests c => dict_set bests c tt) d components).*1
         = d.*1 ++ components).
  { intros H. by apply (H []). }
  clear Hnd. induction components as [|c components IH]; intros d Hnd; simpl.
  { by rewrite app_nil_r. }
  apply NoDup_app in Hnd as Hnd'. destruct Hnd' as (_ & Hdisj & _).
  rewrite dict_set_fresh by (intros Hc; apply (Hdisj c Hc); by left).
  rewrite IH; rewrite fmap_app; simpl; rewrite <-app_assoc; done.
Qed.

Lemma written_after_elem components c c' :
  written_after components c c' → c' ∈ write_order components.
Proof. intros (before & after & -> & Hin). set_solver. Qed.

(** [collect_bests] reads the directory and does not change the world. *)
Lemma collect_bests_run components bests0 w :
  NoDup bests0.*1 →
  (∀ c, c ∈ components → ∃ winner, _find_best (w_fs w) c = Ok (Some winner)) →
  ∃ bests, collect_bests components bests0 w = (Ok bests, w) ∧
    NoDup bests.*1 ∧
    (∀ c b, (c, b) ∈ bests →
       (c, b) ∈ bests0 ∨ (c ∈ components ∧ _find_best (w_fs w) c = Ok b)) ∧
    (∀ c, c ∈ components → c ∈ bests.*1).
Proof.
  revert bests0. induction components as [|c components IH];
    intros bests0 Hnd Hwin; simpl.
  { exists bests0. split_and!; [done|done|auto|]. intros c []%elem_of_nil. }
  destruct (Hwin c) as [winner Hw]; [by left|].
  unfold find_best at 1. rewrite !run_bind. simpl. rewrite Hw. simpl.
  destruct (dict_set_keys bests0 c (Some winner) Hnd) as [Hnd' Hin'].
  destruct (IH (dict_set bests0 c (Some winner)) Hnd') as (bests & Hrun & Hnd'' & Hin & Hall).
  { intros c' Hc'. apply Hwin. by right. }
  exists bests. split_and!; [done|done| |].
  - intros c' b Hb. destruct (Hin c' b Hb) as [Hb'|[Hc' Hf]].
    + apply Hin' in Hb' as [[-> ->]|[_ Hb']]; [|by left].
      right. split; [by left|done].
    + right. split; [by right|done].
  - intros c' [->|Hc']%elem_of_cons; [|by apply Hall].
    clear -Hrun Hin'. revert Hrun.
    assert (c ∈ (dict_set bests0 c (Some winner)).*1) as Hc.
    { apply list_elem_of_fmap. exists (c, Some winner). split; [done|].
      apply Hin'. by left. }
    revert Hc. generalize (dict_set bests0 c (Some winner)). clear.
    induction components as [|c' components IH]; intros d Hc; simpl.
    { by intros [= <-]. }
    unfold find_best at 1. rewrite !run_bind. simpl.
    destruct (_find_best (w_fs w) c') as [b|e]; simpl; [|done].
    apply IH. apply list_elem_of_fmap in Hc as ([k v] & -> & Hin). simpl in *.
    clear IH. induction d as [|[k0 v0] d IHd]; [by apply elem_of_nil in Hin|].
    simpl. destruct (String.eqb_spec c' k0) as [->|Hne]; simpl.
    + apply elem_of_cons in Hin as [[= -> ->]|Hin]; [by left|].
      right. apply list_elem_of_fmap. by exists (k, v).
    + apply elem_of_cons in Hin as [[= -> ->]|Hin]; [by left|].
      right. by apply IHd.
Qed.

(** *** One component of the composite *)

Lemma collate_component_run (f : fs) pipes facc fmeta acc c winner d a b w :
  w_fs w = <["model-best" := IsDir (Dir pipes facc fmeta)]> f →
  f !! "model-best" = None →
  m_accuracy (w_meta w) = Some acc →
  is_Some (pipes !! c) →
  f !! winner = Some (IsDir d) → d_accuracy d = Some a →
  d_pipes d !! c = Some b →
  (∀ metric, metric ∈ _get_metrics c → is_Some (a !! metric)) →
  collate_component c (Some winner) w
  = (Ok tt,
     set_meta (with_accuracy (merge_metrics a acc (_get_metrics c)) (w_meta w))
       (set_fs (<["model-best" := IsDir (Dir (<[c := b]> pipes) facc fmeta)]> f)
          w)).
Proof.
  intros Hfs Hbest Hacc [b0 Hc] Hw Ha Hb Hmetrics.
  assert (winner ≠ "model-best") as Hne by (intros ->; congruence).
  unfold collate_component.
  (* rmtree *)
  rewrite run_bind. unfold rmtree_in at 1. rewrite run_bind. simpl.
  rewrite Hfs, lookup_dir_insert_eq. simpl. rewrite Hc. simpl.
  rewrite insert_insert_eq.
  (* copytree *)
  rewrite run_bind. unfold ret at 1.
  rewrite run_bind. unfold copytree_in at 1. rewrite run_bind. simpl.
  rewrite lookup_dir_insert_ne by done.
  rewrite (proj2 (lookup_dir_Some f winner d) Hw). simpl. rewrite Hb.
  rewrite lookup_dir_insert_eq. simpl. rewrite lookup_delete_eq. simpl.
  rewrite insert_insert_eq, insert_delete_eq.
  (* the accuracy record *)
  rewrite run_bind. unfold load_accuracy at 1. rewrite run_bind. simpl.
  rewrite lookup_dir_insert_ne by done.
  rewrite (proj2 (lookup_dir_Some f winner d) Hw). simpl. rewrite Ha. simpl.
  by erewrite merge_loop_run.
Qed.

(** *** The whole composer *)

Lemma write_order_spec components :
  NoDup (write_order components) ∧
  ∀ c, c ∈ write_order components ↔ c ∈ components.
Proof.
  unfold write_order.
  cut (∀ d : list (string * unit), NoDup d.*1 →
    NoDup (foldl (fun bests c => dict_set bests c tt) d components).*1 ∧
    ∀ c, c ∈ (foldl (fun bests c => dict_set bests c tt) d components).*1
         ↔ c ∈ d.*1 ∨ c ∈ components).
  { intros H. destruct (H [] (NoDup_nil_2)) as [H1 H2]. split; [done|].
    intros c. rewrite H2. simpl. rewrite elem_of_nil. tauto. }
  induction components as [|c0 components IH]; intros d Hnd; simpl.
  { split; [done|]. intros c. rewrite elem_of_nil. tauto. }
  destruct (dict_set_keys d c0 tt Hnd) as [Hnd' Hin].
  destruct (IH _ Hnd') as [H1 H2]. split; [done|].
  intros c. rewrite H2, elem_of_cons.
  assert (c ∈ (dict_set d c0 ()).*1 ↔ c = c0 ∨ c ∈ d.*1) as ->; [|tauto].
  rewrite !list_elem_of_fmap. split.
  - intros ([k v] & -> & Hk). apply Hin in Hk as [[-> _]|[_ Hk]]; [by left|].
    right. by exists (k, v).
  - intros [->|([k v] & -> & Hk)].
    + exists (c0, tt). split; [done|]. apply Hin. by left.
    + simpl. destruct (decide (k = c0)) as [->|Hne].
      * exists (c0, tt). split; [done|]. apply Hin. by left.
      * exists (k, v). split; [done|]. apply Hin. by right.
Qed.

Lemma written_after_ne components c c' :
  written_after components c c' → c' ∈ components ∧ c' ≠ c.
Proof.
  intros Hafter. destruct (write_order_spec components) as [Hnd Hin].
  split; [by apply Hin, (written_after_elem _ c)|].
  destruct Hafter as (before & after & Heq & Hc'). rewrite Heq in Hnd.
  apply NoDup_app in Hnd as (_ & _ & Hnd).
  apply NoDup_cons in Hnd as [Hc _]. by intros ->.
Qed.

(** The keys of [bests] are in the order of [write_order]. *)
Lemma collect_bests_order components bests0 (d0 : list (string * unit))
  w bests w' :
  collect_bests components bests0 w = (Ok bests, w') →
  bests0.*1 = d0.*1 →
  bests.*1
  = (foldl (fun bests c => dict_set bests c tt) d0 components).*1.
Proof.
  revert bests0 d0. induction components as [|c components IH];
    intros bests0 d0; simpl.
  { by intros [= <- <-]. }
  unfold find_best at 1. rewrite !run_bind. simpl.
  destruct (_find_best (w_fs w) c) as [b|e]; simpl; [|done].
  intros Hrun Hkeys. apply (IH _ _ Hrun). by apply dict_set_fst.
Qed.

Lemma snoc_split {A} (done p1 p2 : list A) x y :
  done ++ [x] = p1 ++ y :: p2 →
  (p2 = [] ∧ done = p1 ∧ x = y) ∨
  (∃ p2', p2 = p2' ++ [x] ∧ done = p1 ++ y :: p2').
Proof.
  destruct p2 as [|z p2 _] using rev_ind.
  - intros [-> ->]%app_inj_tail. by left.
  - rewrite app_comm_cons, app_assoc. intros [-> ->]%app_inj_tail.
    right. by exists p2.
Qed.

(** When every sub-directory is readable, an epoch exists, [model-final]
    holds the components, [model-best] does not exist yet, [meta] holds
    an accuracy record and the winners hold their component and its
    metrics, the composer completes: [model-best] is [model-final] with,
    for every component, the sub-directory of the winner, and every
    metric of a component is the one of its winner unless a component
    written later has the same metric. *)
Lemma collate_best_model_run components w final acc0 :
  w_fs w !! "model-final" = Some (IsDir final) →
  w_fs w !! "model-best" = None →
  m_accuracy (w_meta w) = Some acc0 →
  readable (iterdir (w_fs w)) →
  (∃ name a, epoch_record (w_fs w) name a) →
  (∀ c, c ∈ components → is_Some (d_pipes final !! c)) →
  (∀ c winner d a, c ∈ components →
     _find_best (w_fs w) c = Ok (Some winner) →
     w_fs w !! winner = Some (IsDir d) → d_accuracy d = Some a →
     is_Some (d_pipes d !! c) ∧
     ∀ metric, metric ∈ _get_metrics c → is_Some (a !! metric)) →
  ∃ w' pipes acc',
    _collate_best_model components w = (Ok tt, w') ∧
    w_fs w' = <["model-best" :=
      IsDir (Dir pipes (d_accuracy final) (Some (w_meta w')))]> (w_fs w) ∧
    m_accuracy (w_meta w') = Some acc' ∧
    ∀ c, c ∈ components →
      ∃ winner d a,
        _find_best (w_fs w) c = Ok (Some winner) ∧
        w_fs w !! winner = Some (IsDir d) ∧ d_accuracy d = Some a ∧
        pipes !! c = d_pipes d !! c ∧
        ∀ metric, metric ∈ _get_metrics c →
          (∀ c', written_after components c c' → metric ∉ _get_metrics c') →
          acc' !! metric = a !! metric.
Proof.
  intros Hfinal Hbest Hacc Hread (name0 & a0 & Hepoch) Hpipes Hwin.
  set (f := w_fs w) in *.
  assert (∀ c, c ∈ components → ∃ winner, _find_best f c = Ok (Some winner))
    as Htotal by (intros c _; by eapply find_best_total).
  unfold _collate_best_model.
  rewrite run_bind. unfold log at 1, modify at 1. simpl.
  set (w1 := set_trace _ w).
  destruct (collect_bests_run components [] w1) as (bests & Hrun & Hnd & Hin & Hall);
    [apply NoDup_nil_2|done|].
  pose proof (collect_bests_order components [] [] w1 bests w1 Hrun eq_refl)
    as Horder. fold (write_order components) in Horder.
  rewrite run_bind, Hrun.
  rewrite run_bind. unfold copytree at 1. rewrite run_bind. simpl.
  fold f. rewrite (proj2 (lookup_dir_Some f _ _) Hfinal). simpl.
  unfold exists_path. rewrite Hbest. unfold modify at 1.
  set (w2 := set_fs _ w1).
  set (I := fun (done : list (string * option string)) (w : world) =>
    ∃ pipes acc,
      w_fs w = <["model-best" :=
        IsDir (Dir pipes (d_accuracy final) (d_meta final))]> f ∧
      m_accuracy (w_meta w) = Some acc ∧
      (∀ c, c ∈ components → is_Some (pipes !! c)) ∧
      ∀ p1 c b p2, done = p1 ++ (c, b) :: p2 →
        ∃ winner d a, b = Some winner ∧
          f !! winner = Some (IsDir d) ∧ d_accuracy d = Some a ∧
          pipes !! c = d_pipes d !! c ∧
          ∀ metric, metric ∈ _get_metrics c →
            (∀ c', c' ∈ p2.*1 → metric ∉ _get_metrics c') →
            acc !! metric = a !! metric).
  destruct (for_each_Ok I bests (fun cb => collate_component cb.1 cb.2) w2)
    as (w3 & Hloop & pipes & acc' & Hfs3 & Hacc3 & _ & Hdone).
  { exists (d_pipes final), acc0. split_and!; [by destruct final|done|done|].
    intros p1 c b p2 Heq. by destruct p1. }
  { intros done [c b] todo w' Hbests (pipes & acc & Hfs' & Hacc' & Hpres & Hdone).
    assert ((c, b) ∈ bests) as Hcb by (rewrite Hbests; set_solver).
    destruct (Hin c b Hcb) as [[]%elem_of_nil|[Hc Hb]].
    destruct (Htotal c Hc) as [winner Hw]. simpl in Hb. fold f in Hb.
    assert (b = Some winner) as -> by congruence.
    destruct (find_best_spec f c winner Hw) as (a & [_ (d & Hd & Ha)] & _).
    destruct (Hwin c winner d a Hc Hw Hd Ha) as [[bl Hbl] Hmetrics].
    simpl. rewrite (collate_component_run f pipes _ _ acc c winner d a bl w'
      Hfs' Hbest Hacc' (Hpres c Hc) Hd Ha Hbl Hmetrics).
    eexists. split; [done|].
    exists (<[c := bl]> pipes), (merge_metrics a acc (_get_metrics c)).
    split_and!; [done|done| |].
    - intros c' Hc'. destruct (decide (c = c')) as [->|Hne].
      + rewrite lookup_insert_eq. eauto.
      + rewrite lookup_insert_ne by done. by apply Hpres.
    - intros p1 c0 b0 p2 Heq.
      apply snoc_split in Heq as [(-> & -> & [= <- <-])|(p2' & -> & ->)].
      + exists winner, d, a. split_and!; [done..| |].
        * by rewrite lookup_insert_eq.
        * intros metric Hmetric _. by apply merge_metrics_in.
      + assert (c0 ≠ c) as Hne.
        { intros ->. rewrite Hbests, !fmap_app in Hnd. simpl in Hnd.
          rewrite <-!app_assoc in Hnd.
          apply NoDup_app in Hnd as (_ & _ & Hnd). simpl in Hnd.
          apply NoDup_cons in Hnd as [Hnd _]. apply Hnd. set_solver. }
        destruct (Hdone p1 c0 b0 p2' eq_refl)
          as (winner0 & d0 & a1 & -> & ? & ? & Hp & Hm).
        exists winner0, d0, a1. split_and!; [done..| |].
        * by rewrite lookup_insert_ne.
        * intros metric Hmetric Hlater.
          rewrite merge_metrics_notin.
          -- apply Hm; [done|]. intros c' Hc'. apply Hlater.
             rewrite fmap_app. set_solver.
          -- apply Hlater. rewrite fmap_app. simpl. set_solver. }
  rewrite run_bind, Hloop.
  unfold write_meta. rewrite !run_bind. simpl.
  rewrite Hfs3, lookup_dir_insert_eq. simpl. unfold modify.
  eexists _, pipes, acc'. split; [done|]. simpl.
  rewrite insert_insert_eq. split_and!; [done|done|].
  intros c Hc. pose proof (Hall c Hc) as Hk.
  apply list_elem_of_fmap in Hk as ([c' b] & -> & Hcb). simpl in *.
  apply list_elem_of_split in Hcb as (p1 & p2 & Hsplit).
  destruct (Hdone p1 c' b p2 Hsplit) as (winner & d & a & -> & ? & ? & ? & Hm).
  exists winner, d, a. split_and!; try done.
  - destruct (Hin c' (Some winner)) as [[]%elem_of_nil|[_ ?]]; [|done].
    rewrite Hsplit. set_solver.
  - intros metric Hmetric Hlater. apply Hm; [done|].
    intros c0 Hc0. apply Hlater. exists p1.*1, p2.*1. split; [|done].
    by rewrite <-Horder, Hsplit, fmap_app.
Qed.

Lemma readableb_spec entries : readableb entries = true → readable entries.
Proof.
  unfold readableb. rewrite forallb_forall. intros H name d Hin Hne.
  apply list_elem_of_In, H in Hin. simpl in Hin.
  destruct (String.eqb_spec name "model-final"); [done|].
  by destruct (d_accuracy d).
Qed.

Lemma scores_of_ext (a a' : accs) component :
  (∀ metric, metric ∈ _get_metrics component → a !! metric = a' !! metric) →
  scores_of a component = scores_of a' component.
Proof.
  intros H. unfold scores_of. apply map_ext_in. intros metric Hin.
  by rewrite H by (by apply list_elem_of_In).
Qed.

(** With the parser LAS of scenario A, epoch 1 wins the parser
    tournament whatever the other metrics are. *)
Lemma find_best_scenario_A (f : fs) a0 a1 a2 :
  readable (iterdir f) →
  epoch_record f "model0" a0 → epoch_record f "model1" a1 →
  epoch_record f "model2" a2 →
  (∀ name a, epoch_record f name a →
     name = "model0" ∨ name = "model1" ∨ name = "model2") →
  a0 !! "las" = Some 0.80%Q → a1 !! "las" = Some 0.91%Q →
  a2 !! "las" = Some 0.85%Q →
  _find_best f "parser" = Ok (Some "model1").
Proof.
  intros Hr H0 H1 H2 Hall L0 L1 L2.
  destruct (find_best_total f "parser" _ _ Hr H1) as [winner Hw].
  rewrite Hw. destruct (find_best_spec _ _ _ Hw) as (a & Ha & Hmax).
  specialize (Hmax "model1" a1 H1).
  assert (∀ a', epoch_record f winner a' → a' = a) as Huniq.
  { intros a' [_ (d' & ? & ?)]. destruct Ha as [_ (d & ? & ?)]. congruence. }
  destruct (Hall _ _ Ha) as [-> | [-> | ->]]; [|done|].
  - rewrite <-(Huniq a0 H0) in Hmax. exfalso. revert Hmax.
    unfold tuple_gt, scores_of; simpl. by rewrite L0, L1.
  - rewrite <-(Huniq a2 H2) in Hmax. exfalso. revert Hmax.
    unfold tuple_gt, scores_of; simpl. by rewrite L2, L1.
Qed.

(** C1 (amended). When the composer can run (every sub-directory other
    than model-final holds an accuracy record, an epoch exists,
    model-final holds the components, model-best does not exist, meta
    holds an accuracy record and each winner holds its component and the
    metrics of it), it completes, and for every pipeline component the
    composite holds the sub-state of that component's tournament
    winner. Every ranking metric of a component is in the composite the
    one of its winner, unless a component that the composer writes
    later ranks by the same metric; so for a component that shares no
    ranking metric with a component written after it (the last one
    always) the metrics of the composite are the maximum of its ranking
    tuple over all epochs. The composer writes the components in the
    order of their first occurrence, which is their order when they are
    distinct. With the parser LAS 0.80, 0.91 and 0.85 of three epochs
    the winner is epoch 1. *)
Theorem collate_best_model_maximum :
  (∀ components w final acc0,
     w_fs w !! "model-final" = Some (IsDir final) →
     w_fs w !! "model-best" = None →
     m_accuracy (w_meta w) = Some acc0 →
     readable (iterdir (w_fs w)) →
     (∃ name a, epoch_record (w_fs w) name a) →
     (∀ c, c ∈ components → is_Some (d_pipes final !! c)) →
     (∀ c winner d a, c ∈ components →
        _find_best (w_fs w) c = Ok (Some winner) →
        w_fs w !! winner = Some (IsDir d) → d_accuracy d = Some a →
        is_Some (d_pipes d !! c) ∧
        ∀ metric, metric ∈ _get_metrics c → is_Some (a !! metric)) →
     ∃ w' best acc',
       _collate_best_model components w = (Ok tt, w') ∧
       w_fs w' !! "model-best" = Some (IsDir best) ∧
       d_meta best = Some (w_meta w') ∧
       m_accuracy (w_meta w') = Some acc' ∧
       ∀ c, c ∈ components →
         ∃ winner d a,
           _find_best (w_fs w) c = Ok (Some winner) ∧
           w_fs w !! winner = Some (IsDir d) ∧ d_accuracy d = Some a ∧
           d_pipes best !! c = d_pipes d !! c ∧
           (∀ metric, metric ∈ _get_metrics c →
              (∀ c', written_after components c c' →
                 metric ∉ _get_metrics c') →
              acc' !! metric = a !! metric) ∧
           ((∀ c', written_after components c c' → metrics_disjoint c c') →
            scores_of acc' c = scores_of a c ∧
            ∀ name a', epoch_record (w_fs w) name a' →
              ¬ ranks_below (scores_of acc' c) (scores_of a' c))) ∧
  (∀ components c c',
     written_after components c c' → c' ∈ components ∧ c' ≠ c) ∧
  (∀ components, NoDup components → write_order components = components) ∧
  (∀ (f : fs) a0 a1 a2,
     readable (iterdir f) →
     epoch_record f "model0" a0 → epoch_record f "model1" a1 →
     epoch_record f "model2" a2 →
     (∀ name a, epoch_record f name a →
        name = "model0" ∨ name = "model1" ∨ name = "model2") →
     a0 !! "las" = Some 0.80%Q → a1 !! "las" = Some 0.91%Q →
     a2 !! "las" = Some 0.85%Q →
     _find_best f "parser" = Ok (Some "model1")).
Proof.
  split_and!;
    [|apply written_after_ne|apply write_order_NoDup|apply find_best_scenario_A].
  intros components w final acc0 Hfinal Hbest Hacc Hread Hepoch Hpipes Hwin.
  destruct (collate_best_model_run components w final acc0)
    as (w' & pipes & acc' & Hrun & Hfs & Hacc' & Hcomp); [done..|].
  exists w', (Dir pipes (d_accuracy final) (Some (w_meta w'))), acc'.
  split_and!; [done|by rewrite Hfs, lookup_insert_eq|done|done|].
  intros c Hc.
  destruct (Hcomp c Hc) as (winner & d & a & Hw & Hd & Ha & Hp & Hm).
  exists winner, d, a. split_and!; [done..|]. intros Hdisj.
  assert (∀ metric, metric ∈ _get_metrics c → acc' !! metric = a !! metric)
    as Hm'.
  { intros metric Hmetric. apply Hm; [done|].
    intros c' Hc'. by apply (Hdisj c' Hc'). }
  split; [by apply scores_of_ext|].
  intros name a' Ha' Hlt. rewrite (scores_of_ext acc' a c Hm') in Hlt.
  destruct (find_best_spec _ _ _ Hw) as (a1 & [_ (d1 & Hd1 & Ha1)] & Hmax).
  assert (a1 = a) as -> by congruence.
  apply ranks_below_list_gt in Hlt; [|by rewrite !scores_of_length].
  specialize (Hmax name a' Ha').
  by rewrite (tuple_gt_scores _ _ name winner Hlt) in Hmax.
Qed.

(** Nothing is written after the last of two components. *)
Lemma written_after_last c1 c2 c' :
  c1 ≠ c2 → ¬ written_after [c1; c2] c2 c'.
Proof.
  intros Hne (before & after & Heq & Hin).
  rewrite write_order_NoDup in Heq
    by (apply NoDup_cons; split; [set_solver|apply NoDup_singleton]).
  destruct before as [|x [|y before]]; simpl in Heq; simplify_eq.
  - by apply elem_of_nil in Hin.
  - by destruct before.
Qed.

(** Scenario A, run: the composite holds the parser of epoch 1, saved
    after two updates. On the pipeline [textcat,parser], of which the
    parser is written last, the composite holds the parser of epoch 0
    and the three metrics of that epoch. *)
Lemma collate_best_model_maximum_witness :
  (∃ w' best,
     _collate_best_model ["parser"] scenario_A = (Ok tt, w') ∧
     w_fs w' !! "model-best" = Some (IsDir best) ∧
     d_pipes best !! "parser" = Some (Blob Averaged 2)) ∧
  (∃ w' best acc',
     _collate_best_model ["textcat"; "parser"] shared_metric = (Ok tt, w') ∧
     w_fs w' !! "model-best" = Some (IsDir best) ∧
     d_pipes best !! "parser" = Some (Blob Averaged 1) ∧
     m_accuracy (w_meta w') = Some acc' ∧
     scores_of acc' "parser" = scores_of (record 0.9 0.5 0.5) "parser").
Proof.
  split.
  { assert (_find_best (w_fs scenario_A) "parser" = Ok (Some "model1")) as Hfb
      by (vm_compute; reflexivity).
    assert (w_fs scenario_A !! "model1"
            = Some (IsDir (saved ["parser"] 2 (Some (record 0.91 0.5 0.9)))))
      as Hm1 by (vm_compute; reflexivity).
    destruct (proj1 collate_best_model_maximum ["parser"] scenario_A
                (saved ["parser"] 3 None) (record 0.85 0.5 0.9))
      as (w' & best & acc' & Hrun & Hbest & _ & _ & Hc).
    - vm_compute; reflexivity.
    - vm_compute; reflexivity.
    - reflexivity.
    - apply readableb_spec. vm_compute; reflexivity.
    - exists "model1", (record 0.91 0.5 0.9). split; [discriminate|].
      eexists. split; [exact Hm1|reflexivity].
    - intros c Hin. apply list_elem_of_singleton in Hin. subst c.
      vm_compute. eexists. reflexivity.
    - intros c winner d a Hin Hw Hd Ha.
      apply list_elem_of_singleton in Hin. subst c.
      rewrite Hfb in Hw. injection Hw as <-.
      rewrite Hm1 in Hd. injection Hd as <-.
      simpl in Ha. injection Ha as <-.
      split; [vm_compute; eexists; reflexivity|].
      intros metric Hm. change (metric ∈ ["las"; "uas"; "token_acc"]) in Hm.
      apply elem_of_cons in Hm as [->|Hm]; [vm_compute; eexists; reflexivity|].
      apply elem_of_cons in Hm as [->|Hm]; [vm_compute; eexists; reflexivity|].
      apply list_elem_of_singleton in Hm as ->. vm_compute; eexists; reflexivity.
    - exists w', best. split; [exact Hrun|]. split; [exact Hbest|].
      destruct (Hc "parser") as (winner & d & a & Hw & Hd & _ & Hp & _).
      + apply list_elem_of_singleton. reflexivity.
      + rewrite Hfb in Hw. injection Hw as <-.
        rewrite Hm1 in Hd. injection Hd as <-.
        rewrite Hp. vm_compute; reflexivity. }
  assert (_find_best (w_fs shared_metric) "parser" = Ok (Some "model0")) as Hfp
    by (vm_compute; reflexivity).
  assert (_find_best (w_fs shared_metric) "textcat" = Ok (Some "model1")) as Hft
    by (vm_compute; reflexivity).
  assert (w_fs shared_metric !! "model0"
          = Some (IsDir (saved ["textcat"; "parser"] 1
                           (Some (record 0.9 0.5 0.5)))))
    as Hm0 by (vm_compute; reflexivity).
  assert (w_fs shared_metric !! "model1"
          = Some (IsDir (saved ["textcat"; "parser"] 2
                           (Some (record 0.8 0.5 0.7)))))
    as Hm1 by (vm_compute; reflexivity).
  destruct (proj1 collate_best_model_maximum ["textcat"; "parser"] shared_metric
              (saved ["textcat"; "parser"] 2 None) (record 0.8 0.5 0.7))
    as (w' & best & acc' & Hrun & Hbest & _ & Hacc' & Hc).
  - vm_compute; reflexivity.
  - vm_compute; reflexivity.
  - reflexivity.
  - apply readableb_spec. vm_compute; reflexivity.
  - exists "model1", (record 0.8 0.5 0.7). split; [discriminate|].
    eexists. split; [exact Hm1|reflexivity].
  - intros c Hin.
    apply elem_of_cons in Hin as [->|Hin];
      [|apply list_elem_of_singleton in Hin as ->];
      vm_compute; eexists; reflexivity.
  - intros c winner d a Hin Hw Hd Ha.
    apply elem_of_cons in Hin as [->|Hin];
      [|apply list_elem_of_singleton in Hin as ->].
    + rewrite Hft in Hw. injection Hw as <-.
      rewrite Hm1 in Hd. injection Hd as <-.
      simpl in Ha. injection Ha as <-.
      split; [vm_compute; eexists; reflexivity|].
      intros metric Hm. change (metric ∈ ["token_acc"]) in Hm.
      apply list_elem_of_singleton in Hm as ->. vm_compute; eexists; reflexivity.
    + rewrite Hfp in Hw. injection Hw as <-.
      rewrite Hm0 in Hd. injection Hd as <-.
      simpl in Ha. injection Ha as <-.
      split; [vm_compute; eexists; reflexivity|].
      intros metric Hm. change (metric ∈ ["las"; "uas"; "token_acc"]) in Hm.
      apply elem_of_cons in Hm as [->|Hm]; [vm_compute; eexists; reflexivity|].
      apply elem_of_cons in Hm as [->|Hm]; [vm_compute; eexists; reflexivity|].
      apply list_elem_of_singleton in Hm as ->. vm_compute; eexists; reflexivity.
  - exists w', best, acc'. split; [exact Hrun|]. split; [exact Hbest|].
    destruct (Hc "parser") as (winner & d & a & Hw & Hd & Ha & Hp & _ & Hmax).
    + right. left.
    + rewrite Hfp in Hw. injection Hw as <-.
      rewrite Hm0 in Hd. injection Hd as <-.
      simpl in Ha. injection Ha as <-.
      split; [rewrite Hp; vm_compute; reflexivity|].
      split; [exact Hacc'|].
      apply Hmax. intros c' Hafter.
      destruct (written_after_last "textcat" "parser" c'
                  ltac:(discriminate) Hafter).
Defined.

(** C1 as stated fails. For the pipeline [textcat,parser] the composer
    completes and writes the token accuracy of the parser's winner, 0.5,
    over the one of the winner of [textcat], 0.7: the metrics of
    [textcat] in the composite rank below those of epoch 1. *)
Lemma collate_best_model_shared_metric :
  ¬ (∀ components w w' acc',
       _collate_best_model components w = (Ok tt, w') →
       m_accuracy (w_meta w') = Some acc' →
       ∀ c name a, c ∈ components → epoch_record (w_fs w) name a →
         ¬ ranks_below (scores_of acc' c) (scores_of a c)).
Proof.
  intros H.
  apply (H ["textcat"; "parser"] shared_metric
           (_collate_best_model ["textcat"; "parser"] shared_metric).2
           (record 0.9 0.5 0.5) ltac:(vm_compute; reflexivity)
           ltac:(vm_compute; reflexivity)
           "textcat" "model1" (record 0.8 0.5 0.7)).
  - by left.
  - split; [discriminate|]. eexists. split; [vm_compute; reflexivity|reflexivity].
  - change (ranks_below [0.5%Q] [0.7%Q]). by constructor.
Qed.

(** *** A directory without accuracy record *)

Lemma accuracy_in_rmtree_in c :
  preserves (same (accuracy_in "model-best")) (rmtree_in "model-best" c).
Proof.
  intros w. unfold rmtree_in, same, accuracy_in. rewrite run_bind. simpl.
  destruct (lookup_dir (w_fs w) "model-best") as [d|] eqn:Hd;
    [|simpl; by rewrite Hd].
  destruct (d_pipes d !! c); simpl; [|by rewrite Hd].
  by rewrite lookup_dir_insert_eq.
Qed.

Lemma accuracy_in_copytree_in src c :
  preserves (same (accuracy_in "model-best")) (copytree_in src "model-best" c).
Proof.
  intros w. unfold copytree_in, same, accuracy_in. rewrite run_bind. simpl.
  destruct (lookup_dir (w_fs w) src ≫= _); [|done].
  destruct (lookup_dir (w_fs w) "model-best") as [d|] eqn:Hd;
    [|simpl; by rewrite Hd].
  destruct (d_pipes d !! c); simpl; [by rewrite Hd|].
  by rewrite lookup_dir_insert_eq.
Qed.

Lemma same_fs_load_accuracy name : preserves (same w_fs) (load_accuracy name).
Proof.
  intros w. unfold load_accuracy. rewrite run_bind. simpl.
  by destruct (lookup_dir (w_fs w) name ≫= d_accuracy).
Qed.

Lemma same_fs_set_accuracy metric v :
  preserves (same w_fs) (set_accuracy metric v).
Proof.
  intros w. unfold set_accuracy. rewrite run_bind. simpl.
  by destruct (m_accuracy (w_meta w)).
Qed.

Lemma same_fs_find_best c : preserves (same w_fs) (find_best c).
Proof. intros w. unfold find_best. rewrite run_bind. simpl. done. Qed.

Lemma same_fs_collect_bests components bests :
  preserves (same w_fs) (collect_bests components bests).
Proof.
  revert bests. induction components as [|c components IH]; intros bests; simpl.
  - preserves_leaf.
  - apply preserves_bind; [apply _|apply same_fs_find_best|auto].
Qed.

(** An observation of the directory is preserved by what preserves the
    directory. *)
Lemma same_fs_obs {A X} (obs : fs → X) (m : M A) :
  preserves (same w_fs) m → preserves (same (fun w => obs (w_fs w))) m.
Proof. intros H w. unfold same in *. by rewrite H. Qed.

Lemma accuracy_in_collate_component c b :
  preserves (same (accuracy_in "model-best")) (collate_component c b).
Proof.
  unfold collate_component.
  apply preserves_bind; [apply _|apply accuracy_in_rmtree_in|intros _].
  apply preserves_bind; [apply _| |intros src].
  { destruct b; preserves_leaf. }
  apply preserves_bind; [apply _|apply accuracy_in_copytree_in|intros _].
  apply preserves_bind; [apply _| |intros a].
  { apply (same_fs_obs (fun f => lookup_dir f "model-best" ≫= d_accuracy)),
      same_fs_load_accuracy. }
  apply preserves_for_each; [apply _|]. intros metric _.
  apply (same_fs_obs (fun f => lookup_dir f "model-best" ≫= d_accuracy)).
  destruct (a !! metric); [apply same_fs_set_accuracy|preserves_leaf].
Qed.

(** What a successful composer leaves in [model-best]: the accuracy
    record that [model-final] had, and a meta record. *)
Lemma collate_best_model_leaves components w w' :
  _collate_best_model components w = (Ok tt, w') →
  ∃ best, w_fs w' !! "model-best" = Some (IsDir best) ∧
    d_accuracy best = accuracy_in "model-final" w ∧ is_Some (d_meta best).
Proof.
  unfold _collate_best_model. intros H.
  apply bind_Ok_inv in H as ([] & w1 & Hlog & H).
  apply bind_Ok_inv in H as (bests & w2 & Hcollect & H).
  apply bind_Ok_inv in H as ([] & w3 & Hcopy & H).
  apply bind_Ok_inv in H as ([] & w4 & Hloop & H).
  assert (w_fs w2 = w_fs w) as Hfs2.
  { pose proof (same_fs_collect_bests components [] w1) as Hs.
    rewrite Hcollect in Hs. unfold same in Hs; simpl in Hs. rewrite Hs.
    by injection Hlog as <-. }
  assert (accuracy_in "model-best" w3 = accuracy_in "model-final" w) as Hacc3.
  { unfold copytree in Hcopy. rewrite run_bind in Hcopy. simpl in Hcopy.
    unfold accuracy_in. rewrite <-Hfs2.
    destruct (lookup_dir (w_fs w2) "model-final") as [d|]; [|done].
    destruct (exists_path (w_fs w2) "model-best"); [done|].
    injection Hcopy as <-. simpl. by rewrite lookup_dir_insert_eq. }
  assert (accuracy_in "model-best" w4 = accuracy_in "model-final" w) as Hacc4.
  { rewrite <-Hacc3.
    pose proof (preserves_for_each (same (accuracy_in "model-best")) bests
      (fun cb => collate_component cb.1 cb.2)
      (fun cb _ => accuracy_in_collate_component cb.1 cb.2) w3) as Hs.
    by rewrite Hloop in Hs. }
  unfold write_meta in H. rewrite !run_bind in H. simpl in H.
  unfold accuracy_in in Hacc4.
  destruct (lookup_dir (w_fs w4) "model-best") as [d|]; [|done].
  injection H as <-. simpl. eexists. rewrite lookup_insert_eq.
  split; [done|]. simpl. split; [done|by eexists].
Qed.

(** C10. The tournament opens [accuracy.json] in every sub-directory of
    the output path whose name is not [model-final]: one without it makes
    [_find_best] raise. The [model-best] that a composer run leaves is
    such a directory, with a meta record and, like [model-final], without
    accuracy record, so that every later tournament and every later
    composer run on this output path raises. *)
Theorem find_best_unreadable_directory :
  (∀ (f : fs) component name d,
     f !! name = Some (IsDir d) → name ≠ "model-final" →
     d_accuracy d = None →
     ∃ p, _find_best f component = Raise (FileNotFoundError p)) ∧
  (∀ components w w',
     _collate_best_model components w = (Ok tt, w') →
     accuracy_in "model-final" w = None →
     ∃ best, w_fs w' !! "model-best" = Some (IsDir best) ∧
       d_accuracy best = None ∧ is_Some (d_meta best) ∧
       (∀ component,
          ∃ p, _find_best (w_fs w') component = Raise (FileNotFoundError p)) ∧
       ∀ components' w2, w_fs w2 = w_fs w' →
         ∃ e w3, _collate_best_model components' w2 = (Raise e, w3)).
Proof.
  split; [apply find_best_Raise|].
  intros components w w' Hrun Hfinal.
  destruct (collate_best_model_leaves _ _ _ Hrun) as (best & Hbest & Hacc & Hmeta).
  rewrite Hfinal in Hacc. exists best. split_and!; [done..| |].
  { intros component. by eapply find_best_Raise. }
  intros components' w2 Hfs. unfold _collate_best_model.
  rewrite run_bind. unfold log at 1, modify at 1. simpl. rewrite run_bind.
  destruct components' as [|c components']; simpl.
  - unfold ret at 1. rewrite run_bind. unfold copytree at 1.
    rewrite run_bind. simpl. rewrite Hfs.
    destruct (lookup_dir (w_fs w') "model-final"); [|by eauto].
    unfold exists_path. rewrite Hbest. by eauto.
  - rewrite run_bind. unfold find_best at 1. rewrite run_bind. simpl.
    rewrite Hfs.
    destruct (find_best_Raise (w_fs w') c _ _ Hbest) as [p ->]; [done..|].
    simpl. by eauto.
Qed.

(** ** The minibatch partitioner and the batches of an epoch *)

(** Unfold the operations of the monad, to run a computation on a world. *)
Ltac run_monad :=
  unfold mbind, mret, M_bind, M_ret, bind, ret, raise, gets, modify, lift,
    log in *;
  simpl.

Lemma batch_words_app batch batch' :
  batch_words (batch ++ batch') = (batch_words batch + batch_words batch')%nat.
Proof. unfold batch_words. by rewrite map_app, sum_list_with_app. Qed.

Lemma batch_words_snoc batch (item : doc * gold) :
  batch_words (batch ++ [item]) = (batch_words batch + length item.1)%nat.
Proof.
  rewrite batch_words_app. unfold batch_words. simpl. by rewrite Nat.add_0_r.
Qed.

Lemma minibatch_go_spec size cursor batch items :
  let r := minibatch_go size cursor batch (batch_words batch) items in
  concat r.1 = batch ++ items ∧
  Forall (fun b => b ≠ []) r.1 ∧
  ∀ k b, r.1 !! k = Some b → S k < length r.1 →
    (size (cursor + k)%nat <= inject_Z (Z.of_nat (batch_words b)))%Q.
Proof.
  revert cursor batch. induction items as [|item items IH];
    intros cursor batch; simpl.
  - destruct batch as [|x batch]; simpl.
    + split_and!; [done|constructor|]. intros k b Hk. by rewrite lookup_nil in Hk.
    + rewrite !app_nil_r. split_and!; [done|by repeat constructor|].
      intros [|k] b; simpl; intros; lia.
  - rewrite <-batch_words_snoc.
    destruct (Qle_bool _ _) eqn:Hle; simpl.
    + pose proof (IH (S cursor) []) as IH'.
      change (batch_words []) with 0%nat in IH'. simpl in IH'.
      destruct IH' as (Hc & Hne & Hsize).
      split_and!.
      * rewrite Hc. by rewrite <-app_assoc.
      * constructor; [by destruct batch|done].
      * intros [|k] b; simpl.
        -- intros [= <-] _. apply Qle_bool_iff in Hle.
           by rewrite Nat.add_0_r.
        -- intros Hk Hlen. replace (cursor + S k)%nat with (S cursor + k)%nat by lia.
           apply Hsize; [done|lia].
    + destruct (IH cursor (batch ++ [item])) as (Hc & Hne & Hsize).
      split_and!; [|done|done]. rewrite Hc. by rewrite <-app_assoc.
Qed.

(** The batches given to [nlp.update] by the loop over any list of
    batches: the non-empty ones, in order. *)
Lemma train_batches_run E i batches w :
  no_fault E →
  ∃ w', for_each batches (train_batch E i) w = (Ok tt, w') ∧
    w_trace w' = w_trace w ++ map (update_event i) (filter (fun b => nonempty b = true) batches) ∧
    w_updates w' = (w_updates w + length (filter (fun b => nonempty b = true) batches))%nat ∧
    w_fs w' = w_fs w.
Proof.
  intros Hf. revert w. induction batches as [|batch batches IH]; intros w.
  { exists w. rewrite for_each_nil, app_nil_r. simpl. split_and!; [done..|lia|done]. }
  rewrite for_each_cons. destruct batch as [|item batch].
  - simpl. destruct (IH w) as (w' & -> & ? & ? & ?). by exists w'.
  - unfold train_batch at 1, call. run_monad. rewrite Hf. simpl.
    match goal with |- context [for_each batches _ ?w1] =>
      destruct (IH w1) as (w' & -> & Ht & Hu & Hfs) end.
    exists w'. simpl in *. rewrite Ht, Hu, Hfs.
    split_and!; [done|by rewrite <-app_assoc|lia|done].
Qed.

Lemma filter_nonempty {A} (l : list (list A)) :
  Forall (fun b => b ≠ []) l → filter (fun b => nonempty b = true) l = l.
Proof.
  induction 1 as [|b l Hb _ IH]; [done|].
  rewrite filter_cons_True by (by destruct b). by rewrite IH.
Qed.

(** C9. The batches of the partitioner, concatenated, are the input; none
    is empty; every batch but the last holds at least as many tokens as
    the target drawn for it; and the epoch loop, which skips empty
    batches, gives every batch to [nlp.update] in order, so that the
    documents updated on are those of the input. *)
Theorem minibatch_by_words_partitions :
  (∀ items size cursor,
     let batches := (minibatch_by_words items size cursor).1 in
     concat batches = items ∧
     Forall (fun b => b ≠ []) batches ∧
     ∀ k b, batches !! k = Some b → S k < length batches →
       (size (cursor + k)%nat <= inject_Z (Z.of_nat (batch_words b)))%Q) ∧
  (∀ E i w, no_fault E →
     let batches :=
       (minibatch_by_words (train_docs E i) (batch_sizes E)
          (w_batch_cursor w)).1 in
     ∃ w', train_epoch E i w = (Ok tt, w') ∧
       w_trace w' = w_trace w ++ Call (OpTrainDocs i) :: map (update_event i) batches ∧
       concat batches = train_docs E i ∧
       w_updates w' = (w_updates w + length batches)%nat).
Proof.
  split.
  - intros items size cursor. apply (minibatch_go_spec size cursor [] items).
  - intros E i w Hf batches.
    pose proof (minibatch_go_spec (batch_sizes E) (w_batch_cursor w) []
      (train_docs E i)) as Hs.
    change (minibatch_go _ _ [] (batch_words []) _)
      with (minibatch_by_words (train_docs E i) (batch_sizes E)
              (w_batch_cursor w)) in Hs.
    fold batches in Hs. destruct Hs as (Hc & Hne & _).
    unfold train_epoch, call. run_monad. rewrite Hf. simpl. fold batches.
    match goal with |- context [for_each _ _ ?w1] =>
      destruct (train_batches_run E i batches w1 Hf) as (w' & Hrun & Ht & Hu & _)
    end.
    rewrite (filter_nonempty batches Hne) in Ht, Hu. exists w'. simpl in *.
    split_and!; [done| |done|done]. rewrite Ht. by rewrite <-app_assoc.
Qed.

(** ** Soundness rules *)

#[global] Instance steady_preorder P keep : PreOrder (steady P keep).
Proof.
  split.
  - intros w. split_and!; [done..|]. reflexivity.
  - intros w1 w2 w3 (Hf1 & Hs1 & Ht1) (Hf2 & Hs2 & Ht2). split_and!.
    + intros name Hk. by rewrite Hf2, Hf1.
    + congruence.
    + by etrans.
Qed.

Lemma sound_preserves {A} P R (m : M A) : sound P R m → preserves R m.
Proof. intros H w. apply H. Qed.

Lemma sound_mono {A} (P P' : exn → Prop) R (m : M A) :
  (∀ e, P e → P' e) → sound P R m → sound P' R m.
Proof. intros HP H w. destruct (H w) as [? He]. split; [done|]. eauto. Qed.

Section sound.

Context (P : exn → Prop) (R : relation world) `{!PreOrder R}.

Lemma sound_ret {A} (a : A) : sound P R (ret a).
Proof using Type*. intros w. by split. Qed.

Lemma sound_raise {A} e : P e → sound P R (raise (A:=A) e).
Proof using Type*. intros H w. split; [done|]. by intros e' [= <-]. Qed.

Lemma sound_gets {A} (f : world → A) : sound P R (gets f).
Proof using Type*. intros w. by split. Qed.

Lemma sound_modify f : (∀ w, R w (f w)) → sound P R (modify f).
Proof using Type*. intros H w. split; [apply H|done]. Qed.

Lemma sound_bind {A B} (m : M A) (k : A → M B) :
  sound P R m → (∀ a, sound P R (k a)) → sound P R (m ≫= k).
Proof using Type*.
  intros Hm Hk w. rewrite run_bind. destruct (Hm w) as [HR He].
  destruct (m w) as [[a|e] w1]; simpl in *.
  - destruct (Hk a w1) as [HR' He']. split; [by etrans|done].
  - split; [done|]. intros e' [= <-]. by apply He.
Qed.

Lemma sound_for_each {A} l (body : A → M unit) :
  (∀ x, x ∈ l → sound P R (body x)) → sound P R (for_each l body).
Proof using Type*.
  induction l as [|x l IH]; intros H; [by apply sound_ret|].
  change (for_each (x :: l) body) with (body x ≫= fun _ => for_each l body).
  apply sound_bind; [apply H; by left|]. intros _. apply IH.
  intros y Hy. apply H. by right.
Qed.

End sound.

Lemma fails_bind_l {A B} (m : M A) (k : A → M B) : fails m → fails (m ≫= k).
Proof.
  intros H w. destruct (H w) as [e He]. exists e. rewrite run_bind.
  destruct (m w) as [[a|e'] w1]; simpl in *; [done|]. congruence.
Qed.

Lemma fails_bind_r {A B} (m : M A) (k : A → M B) :
  (∀ a, fails (k a)) → fails (m ≫= k).
Proof.
  intros H w. rewrite run_bind. destruct (m w) as [[a|e] w1]; [apply H|].
  by exists e.
Qed.

(** A computation that fails in front of a continuation fails the same
    way with it. *)
Lemma bind_fails_run {A B} (m : M A) (k : A → M B) w e :
  (m w).1 = Raise e → (m ≫= k) w = (Raise e, (m w).2).
Proof.
  intros H. rewrite run_bind. destruct (m w) as [[a|e'] w1]; simpl in *; [done|].
  congruence.
Qed.

(** ** The operations of the command and what they preserve *)

Section operations.

Context (E : collab) (Pev : event → Prop) (keep : string → Prop).

#[local] Abbreviation R := (steady Pev keep).

Lemma steady_field f :
  (∀ w, w_fs (f w) = w_fs w) → (∀ w, w_scopes (f w) = w_scopes w) →
  (∀ w, w_trace (f w) = w_trace w) → ∀ w, R w (f w).
Proof.
  intros Hfs Hs Ht w. split_and!; [by rewrite Hfs|done|].
  exists []. by rewrite Ht, app_nil_r.
Qed.

Lemma steady_log ev : Pev ev → ∀ w, R w (set_trace (w_trace w ++ [ev]) w).
Proof.
  intros H w. split_and!; [done..|]. exists [ev]. split; [done|].
  by constructor.
Qed.

(** The directory changes at a name that need not be kept. *)
Lemma steady_fs path x : ¬ keep path → ∀ w, R w (set_fs (<[path := x]> (w_fs w)) w).
Proof.
  intros H w. split_and!; [|done|exists []; simpl; by rewrite app_nil_r].
  intros name Hk. simpl. apply lookup_insert_ne. by intros ->.
Qed.

Lemma preserves_log ev : Pev ev → preserves R (log ev).
Proof. intros H w. by apply steady_log. Qed.

Lemma sound_log P ev : Pev ev → sound P R (log ev).
Proof. intros H. apply sound_modify; [apply _|]. by apply steady_log. Qed.

Lemma sound_call P o :
  (∀ e, fault E o = Some e → P e) → Pev (Call o) → sound P R (call E o).
Proof.
  intros HP Hev. unfold call. apply sound_bind; [apply _|by apply sound_log|].
  intros _. destruct (fault E o) as [e|]; [apply sound_raise; [apply _|auto]|].
  apply sound_ret; apply _.
Qed.

Lemma sound_set_env_log P v : Pev (EnvLog v) → sound P R (set_env_log v).
Proof.
  intros Hev. unfold set_env_log. apply sound_bind; [apply _| |intros _].
  - apply sound_modify; [apply _|]. by apply steady_field.
  - by apply sound_log.
Qed.

Lemma preserves_timer : preserves R (timer E).
Proof. intros w. unfold timer. run_monad. by apply steady_field. Qed.

Lemma preserves_wps n s e : preserves R (wps n s e).
Proof. intros w. unfold wps. by destruct (Qeq_bool _ _). Qed.

Lemma preserves_to_disk path :
  Pev (Call (OpToDisk path)) → ¬ keep path → preserves R (to_disk E path).
Proof.
  intros Hev Hk w. unfold to_disk, call. run_monad.
  pose proof (steady_log _ Hev w) as H1.
  destruct (fault E (OpToDisk path)); simpl; [done|].
  destruct (w_fs w !! path) as [[|d]|]; simpl; [done|..];
    (etrans; [exact H1|]);
    exact (steady_fs path _ Hk (set_trace (w_trace w ++ [Call (OpToDisk path)]) w)).
Qed.

Lemma preserves_write_accuracy path scores :
  ¬ keep path → preserves R (write_accuracy path scores).
Proof.
  intros Hk w. unfold write_accuracy. run_monad.
  destruct (lookup_dir (w_fs w) path); simpl; [|done]. by apply steady_fs.
Qed.

Lemma preserves_write_meta path : ¬ keep path → preserves R (write_meta path).
Proof.
  intros Hk w. unfold write_meta. run_monad.
  destruct (lookup_dir (w_fs w) path); simpl; [|done]. by apply steady_fs.
Qed.

(** A scope is left as it was entered, also by an exception. *)
Lemma preserves_with_scope {A} s (body : M A) :
  Pev (Enter s) → Pev (Exit s) → preserves R body →
  preserves R (with_scope s body).
Proof.
  intros Hin Hout Hbody w. unfold with_scope, try_finally. run_monad.
  match goal with |- context [body ?w1] =>
    specialize (Hbody w1); destruct (body w1) as [r w2] end.
  simpl in *. destruct Hbody as (Hfs & Hs & t & Ht & HP). simpl in *.
  split_and!; simpl.
  - done.
  - by rewrite Hs.
  - exists ([Enter s] ++ t ++ [Exit s]). simpl. rewrite Ht.
    rewrite <-!app_assoc. split; [done|].
    constructor; [done|]. apply Forall_app. split; [done|]. by constructor.
Qed.

End operations.

(** ** Lines 60-111: configuration *)

Section configure.

Context (E : collab) (a : args) (Pev : event → Prop) (keep : string → Prop).
Context (Hsetup : ∀ ev, setup_event ev → Pev ev).

#[local] Abbreviation R := (steady Pev keep).
#[local] Abbreviation P := (configure_error E a).

Lemma fault_configure_error o e : fault E o = Some e → P e.
Proof. intros H. right. left. by exists o. Qed.

Lemma sound_check_paths : sound P R (check_paths a).
Proof using Type.
  intros w. unfold check_paths, bad_paths. run_monad.
  destruct (train_path_exists a) eqn:H1; simpl.
  2:{ split; [reflexivity|]. intros e [= <-]. left. unfold bad_paths. auto. }
  destruct (dev_path_exists a) eqn:H2; simpl.
  2:{ split; [reflexivity|]. intros e [= <-]. left. unfold bad_paths. auto. }
  destruct (meta_path a) eqn:H3; simpl.
  - split; [by apply steady_field|done].
  - split; [reflexivity|]. intros e [= <-]. left. unfold bad_paths. auto.
  - split; [reflexivity|]. intros e [= <-]. left. unfold bad_paths. auto.
  - split; [by apply steady_field|done].
Qed.

Lemma sound_setup_call o : setup_event (Call o) → sound P R (call E o).
Proof using Hsetup.
  intros H. apply sound_call; [apply fault_configure_error|auto].
Qed.

Lemma sound_add_pipe name : sound P R (add_pipe E name).
Proof using Hsetup.
  unfold add_pipe. apply sound_bind; [apply _|by apply sound_setup_call|].
  intros _. apply sound_modify; [apply _|]. by apply steady_field.
Qed.

Lemma sound_blank_model pipes :
  sound P R (call E (OpGetLangClass (lang a));;
             modify (set_lang (lang a));; for_each pipes (add_pipe E)).
Proof using Hsetup.
  apply sound_bind; [apply _|by apply sound_setup_call|intros _].
  apply sound_bind; [apply _| |intros _].
  { apply sound_modify; [apply _|]. by apply steady_field. }
  apply sound_for_each; [apply _|]. intros x _. apply sound_add_pipe.
Qed.

Lemma sound_setup_pipeline pipes : sound P R (setup_pipeline E a pipes).
Proof using Hsetup.
  unfold setup_pipeline. apply sound_bind; [apply _| |intros _].
  { destruct (base_model a) as [name|]; [|apply sound_blank_model].
    destruct (truthy name); [|apply sound_blank_model].
    apply sound_bind; [apply _|by apply sound_setup_call|intros _].
    apply sound_bind; [apply _| |intros _].
    { apply sound_modify; [apply _|]. by apply steady_field. }
    apply sound_bind; [apply _| |intros _].
    { apply sound_modify; [apply _|]. by apply steady_field. }
    apply sound_for_each; [apply _|]. intros pipe _.
    apply sound_bind; [apply _|apply sound_gets; apply _|intros names].
    destruct (contains names pipe); [apply sound_ret; apply _|apply sound_add_pipe]. }
  apply sound_bind; [apply _| |intros _].
  { destruct (learn_tokens a); [apply sound_add_pipe|apply sound_ret; apply _]. }
  destruct (vectors a) as [v|]; [|apply sound_ret; apply _].
  destruct (truthy v); [by apply sound_setup_call|apply sound_ret; apply _].
Qed.

Lemma sound_add_multitask_objectives pipe_name multitasks :
  (misconfigured a pipe_name multitasks → P (needs pipe_name)) →
  sound P R (add_multitask_objectives E (pipeline_list a) pipe_name multitasks).
Proof using Hsetup.
  intros Hneeds. unfold add_multitask_objectives.
  destruct (truthy multitasks) eqn:Ht; [|apply sound_ret; apply _].
  apply sound_bind; [apply _| |intros _].
  { destruct (contains (pipeline_list a) pipe_name) eqn:Hc;
      [apply sound_ret; apply _|].
    apply sound_raise; [apply _|]. by apply Hneeds. }
  apply sound_bind; [apply _|by apply sound_setup_call|intros _].
  apply sound_for_each; [apply _|]. intros objective _.
  apply sound_bind; [apply _|by apply sound_setup_call|intros _].
  apply sound_modify; [apply _|]. by apply steady_field.
Qed.

Lemma sound_multitask_objectives :
  sound P R (multitask_objectives E a (pipeline_list a)).
Proof using Hsetup.
  unfold multitask_objectives. apply sound_for_each; [apply _|].
  intros [pipe_name multitasks] Hin. simpl.
  apply elem_of_cons in Hin as [[= -> ->]|Hin].
  { apply sound_add_multitask_objectives. intros H. right. right. by left. }
  apply list_elem_of_singleton in Hin as [= -> ->].
  apply sound_add_multitask_objectives. intros H. right. right. by right.
Qed.

Lemma sound_configure : sound P R (configure E a).
Proof using Hsetup.
  unfold configure.
  apply sound_bind; [apply _|by apply sound_set_env_log, Hsetup|intros _].
  apply sound_bind; [apply _|apply sound_check_paths|intros _].
  apply sound_bind; [apply _|apply sound_setup_pipeline|intros _].
  apply sound_multitask_objectives.
Qed.

End configure.

Lemma fails_add_multitask_objectives E pipes pipe_name multitasks :
  truthy multitasks = true → contains pipes pipe_name = false →
  fails (add_multitask_objectives E pipes pipe_name multitasks).
Proof.
  intros Ht Hc w. unfold add_multitask_objectives. rewrite Ht, Hc.
  run_monad. eauto.
Qed.

Lemma fails_configure E a :
  misconfigured a "parser" (parser_multitasks a)
  ∨ misconfigured a "ner" (entity_multitasks a) →
  fails (configure E a).
Proof.
  intros H. unfold configure. do 3 (apply fails_bind_r; intros _).
  unfold multitask_objectives.
  change (fails (add_multitask_objectives E (pipeline_list a) "parser"
                   (parser_multitasks a) ≫= fun _ =>
                 add_multitask_objectives E (pipeline_list a) "ner"
                   (entity_multitasks a) ≫= fun _ => ret tt)).
  destruct H as [[Ht Hc]|[Ht Hc]].
  - by apply fails_bind_l, fails_add_multitask_objectives.
  - apply fails_bind_r; intros _.
    by apply fails_bind_l, fails_add_multitask_objectives.
Qed.

(** The objectives of a component of the pipeline are registered in the
    order of the list. *)
Lemma add_multitask_objectives_run E pipes pipe_name multitasks w :
  truthy multitasks = true → contains pipes pipe_name = true → no_fault E →
  ∃ w', add_multitask_objectives E pipes pipe_name multitasks w = (Ok tt, w') ∧
    w_objectives w'
    = w_objectives w ++ map (pair pipe_name) (split ","%char multitasks).
Proof.
  intros Ht Hc Hf. unfold add_multitask_objectives. rewrite Ht, Hc.
  unfold call. run_monad. rewrite Hf. simpl.
  match goal with |- context [for_each _ _ ?w1] =>
    change (w_objectives w) with (w_objectives w1); generalize w1 end.
  induction (split ","%char multitasks) as [|objective l IH]; intros w1.
  - exists w1. by rewrite app_nil_r.
  - rewrite for_each_cons. simpl. rewrite Hf. simpl.
    match goal with |- context [for_each _ _ ?w2] =>
      destruct (IH w2) as (w' & -> & Ho) end.
    exists w'. split; [done|]. rewrite Ho. simpl. by rewrite <-app_assoc.
Qed.

(** ** The epoch loop and the final save *)

Lemma epoch_path_no_dash i suffix : epoch_path i ≠ "model-" +:+ suffix.
Proof.
  unfold epoch_path. intros H. injection H as H. revert H.
  unfold pretty, pretty_nat, pretty, pretty_N.
  destruct (decide (N.of_nat i = 0)%N); [done|].
  by apply pretty_N_go_ne_dash.
Qed.

Lemma no_epoch_path_final : no_epoch_path "model-final".
Proof. intros i H. by apply (epoch_path_no_dash i "final"). Qed.

Lemma no_epoch_path_best : no_epoch_path "model-best".
Proof. intros i H. by apply (epoch_path_no_dash i "best"). Qed.

Section epochs.

Context (E : collab) (a : args) (Pev : event → Prop) (keep : string → Prop).
Context (Hev : ∀ ev, ev ≠ Collate → Pev ev).
Context (Hkeep : ∀ name, keep name → no_epoch_path name).

#[local] Abbreviation R := (steady Pev keep).

Lemma keep_epoch_path i : ¬ keep (epoch_path i).
Proof using Hkeep. intros H. by apply (Hkeep _ H i). Qed.

Lemma preserves_call o : preserves R (call E o).
Proof using Hev.
  apply (sound_preserves (fun _ => True)), sound_call; [done|by apply Hev].
Qed.

Lemma preserves_set_env_log v : preserves R (set_env_log v).
Proof using Hev.
  apply (sound_preserves (fun _ => True)), sound_set_env_log. by apply Hev.
Qed.

Lemma preserves_field f :
  (∀ w, w_fs (f w) = w_fs w) → (∀ w, w_scopes (f w) = w_scopes w) →
  (∀ w, w_trace (f w) = w_trace w) → preserves R (modify f).
Proof using Type. intros ??? w. by apply steady_field. Qed.

Lemma preserves_prepare :
  preserves R (prepare E a).
Proof using Hev.
  unfold prepare. apply preserves_bind; [apply _| |intros _].
  { apply (sound_preserves (configure_error E a)), sound_configure.
    intros ev H. apply Hev. by destruct ev. }
  apply preserves_bind; [apply _|apply preserves_call|intros _].
  apply preserves_call.
Qed.

Lemma preserves_train_epoch i : preserves R (train_epoch E i).
Proof using Hev.
  unfold train_epoch.
  apply preserves_bind; [apply _|apply preserves_call|intros _].
  apply preserves_bind; [apply _|preserves_leaf|intros cursor].
  apply preserves_bind; [apply _|by apply preserves_field|intros _].
  apply preserves_for_each; [apply _|]. intros batch _.
  unfold train_batch. destruct batch; [preserves_leaf|].
  apply preserves_bind; [apply _|by apply preserves_field|intros _].
  apply preserves_bind; [apply _|apply preserves_call|intros _].
  by apply preserves_field.
Qed.

Lemma preserves_benchmark i path n : preserves R (benchmark E a i path n).
Proof using Hev.
  unfold benchmark.
  apply preserves_bind; [apply _|apply preserves_timer|intros start_time].
  apply preserves_bind; [apply _|apply preserves_call|intros _].
  apply preserves_bind; [apply _|apply preserves_timer|intros end_time].
  destruct (use_gpu a <? 0)%Z.
  { apply preserves_bind; [apply _|apply preserves_wps|intros ?].
    preserves_leaf. }
  apply preserves_bind; [apply _|apply preserves_wps|intros gpu_wps].
  apply preserves_with_scope; [by apply Hev..|].
  apply preserves_bind; [apply _|apply preserves_call|intros _].
  apply preserves_bind; [apply _|apply preserves_call|intros _].
  apply preserves_bind; [apply _|apply preserves_timer|intros ?].
  apply preserves_bind; [apply _|apply preserves_call|intros _].
  apply preserves_bind; [apply _|apply preserves_timer|intros ?].
  apply preserves_bind; [apply _|apply preserves_wps|intros ?].
  preserves_leaf.
Qed.

Lemma preserves_checkpoint_steps i : preserves R (checkpoint_steps E a i).
Proof using Hev Hkeep.
  unfold checkpoint_steps. fold (epoch_path i).
  apply preserves_bind; [apply _|apply preserves_set_env_log|intros _].
  apply preserves_bind; [apply _| |intros _].
  { apply preserves_to_disk; [by apply Hev|apply keep_epoch_path]. }
  apply preserves_bind; [apply _|apply preserves_call|intros _].
  apply preserves_bind; [apply _|apply preserves_call|intros _].
  apply preserves_bind; [apply _|apply preserves_benchmark|intros r].
  apply preserves_bind; [apply _|apply preserves_call|intros _].
  apply preserves_bind; [apply _| |intros _].
  { apply preserves_write_accuracy, keep_epoch_path. }
  apply preserves_bind; [apply _| |intros _].
  { unfold update_meta. by apply preserves_field. }
  apply preserves_bind; [apply _|apply preserves_call|intros _].
  apply preserves_bind; [apply _| |intros _].
  { apply preserves_write_meta, keep_epoch_path. }
  apply preserves_set_env_log.
Qed.

Lemma preserves_checkpoint i : preserves R (checkpoint E a i).
Proof using Hev Hkeep.
  unfold checkpoint. apply preserves_with_scope; [by apply Hev..|].
  apply preserves_checkpoint_steps.
Qed.

Lemma preserves_epoch_loop : preserves R (epoch_loop E a).
Proof using Hev Hkeep.
  unfold epoch_loop. apply preserves_for_each; [apply _|]. intros i _.
  unfold epoch. apply preserves_bind; [apply _|apply preserves_train_epoch|].
  intros _. apply preserves_checkpoint.
Qed.

End epochs.

(** What a scope leaves when its body returns. *)
Lemma with_scope_Ok_inv {A} s (body : M A) w x w' :
  with_scope s body w = (Ok x, w') →
  ∃ w2,
    body (set_trace (w_trace w ++ [Enter s]) (set_scopes (s :: w_scopes w) w))
    = (Ok x, w2) ∧
    w' = set_trace (w_trace w2 ++ [Exit s]) (set_scopes (tail (w_scopes w2)) w2).
Proof.
  unfold with_scope, try_finally. run_monad.
  match goal with |- context [body ?w1] => destruct (body w1) as [r w2] end.
  simpl. intros [= -> <-]. by exists w2.
Qed.

(** The trace of a scope is bracketed by its entry and its exit. *)
Lemma with_scope_trace {A} Pev keep s (body : M A) w :
  preserves (steady Pev keep) body →
  ∃ t, w_trace (with_scope s body w).2 = w_trace w ++ Enter s :: t ++ [Exit s].
Proof.
  intros Hbody. unfold with_scope, try_finally. run_monad.
  match goal with |- context [body ?w1] =>
    destruct (Hbody w1) as (_ & _ & t & Ht & _); destruct (body w1) as [r w2] end.
  simpl in *. exists t. rewrite Ht. by rewrite <-!app_assoc.
Qed.

(** C6 (amended). Whether the steps of the checkpoint return or raise, the
    scopes open after the checkpoint are those open before it, and the
    trace of the checkpoint starts with the entry into the
    averaged-parameter scope and ends with the exit from it; when the
    steps return, the verbosity is the configured one. *)
Theorem checkpoint_restores E a i w :
  w_scopes (checkpoint E a i w).2 = w_scopes w ∧
  (∃ t, w_trace (checkpoint E a i w).2
        = w_trace w ++ Enter AveragedParams :: t ++ [Exit AveragedParams]) ∧
  ((checkpoint E a i w).1 = Ok tt →
   w_env_log (checkpoint E a i w).2 = verbose a).
Proof.
  split_and!.
  - apply (preserves_checkpoint E a (fun _ => True) (fun _ => False)); done.
  - apply (with_scope_trace (fun _ => True) (fun _ => False)).
    apply preserves_checkpoint_steps; done.
  - destruct (checkpoint E a i w) as [r w'] eqn:Hrun. simpl. intros ->.
    unfold checkpoint in Hrun.
    apply with_scope_Ok_inv in Hrun as (w2 & Hbody & ->). simpl.
    unfold checkpoint_steps in Hbody. cbv zeta in Hbody.
    do 10 (apply bind_Ok_inv in Hbody as (? & ? & _ & Hbody)).
    unfold set_env_log in Hbody. revert Hbody. run_monad. by intros [= <-].
Qed.

(** ** Runs of the operations *)

Lemma with_scope_run {A} s (body : M A) w :
  with_scope s body w = ((body (enter s w)).1, leave s (body (enter s w)).2).
Proof.
  unfold with_scope, try_finally, enter, leave. run_monad.
  by destruct (body _) as [[x|e] w2].
Qed.

Lemma call_run E o w :
  fault E o = None → call E o w = (Ok tt, called o w).
Proof. intros H. unfold call. run_monad. by rewrite H. Qed.

Lemma call_trace E o w : w_trace (call E o w).2 = w_trace w ++ [Call o].
Proof. unfold call. run_monad. by destruct (fault E o). Qed.

Lemma set_env_log_run v w :
  set_env_log v w
  = (Ok tt, set_trace (w_trace w ++ [EnvLog v]) (set_log v w)).
Proof. done. Qed.

Lemma timer_run E w :
  timer E w = (Ok (clock E (w_clock w)), set_clock (S (w_clock w)) w).
Proof. done. Qed.

Lemma wps_run n s e w :
  Qeq_bool (e - s) 0 = false →
  wps n s e w = (Ok (inject_Z (Z.of_nat n) / (e - s))%Q, w).
Proof. intros H. unfold wps. by rewrite H. Qed.

Lemma to_disk_run E path w :
  fault E (OpToDisk path) = None → w_fs w !! path ≠ Some IsFile →
  to_disk E path w
  = (Ok tt, set_fs (<[path := IsDir (to_disk_dir w path)]> (w_fs w))
              (called (OpToDisk path) w)).
Proof.
  intros Hf Hfile. unfold to_disk, call, to_disk_dir. run_monad. rewrite Hf.
  simpl. by destruct (w_fs w !! path) as [[|d]|].
Qed.

Lemma to_disk_trace E path w :
  w_trace (to_disk E path w).2 = w_trace w ++ [Call (OpToDisk path)].
Proof.
  unfold to_disk, call. run_monad. destruct (fault E _); simpl; [done|].
  by destruct (w_fs w !! path) as [[|d]|].
Qed.

Lemma to_disk_frame E path w name :
  name ≠ path → w_fs (to_disk E path w).2 !! name = w_fs w !! name.
Proof.
  intros Hne. unfold to_disk, call. run_monad. destruct (fault E _); simpl; [done|].
  destruct (w_fs w !! path) as [[|d]|]; simpl; by rewrite ?lookup_insert_ne.
Qed.

Lemma write_accuracy_run path scores d w :
  w_fs w !! path = Some (IsDir d) →
  write_accuracy path scores w
  = (Ok tt, set_fs (<[path :=
       IsDir (Dir (d_pipes d) (Some scores) (d_meta d))]> (w_fs w)) w).
Proof.
  intros H. unfold write_accuracy. run_monad.
  by rewrite (proj2 (lookup_dir_Some _ _ _) H).
Qed.

Lemma write_meta_run path d w :
  w_fs w !! path = Some (IsDir d) →
  write_meta path w
  = (Ok tt, set_fs (<[path :=
       IsDir (Dir (d_pipes d) (d_accuracy d) (Some (w_meta w)))]> (w_fs w)) w).
Proof.
  intros H. unfold write_meta. run_monad.
  by rewrite (proj2 (lookup_dir_Some _ _ _) H).
Qed.

Lemma lookup_snapshot w name :
  name ∈ w_pipe_names w →
  snapshot w !! name = Some (Blob (current_view w) (w_updates w)).
Proof.
  unfold snapshot. generalize (Blob (current_view w) (w_updates w)).
  intros b. induction (w_pipe_names w) as [|n names IH]; simpl.
  { by intros ?%elem_of_nil. }
  intros Hin. destruct (decide (n = name)) as [->|Hne].
  - by rewrite lookup_insert_eq.
  - rewrite lookup_insert_ne by done. apply IH.
    by apply elem_of_cons in Hin as [->|].
Qed.

Lemma lookup_to_disk_dir w path name :
  name ∈ w_pipe_names w →
  d_pipes (to_disk_dir w path) !! name
  = Some (Blob (current_view w) (w_updates w)).
Proof.
  intros Hin. unfold to_disk_dir.
  destruct (w_fs w !! path) as [[|d]|]; simpl; try by apply lookup_snapshot.
  apply lookup_union_Some_l. by apply lookup_snapshot.
Qed.

Lemma current_view_enter w : current_view (enter AveragedParams w) = Averaged.
Proof. done. Qed.

(** The final save: what it writes, and that it touches nothing else. *)
Lemma save_final_spec E w :
  w_trace (save_final E w).2
  = w_trace w ++ [Enter AveragedParams; Call (OpToDisk "model-final");
                  Exit AveragedParams] ∧
  (∀ name, name ≠ "model-final" →
     w_fs (save_final E w).2 !! name = w_fs w !! name) ∧
  (fault E (OpToDisk "model-final") = None →
   w_fs w !! "model-final" ≠ Some IsFile →
   (save_final E w).1 = Ok tt ∧
   ∃ d, w_fs (save_final E w).2 !! "model-final" = Some (IsDir d) ∧
     ∀ name, name ∈ w_pipe_names w →
       d_pipes d !! name = Some (Blob Averaged (w_updates w))).
Proof.
  unfold save_final. rewrite with_scope_run. simpl. split_and!.
  - rewrite to_disk_trace. simpl. by rewrite <-!app_assoc.
  - intros name Hne. by rewrite to_disk_frame.
  - intros Hf Hfile. rewrite to_disk_run by done. simpl. split; [done|].
    eexists. rewrite lookup_insert_eq. split; [done|]. intros name Hin.
    rewrite lookup_to_disk_dir by done. by rewrite current_view_enter.
Qed.

(** C2. When the preparation returns and the epoch loop raises, [train]
    raises: after the loop it enters the averaged-parameter scope, saves
    to [model-final] and leaves the scope, and nothing else follows; the
    composer is not invoked and [model-best] is as it was before the run,
    absent if it was absent. When the save itself does not fail, the
    exception of the loop propagates and [model-final] holds every
    component of the pipeline under the averaged parameters of the
    updates made when the loop raised. *)
Theorem final_save_on_exception E a w w1 e w2 :
  prepare E a w = (Ok tt, w1) →
  epoch_loop E a w1 = (Raise e, w2) →
  ∃ e' w',
    train E a w = (Raise e', w') ∧
    w_trace w' = w_trace w2 ++ [Enter AveragedParams;
                                Call (OpToDisk "model-final");
                                Exit AveragedParams] ∧
    traces (fun ev => ev ≠ Collate) w w' ∧
    w_fs w' !! "model-best" = w_fs w !! "model-best" ∧
    (fault E (OpToDisk "model-final") = None →
     w_fs w !! "model-final" ≠ Some IsFile →
     e' = e ∧
     ∃ d, w_fs w' !! "model-final" = Some (IsDir d) ∧
       ∀ name, name ∈ w_pipe_names w2 →
         d_pipes d !! name = Some (Blob Averaged (w_updates w2))).
Proof.
  intros Hprep Hloop.
  pose proof (preserves_prepare E a (fun ev => ev ≠ Collate) no_epoch_path
    (fun _ H => H) w) as (Hfs1 & _ & Ht1).
  pose proof (preserves_epoch_loop E a (fun ev => ev ≠ Collate) no_epoch_path
    (fun _ H => H) (fun _ H => H) w1) as (Hfs2 & _ & Ht2).
  rewrite Hprep in Hfs1, Ht1. rewrite Hloop in Hfs2, Ht2. simpl in *.
  destruct (save_final_spec E w2) as (Hts & Hfs3 & Hsave).
  destruct (save_final E w2) as [r3 w3] eqn:Hfinal. simpl in *.
  exists (match r3 with Ok _ => e | Raise e3 => e3 end), w3.
  split_and!.
  - unfold train. rewrite (bind_Ok _ _ _ _ _ Hprep). rewrite run_bind.
    unfold try_finally. rewrite Hloop, Hfinal. by destruct r3 as [[]|e3].
  - done.
  - etrans; [exact Ht1|]. etrans; [exact Ht2|].
    exists [Enter AveragedParams; Call (OpToDisk "model-final");
            Exit AveragedParams].
    split; [done|]. by repeat constructor.
  - rewrite Hfs3 by done.
    rewrite (Hfs2 _ no_epoch_path_best). apply (Hfs1 _ no_epoch_path_best).
  - intros Hf Hfile. destruct Hsave as (-> & d & Hd & Hpipes); [done| |].
    { by rewrite (Hfs2 _ no_epoch_path_final), (Hfs1 _ no_epoch_path_final). }
    split; [done|]. by exists d.
Qed.

(** ** The speed record of an epoch *)

Section speed.

Context (E : collab) (a : args).
Context (Hfault : no_fault E).
Context (Hclock : ∀ n, Qeq_bool (clock E (S n) - clock E n) 0 = false).

Lemma benchmark_baseline_run i path n w :
  (use_gpu a < 0)%Z →
  ∃ w', benchmark E a i path n w
        = (Ok ((inject_Z (Z.of_nat n)
                / (clock E (S (w_clock w)) - clock E (w_clock w)))%Q,
               None, scorer_scores E i false), w') ∧
    w_fs w' = w_fs w ∧ w_meta w' = w_meta w ∧ w_scopes w' = w_scopes w ∧
    w_pipe_names w' = w_pipe_names w ∧ w_lang w' = w_lang w ∧
    w_trace w' = w_trace w ++ [Call (OpEvaluate i false)].
Proof using Hfault Hclock.
  intros Hgpu. unfold benchmark. apply Z.ltb_lt in Hgpu. rewrite Hgpu.
  rewrite run_bind, timer_run. rewrite run_bind, call_run by done.
  rewrite run_bind, timer_run. simpl.
  rewrite run_bind, wps_run by apply Hclock. simpl.
  eexists. split; [done|]. done.
Qed.

Lemma benchmark_accelerated_run i path n w :
  (0 <= use_gpu a)%Z →
  ∃ w', benchmark E a i path n w
        = (Ok ((inject_Z (Z.of_nat n)
                / (clock E (S (S (S (w_clock w))))
                   - clock E (S (S (w_clock w)))))%Q,
               Some (inject_Z (Z.of_nat n)
                     / (clock E (S (w_clock w)) - clock E (w_clock w)))%Q,
               scorer_scores E i true), w') ∧
    w_fs w' = w_fs w ∧ w_meta w' = w_meta w ∧ w_scopes w' = w_scopes w ∧
    w_pipe_names w' = w_pipe_names w ∧ w_lang w' = w_lang w ∧
    w_trace w' = w_trace w ++ [Call (OpEvaluate i false); Enter CpuDevice;
                               Call (OpLoadFromPath path true);
                               Call (OpDevDocs i true);
                               Call (OpEvaluate i true); Exit CpuDevice].
Proof using Hfault Hclock.
  intros Hgpu. unfold benchmark.
  assert ((use_gpu a <? 0)%Z = false) as -> by (by apply Z.ltb_ge).
  rewrite run_bind, timer_run. rewrite run_bind, call_run by done.
  rewrite run_bind, timer_run. simpl.
  rewrite run_bind, wps_run by apply Hclock. simpl.
  rewrite with_scope_run.
  rewrite run_bind, call_run by done. rewrite run_bind, call_run by done.
  rewrite run_bind, timer_run. rewrite run_bind, call_run by done.
  rewrite run_bind, timer_run. simpl.
  rewrite run_bind, wps_run by apply Hclock. simpl.
  eexists. split; [done|]. simpl. split_and!; try done.
  by rewrite <-!app_assoc.
Qed.

(** The two cases together. *)
Lemma benchmark_run i path n w :
  ∃ r w' tb, benchmark E a i path n w = (Ok r, w') ∧
    w_fs w' = w_fs w ∧ w_meta w' = w_meta w ∧ w_scopes w' = w_scopes w ∧
    w_pipe_names w' = w_pipe_names w ∧ w_lang w' = w_lang w ∧
    w_trace w' = w_trace w ++ tb ∧
    ((use_gpu a < 0)%Z →
       r = ((inject_Z (Z.of_nat n)
             / (clock E (S (w_clock w)) - clock E (w_clock w)))%Q,
            None, scorer_scores E i false) ∧
       tb = [Call (OpEvaluate i false)]) ∧
    ((0 <= use_gpu a)%Z →
       r = ((inject_Z (Z.of_nat n)
             / (clock E (S (S (S (w_clock w))))
                - clock E (S (S (w_clock w)))))%Q,
            Some (inject_Z (Z.of_nat n)
                  / (clock E (S (w_clock w)) - clock E (w_clock w)))%Q,
            scorer_scores E i true) ∧
       tb = [Call (OpEvaluate i false); Enter CpuDevice;
             Call (OpLoadFromPath path true); Call (OpDevDocs i true);
             Call (OpEvaluate i true); Exit CpuDevice]).
Proof using Hfault Hclock.
  destruct (Z.lt_ge_cases (use_gpu a) 0) as [Hgpu|Hgpu].
  - destruct (benchmark_baseline_run i path n w Hgpu)
      as (w' & Hrun & ? & ? & ? & ? & ? & ?).
    eexists _, w', _. split; [exact Hrun|]. split_and!; try done. lia.
  - destruct (benchmark_accelerated_run i path n w Hgpu)
      as (w' & Hrun & ? & ? & ? & ? & ? & ?).
    eexists _, w', _. split; [exact Hrun|]. split_and!; try done. lia.
Qed.

(** The statements of the checkpoint when no collaborator raises: the
    directory of the epoch receives the scores of the last evaluation
    and the meta record with the speed of the benchmark. *)
Lemma checkpoint_steps_run i w :
  w_fs w !! epoch_path i ≠ Some IsFile →
  ∃ r tb w' d m,
    checkpoint_steps E a i w = (Ok tt, w') ∧
    w_fs w' !! epoch_path i = Some (IsDir d) ∧
    d_accuracy d = Some r.2 ∧ d_meta d = Some m ∧
    m_speed m
    = Some (Speed (batch_words (dev_docs E i false)) r.1.1 r.1.2) ∧
    w_trace w' = w_trace w ++
      [EnvLog false; Call (OpToDisk (epoch_path i));
       Call (OpLoadFromPath (epoch_path i) false); Call (OpDevDocs i false)]
      ++ tb ++
      [Call (OpWriteJson (epoch_path i +:+ "/accuracy.json"));
       Call (OpWriteJson (epoch_path i +:+ "/meta.json"));
       EnvLog (verbose a)] ∧
    ((use_gpu a < 0)%Z →
       r = ((inject_Z (Z.of_nat (batch_words (dev_docs E i false)))
             / (clock E (S (w_clock w)) - clock E (w_clock w)))%Q,
            None, scorer_scores E i false) ∧
       tb = [Call (OpEvaluate i false)]) ∧
    ((0 <= use_gpu a)%Z →
       r = ((inject_Z (Z.of_nat (batch_words (dev_docs E i false)))
             / (clock E (S (S (S (w_clock w))))
                - clock E (S (S (w_clock w)))))%Q,
            Some (inject_Z (Z.of_nat (batch_words (dev_docs E i false)))
                  / (clock E (S (w_clock w)) - clock E (w_clock w)))%Q,
            scorer_scores E i true) ∧
       tb = [Call (OpEvaluate i false); Enter CpuDevice;
             Call (OpLoadFromPath (epoch_path i) true);
             Call (OpDevDocs i true);
             Call (OpEvaluate i true); Exit CpuDevice]).
Proof using Hfault Hclock.
  intros Hfile. unfold checkpoint_steps. fold (epoch_path i). cbv zeta.
  rewrite run_bind, set_env_log_run.
  rewrite run_bind, to_disk_run by done.
  rewrite run_bind, call_run by done. rewrite run_bind, call_run by done.
  match goal with |- context [(benchmark E a i ?p ?n ≫= _) ?w0] =>
    destruct (benchmark_run i p n w0)
      as (r & wb & tb & Hrun & Hfs & Hmeta & _ & _ & _ & Ht & Hcases) end.
  exists r, tb. rewrite run_bind, Hrun.
  rewrite run_bind, call_run by done.
  erewrite run_bind, write_accuracy_run;
    [|simpl; rewrite Hfs; simpl; apply lookup_insert_eq].
  unfold update_meta. rewrite run_bind. unfold modify at 1.
  rewrite run_bind, call_run by done.
  erewrite run_bind, write_meta_run; [|simpl; apply lookup_insert_eq].
  rewrite set_env_log_run. simpl.
  eexists _, _, _. split; [done|]. simpl.
  rewrite insert_insert_eq, lookup_insert_eq.
  split; [reflexivity|]. simpl. destruct Hcases as [H1 H2].
  split_and!; [done|done|done| |exact H1|exact H2].
  rewrite Ht. simpl. by rewrite <-!app_assoc.
Qed.

End speed.

(** C3 (amended). In an epoch whose checkpoint no collaborator makes
    fail, the meta record of the epoch holds a speed record with the
    number of development words. When [use_gpu] is negative, the
    baseline backend, it holds the words per second of the single
    evaluation as [cpu] and no [gpu] value; when [use_gpu] is zero or
    more, the accelerated backend, it holds the words per second of the
    first evaluation as [gpu], and the pipeline is reloaded and the
    development set evaluated a second time under the baseline backend,
    whose words per second are [cpu]. *)
Theorem speed_record_by_backend E a i w :
  no_fault E →
  (∀ n, Qeq_bool (clock E (S n) - clock E n) 0 = false) →
  w_fs w !! epoch_path i ≠ Some IsFile →
  ∃ w' d m s tb,
    checkpoint E a i w = (Ok tt, w') ∧
    w_fs w' !! epoch_path i = Some (IsDir d) ∧
    d_meta d = Some m ∧ m_speed m = Some s ∧
    nwords s = batch_words (dev_docs E i false) ∧
    w_trace w' = w_trace w ++
      [Enter AveragedParams; EnvLog false; Call (OpToDisk (epoch_path i));
       Call (OpLoadFromPath (epoch_path i) false); Call (OpDevDocs i false)]
      ++ tb ++
      [Call (OpWriteJson (epoch_path i +:+ "/accuracy.json"));
       Call (OpWriteJson (epoch_path i +:+ "/meta.json"));
       EnvLog (verbose a); Exit AveragedParams] ∧
    ((use_gpu a < 0)%Z →
       gpu s = None ∧
       cpu s = (inject_Z (Z.of_nat (nwords s))
                / (clock E (S (w_clock w)) - clock E (w_clock w)))%Q ∧
       d_accuracy d = Some (scorer_scores E i false) ∧
       tb = [Call (OpEvaluate i false)]) ∧
    ((0 <= use_gpu a)%Z →
       gpu s = Some (inject_Z (Z.of_nat (nwords s))
                     / (clock E (S (w_clock w)) - clock E (w_clock w)))%Q ∧
       cpu s = (inject_Z (Z.of_nat (nwords s))
                / (clock E (S (S (S (w_clock w))))
                   - clock E (S (S (w_clock w)))))%Q ∧
       d_accuracy d = Some (scorer_scores E i true) ∧
       tb = [Call (OpEvaluate i false); Enter CpuDevice;
             Call (OpLoadFromPath (epoch_path i) true);
             Call (OpDevDocs i true);
             Call (OpEvaluate i true); Exit CpuDevice]).
Proof.
  intros Hf Hclock Hfile.
  destruct (checkpoint_steps_run E a Hf Hclock i (enter AveragedParams w))
    as (r & tb & w2 & d & m & Hrun & Hd & Hacc & Hm & Hs & Ht & H1 & H2);
    [done|].
  exists (leave AveragedParams w2), d, m,
    (Speed (batch_words (dev_docs E i false)) r.1.1 r.1.2), tb.
  split_and!; try done.
  - unfold checkpoint. by rewrite with_scope_run, Hrun.
  - simpl. rewrite Ht. simpl. rewrite <-!app_assoc. simpl.
    by rewrite <-app_assoc.
  - intros Hgpu. destruct (H1 Hgpu) as [-> ->]. rewrite Hacc. simpl. done.
  - intros Hgpu. destruct (H2 Hgpu) as [-> ->]. rewrite Hacc. simpl. done.
Qed.

(** C3 as stated fails: with [use_gpu] equal to 0 the speed record of the
    epoch holds an accelerated throughput. *)
Lemma use_gpu_zero_is_accelerated :
  ¬ (∀ E a w i d m s,
       use_gpu a = 0%Z →
       w_fs (train E a w).2 !! epoch_path i = Some (IsDir d) →
       d_meta d = Some m → m_speed m = Some s → gpu s = None).
Proof.
  intros H.
  specialize (H (collaborators never) (command "tagger,parser" 1 0 "" false)
                (initial ∅) 0%nat).
  vm_compute in H. by specialize (H _ _ _ eq_refl eq_refl eq_refl eq_refl).
Qed.

(** C6 as stated fails: when the evaluation raises in a verbose run, the
    checkpoint leaves the verbosity lowered. *)
Lemma checkpoint_leaves_verbosity_lowered :
  ¬ (∀ E a i w, w_env_log (checkpoint E a i w).2 = verbose a).
Proof.
  intros H.
  specialize (H (collaborators in_epoch_2) (command "tagger,parser" 5 (-1) "" true)
                2%nat (initial ∅)).
  by vm_compute in H.
Qed.

(** C5, at a run of no epoch ([--n-iter 0]): the tournament finds no
    candidate, and the composer does not complete; it raises [TypeError]
    after it removed the component from the copy of [model-final], which
    is left without the component and without meta record. *)
Theorem train_without_epoch_raises :
  let run := train (collaborators never) (command "tagger" 0 (-1) "" false)
               (initial ∅) in
  (∀ final, _find_best {[ "model-final" := IsDir final ]} "tagger" = Ok None) ∧
  (∃ final, w_fs run.2 !! "model-final" = Some (IsDir final) ∧
     d_pipes final !! "tagger" = Some (Blob Averaged 0)) ∧
  run.1 = Raise (TypeError
    "unsupported operand type(s) for /: 'NoneType' and 'str'") ∧
  ∃ best, w_fs run.2 !! "model-best" = Some (IsDir best) ∧
    d_pipes best !! "tagger" = None ∧ d_meta best = None.
Proof.
  split_and!.
  - intros final. vm_compute; reflexivity.
  - eexists. split; vm_compute; reflexivity.
  - vm_compute; reflexivity.
  - eexists. split_and!; vm_compute; reflexivity.
Qed.

(** ** The theorems at concrete runs *)

Lemma clock_advances n :
  Qeq_bool (clock (collaborators never) (S n) - clock (collaborators never) n) 0
  = false.
Proof.
  simpl. destruct (Qeq_bool _ _) eqn:H; [|done]. apply Qeq_bool_iff in H.
  exfalso. revert H. unfold Qeq, Qminus, Qplus, Qopp, inject_Z. simpl. lia.
Qed.

(** Scenario C of the specification: the evaluation of epoch 2 of a run
    of five epochs raises. *)
Lemma final_save_on_exception_witness :
  ∃ e' w',
    train (collaborators in_epoch_2) (command "tagger,parser" 5 (-1) "" false)
      (initial ∅) = (Raise e', w') ∧
    e' = Fault "evaluate" ∧
    (∃ d, w_fs w' !! "model-final" = Some (IsDir d) ∧
       d_pipes d !! "parser" = Some (Blob Averaged 6)) ∧
    w_fs w' !! "model-best" = None.
Proof.
  set (E := collaborators in_epoch_2).
  set (a := command "tagger,parser" 5 (-1) "" false).
  set (w1 := (prepare E a (initial ∅)).2).
  set (w2 := (epoch_loop E a w1).2).
  destruct (final_save_on_exception E a (initial ∅) w1 (Fault "evaluate") w2)
    as (e' & w' & Hrun & _ & _ & Hbest & Hsave).
  - vm_compute; reflexivity.
  - vm_compute; reflexivity.
  - destruct Hsave as (He & d & Hd & Hp);
      [reflexivity|vm_compute; discriminate|].
    exists e', w'. split; [exact Hrun|]. split; [exact He|]. split.
    + exists d. split; [exact Hd|]. rewrite (Hp "parser").
      * vm_compute; reflexivity.
      * assert (w_pipe_names w2 = ["tagger"; "parser"]) as ->
          by (vm_compute; reflexivity).
        apply list_elem_of_further, list_elem_of_here.
    + rewrite Hbest. vm_compute; reflexivity.
Defined.

(** Scenario D of the specification, for the baseline backend. *)
Lemma speed_record_by_backend_witness :
  ∃ w' d m s,
    checkpoint (collaborators never) (command "tagger,parser" 1 (-1) "" false)
      0 (initial ∅) = (Ok tt, w') ∧
    w_fs w' !! "model0" = Some (IsDir d) ∧
    d_meta d = Some m ∧ m_speed m = Some s ∧
    nwords s = 2%nat ∧ gpu s = None.
Proof.
  destruct (speed_record_by_backend (collaborators never)
              (command "tagger,parser" 1 (-1) "" false) 0 (initial ∅))
    as (w' & d & m & s & tb & Hrun & Hd & Hm & Hs & Hn & _ & Hcpu & _).
  - intros o. reflexivity.
  - apply clock_advances.
  - vm_compute; discriminate.
  - exists w', d, m, s. split; [exact Hrun|]. split; [exact Hd|].
    split; [exact Hm|]. split; [exact Hs|]. split; [exact Hn|].
    apply Hcpu. reflexivity.
Defined.

Lemma checkpoint_restores_witness :
  w_scopes (checkpoint (collaborators never)
              (command "tagger,parser" 1 (-1) "" true) 0 (initial ∅)).2 = [] ∧
  w_env_log (checkpoint (collaborators never)
               (command "tagger,parser" 1 (-1) "" true) 0 (initial ∅)).2 = true.
Proof.
  destruct (checkpoint_restores (collaborators never)
              (command "tagger,parser" 1 (-1) "" true) 0 (initial ∅))
    as (Hs & _ & Hlog).
  split; [exact Hs|]. apply Hlog. vm_compute; reflexivity.
Defined.

Lemma minibatch_by_words_partitions_witness :
  ∃ w',
    train_epoch (collaborators never) 0 (initial ∅) = (Ok tt, w') ∧
    w_updates w' = 2%nat.
Proof.
  destruct (proj2 minibatch_by_words_partitions (collaborators never) 0
              (initial ∅))
    as (w' & Hrun & _ & _ & Hu).
  - intros o. reflexivity.
  - exists w'. split; [exact Hrun|]. rewrite Hu. vm_compute; reflexivity.
Defined.

Lemma tie_epochs name a :
  epoch_record tie name a → name = "model9" ∨ name = "model10".
Proof.
  intros [Hne (d & Hd & _)]. unfold tie in Hd.
  apply lookup_insert_Some in Hd as [[<- _]|[_ Hd]]; [by left|].
  apply lookup_insert_Some in Hd as [[<- _]|[_ Hd]]; [by right|].
  by apply lookup_singleton_Some in Hd as [<- _].
Qed.

Lemma find_best_tie_break_witness :
  _find_best tie "parser" = Ok (Some "model9").
Proof.
  apply (proj2 find_best_tie_break tie "parser" (record 0.9 0.5 0.9)).
  - apply readableb_spec. vm_compute; reflexivity.
  - split; [discriminate|]. eexists. split; [vm_compute; reflexivity|reflexivity].
  - split; [discriminate|]. eexists. split; [vm_compute; reflexivity|reflexivity].
  - apply tie_epochs.
Defined.

Lemma find_best_ranks_metric_tuples_witness :
  ∃ a, epoch_record (w_fs scenario_A) "model1" a ∧
    ∀ name a', epoch_record (w_fs scenario_A) name a' →
      ¬ ranks_below (scores_of a "parser") (scores_of a' "parser").
Proof.
  apply (proj1 (proj2 (proj2 (proj2 (proj2 (proj2
    find_best_ranks_metric_tuples))))) (w_fs scenario_A) "parser" "model1").
  vm_compute; reflexivity.
Defined.

Lemma find_best_unreadable_directory_witness :
  ∃ best,
    w_fs (_collate_best_model ["parser"] scenario_A).2 !! "model-best"
    = Some (IsDir best) ∧
    d_accuracy best = None ∧
    ∃ p, _find_best (w_fs (_collate_best_model ["parser"] scenario_A).2)
           "parser" = Raise (FileNotFoundError p).
Proof.
  destruct (proj2 find_best_unreadable_directory ["parser"] scenario_A
              (_collate_best_model ["parser"] scenario_A).2)
    as (best & Hbest & Hacc & _ & Hfind & _).
  - vm_compute; reflexivity.
  - vm_compute; reflexivity.
  - exists best. split; [exact Hbest|]. split; [exact Hacc|]. apply Hfind.
Defined.

(** ** The winner does not depend on how the directory is listed *)

Lemma readable_perm entries entries' :
  entries ≡ₚ entries' → readable entries → readable entries'.
Proof.
  intros Hp Hr name d Hin. apply Hr. by rewrite Hp.
Qed.

Lemma candidates_perm entries entries' component :
  entries ≡ₚ entries' →
  candidates entries component ≡ₚ candidates entries' component.
Proof. intros Hp. unfold candidates. by apply Permutation_flat_map. Qed.

(** Two maximal items of the same items have the same path. *)
Lemma maximal_unique (l : list (list Q * string)) m m' :
  m ∈ l → m' ∈ l →
  (∀ x, x ∈ l → tuple_gt x m = false) →
  (∀ x, x ∈ l → tuple_gt x m' = false) →
  m.2 = m'.2.
Proof.
  intros Hm Hm' Hmax Hmax'.
  pose proof (Hmax m' Hm') as H1. pose proof (Hmax' m Hm) as H2.
  apply tuple_gt_false in H1, H2.
  destruct (tuple_cmp m m') eqn:E.
  - by apply tuple_cmp_eq in E as [_ ?].
  - apply (cmp_gt_lt tuple_cmp) in E. done.
  - done.
Qed.

Lemma max_perm (l l' : list (list Q * string)) m :
  l ≡ₚ l' → Py.max l = Ok m → ∃ m', Py.max l' = Ok m' ∧ m'.2 = m.2.
Proof.
  intros Hp Hm. destruct l as [|x r]; [done|]. injection Hm as <-.
  destruct l' as [|x' r']; [by apply Permutation_nil_r in Hp|].
  exists (max_from x' r'). split; [done|].
  destruct (max_from_spec x r) as [Hin Hmax].
  destruct (max_from_spec x' r') as [Hin' Hmax'].
  apply (maximal_unique (x :: r)); [by rewrite Hp|done| |done].
  intros y Hy. apply Hmax'. by rewrite <-Hp.
Qed.

Lemma find_best_in_readable entries component :
  is_ok (find_best_in entries component) = true ↔ readable entries.
Proof.
  unfold find_best_in. split.
  - destruct (find_best_loop entries component []) as [l|e] eqn:E; [|done].
    by apply find_best_loop_inv in E as [? _].
  - intros Hr. rewrite (find_best_loop_ok _ _ _ Hr). simpl.
    by destruct (candidates entries component).
Qed.

Lemma find_best_in_perm entries entries' component :
  entries ≡ₚ entries' → readable entries →
  find_best_in entries' component = find_best_in entries component.
Proof.
  intros Hp Hr. unfold find_best_in.
  rewrite (find_best_loop_ok _ _ _ Hr),
    (find_best_loop_ok _ _ _ (readable_perm _ _ Hp Hr)). simpl.
  pose proof (candidates_perm _ _ component Hp) as Hc.
  destruct (candidates entries component) as [|x r] eqn:E.
  { by apply Permutation_nil in Hc as ->. }
  destruct (max_perm (x :: r) _ (max_from x r) Hc eq_refl) as (m' & Hm' & Hn).
  destruct (candidates entries' component) as [|x' r']; [done|].
  rewrite Hm'. simpl in *. by rewrite Hn.
Qed.

(** X2. The winner does not depend on the order in which the experiment
    directory is listed: [_find_best] is the tournament on the listing
    of the directory, and on two listings of the same entries the
    tournament raises on both or returns the same result on both. *)
Theorem find_best_listing_order entries entries' component :
  entries ≡ₚ entries' →
  (∀ f : fs, _find_best f component = find_best_in (iterdir f) component) ∧
  is_ok (find_best_in entries' component)
  = is_ok (find_best_in entries component) ∧
  (is_ok (find_best_in entries component) = true →
   find_best_in entries' component = find_best_in entries component).
Proof.
  intros Hp. split; [done|]. split.
  - destruct (is_ok (find_best_in entries component)) eqn:E.
    + apply find_best_in_readable. apply find_best_in_readable in E.
      by apply (readable_perm entries).
    + destruct (is_ok (find_best_in entries' component)) eqn:E'; [|done].
      apply find_best_in_readable in E'.
      apply (readable_perm _ entries) in E'; [|done].
      apply find_best_in_readable with (component := component) in E'.
      congruence.
  - intros Hok. apply find_best_in_perm; [done|].
    by apply find_best_in_readable in Hok.
Qed.

Lemma find_best_listing_order_witness :
  find_best_in (reverse (iterdir two_epochs)) "tagger" = Ok (Some "model0").
Proof.
  assert (iterdir two_epochs ≡ₚ reverse (iterdir two_epochs)) as Hp
    by (symmetry; apply reverse_Permutation).
  destruct (find_best_listing_order _ _ "tagger" Hp) as (_ & _ & H).
  rewrite H; vm_compute; reflexivity.
Defined.

(** X1. The winner depends on nothing but the accuracy records of the
    sub-directories other than [model-final]: on two experiment
    directories whose sub-directories all hold an accuracy record and
    that have the same epochs with the same records, [_find_best]
    returns the same result, whatever else the directories hold (files,
    saved components, meta descriptors, the final snapshot). *)
Theorem find_best_depends_on_records (f f' : fs) component :
  readable (iterdir f) → readable (iterdir f') →
  (∀ name a, epoch_record f name a ↔ epoch_record f' name a) →
  _find_best f' component = _find_best f component.
Proof.
  intros Hr Hr' Heq.
  destruct (candidates (iterdir f) component) as [|[s name] r] eqn:E.
  - assert (_find_best f component = Ok None) as ->
      by by apply find_best_None.
    apply find_best_None. split; [done|].
    destruct (candidates (iterdir f') component) as [|[s' name'] r'] eqn:E';
      [done|].
    assert ((s', name') ∈ candidates (iterdir f') component) as Hin
      by (rewrite E'; left).
    apply elem_of_candidates_fs in Hin as (a & Ha & _).
    apply Heq in Ha.
    assert ((scores_of a component, name') ∈ candidates (iterdir f) component)
      as Hin by (apply elem_of_candidates_fs; eauto).
    rewrite E in Hin. by apply elem_of_nil in Hin.
  - assert ((s, name) ∈ candidates (iterdir f) component) as Hin
      by (rewrite E; left).
    apply elem_of_candidates_fs in Hin as (a & Ha & _).
    destruct (find_best_total f component name a Hr Ha) as [w Hw].
    apply Heq in Ha as Ha'.
    destruct (find_best_total f' component name a Hr' Ha') as [w' Hw'].
    rewrite Hw, Hw'. do 2 f_equal.
    apply find_best_spec in Hw as (b & Hb & Hmax).
    apply find_best_spec in Hw' as (b' & Hb' & Hmax').
    pose proof (Hmax w' b' (proj2 (Heq _ _) Hb')) as H1.
    pose proof (Hmax' w b (proj1 (Heq _ _) Hb)) as H2.
    apply tuple_gt_false in H1, H2.
    destruct (tuple_cmp (scores_of b' component, w') (scores_of b component, w))
      eqn:Ec.
    + by apply tuple_cmp_eq in Ec as [_ ?].
    + apply (cmp_gt_lt tuple_cmp) in Ec. done.
    + done.
Qed.

Lemma epoch_record_insert_file (f : fs) file name a :
  f !! file = None →
  epoch_record f name a ↔ epoch_record (<[file := IsFile]> f) name a.
Proof.
  intros Hf. unfold epoch_record. split; intros [Hn (d & Hd & Ha)];
    (split; [done|]); exists d; (split; [|done]).
  - rewrite lookup_insert_ne; [done|]. intros <-. congruence.
  - destruct (decide (file = name)) as [<-|Hne].
    + by rewrite lookup_insert_eq in Hd.
    + by rewrite lookup_insert_ne in Hd.
Qed.

Lemma find_best_depends_on_records_witness :
  _find_best (<["train.log" := IsFile]> two_epochs) "tagger"
  = Ok (Some "model0").
Proof.
  rewrite (find_best_depends_on_records two_epochs).
  - vm_compute; reflexivity.
  - apply readableb_spec. vm_compute; reflexivity.
  - apply readableb_spec. vm_compute; reflexivity.
  - intros name a. apply epoch_record_insert_file. vm_compute; reflexivity.
Defined.

(** ** What the composer changes *)

#[global] Instance changes_preorder paths : PreOrder (changes paths).
Proof.
  split; [by intros w|].
  intros w1 w2 w3 [H1 G1] [H2 G2]. split.
  - intros name Hn. by rewrite H2, H1.
  - auto.
Qed.

Lemma preserves_mono {A} (R R' : relation world) (m : M A) :
  (∀ w w', R w w' → R' w w') → preserves R m → preserves R' m.
Proof. intros H Hm w. apply H, Hm. Qed.

Lemma changes_fs_eq paths w w' : w_fs w' = w_fs w → changes paths w w'.
Proof. intros H. split; intros name; by rewrite H. Qed.

Lemma changes_insert paths path x w :
  paths path → changes paths w (set_fs (<[path := x]> (w_fs w)) w).
Proof.
  intros Hp. split; intros name Hn; simpl.
  - apply lookup_insert_ne. by intros ->.
  - destruct (decide (path = name)) as [->|Hne].
    + rewrite lookup_insert_eq. eauto.
    + by rewrite lookup_insert_ne.
Qed.

Lemma changes_mono (paths paths' : string → Prop) w w' :
  (∀ name, paths name → paths' name) → changes paths w w' → changes paths' w w'.
Proof. intros H [H1 H2]. split; [|done]. intros name Hn. apply H1. auto. Qed.

(** For a computation built from the operations of the monad: one step
    per operation, [leaf] for the updates of the world and [special] for
    the computations that have a lemma of their own. *)
Ltac preserves_with leaf special :=
  repeat first
    [ preserves_leaf
    | special
    | apply preserves_modify; intros ?; leaf
    | apply preserves_bind; [apply _ | | intros ?]
    | apply preserves_try_finally; [apply _ | |]
    | apply preserves_for_each; [apply _ | intros ? ?]
    | case_match
    | progress unfold call, set_env_log, timer, wps, add_pipe, log,
        with_scope, check_paths, setup_pipeline, add_multitask_objectives,
        multitask_objectives, train_batch, train_epoch, update_meta,
        benchmark, find_best, load_accuracy, set_accuracy ].

Ltac preserves_same :=
  preserves_with ltac:(unfold same; simpl; reflexivity) fail.

Section changes.

Context (paths : string → Prop).

#[local] Abbreviation R := (changes paths).

Lemma changes_copytree src dst : paths dst → preserves R (copytree src dst).
Proof.
  intros Hp w. unfold copytree. run_monad.
  destruct (lookup_dir (w_fs w) src); simpl; [|done].
  destruct (exists_path (w_fs w) dst); simpl; [done|]. by apply changes_insert.
Qed.

Lemma changes_rmtree_in parent c : paths parent → preserves R (rmtree_in parent c).
Proof.
  intros Hp w. unfold rmtree_in. run_monad.
  destruct (lookup_dir (w_fs w) parent) as [d|]; simpl; [|done].
  destruct (d_pipes d !! c); simpl; [|done]. by apply changes_insert.
Qed.

Lemma changes_copytree_in src dst c :
  paths dst → preserves R (copytree_in src dst c).
Proof.
  intros Hp w. unfold copytree_in. run_monad.
  repeat case_match; simpl; try done. by apply changes_insert.
Qed.

Lemma changes_write_meta path : paths path → preserves R (write_meta path).
Proof.
  intros Hp w. unfold write_meta. run_monad.
  destruct (lookup_dir (w_fs w) path); simpl; [|done]. by apply changes_insert.
Qed.

Lemma changes_write_accuracy path scores :
  paths path → preserves R (write_accuracy path scores).
Proof.
  intros Hp w. unfold write_accuracy. run_monad.
  destruct (lookup_dir (w_fs w) path); simpl; [|done]. by apply changes_insert.
Qed.

Lemma changes_to_disk E path : paths path → preserves R (to_disk E path).
Proof.
  intros Hp w. unfold to_disk, call. run_monad.
  destruct (fault E (OpToDisk path)); simpl; [by apply changes_fs_eq|].
  destruct (w_fs w !! path) as [[|d]|] eqn:E1; simpl;
    [by apply changes_fs_eq|..];
    (etrans; [|exact (changes_insert paths path _
       (set_trace (w_trace w ++ [Call (OpToDisk path)]) w) Hp)]);
    by apply changes_fs_eq.
Qed.

Lemma changes_collect_bests components bests :
  preserves R (collect_bests components bests).
Proof.
  revert bests. induction components as [|c components IH]; intros bests;
    simpl; preserves_with ltac:(apply changes_fs_eq; reflexivity) ltac:(apply IH).
Qed.

End changes.

Ltac preserves_changes side :=
  preserves_with ltac:(apply changes_fs_eq; reflexivity)
    ltac:(first
      [ apply changes_to_disk; solve [side]
      | apply changes_write_accuracy; solve [side]
      | apply changes_write_meta; solve [side]
      | apply changes_copytree; solve [side]
      | apply changes_copytree_in; solve [side]
      | apply changes_rmtree_in; solve [side]
      | apply changes_collect_bests ]).

Lemma changes_collate_best_model components :
  preserves (changes (fun name => name = "model-best"))
    (_collate_best_model components).
Proof.
  unfold _collate_best_model, collate_component.
  preserves_changes ltac:(reflexivity).
Qed.

(** X6. The composer changes nothing in the output directory but
    [model-best]: whether it returns or raises, every other entry, the
    epoch directories and the final snapshot among them, is as it was,
    and no entry has disappeared. *)
Theorem collate_best_model_frame components w :
  (∀ name, name ≠ "model-best" →
     w_fs (_collate_best_model components w).2 !! name = w_fs w !! name) ∧
  (∀ name, is_Some (w_fs w !! name) →
     is_Some (w_fs (_collate_best_model components w).2 !! name)).
Proof.
  destruct (changes_collate_best_model components w) as [H1 H2].
  split; [|done]. intros name Hn. by apply H1.
Qed.

(** *** The composer in front of an existing composite *)

Lemma collect_bests_world components bests w :
  (collect_bests components bests w).2 = w.
Proof.
  revert bests w. induction components as [|c components IH];
    intros bests w; simpl; [done|].
  unfold find_best. run_monad.
  destruct (_find_best (w_fs w) c); simpl; [apply IH|done].
Qed.

Lemma collect_bests_ok components bests w :
  (∀ c, c ∈ components → is_ok (_find_best (w_fs w) c) = true) →
  is_ok (collect_bests components bests w).1 = true.
Proof.
  revert bests. induction components as [|c components IH];
    intros bests Hok; simpl; [done|].
  unfold find_best. run_monad.
  pose proof (Hok c (list_elem_of_here _ _)) as Hc.
  destruct (_find_best (w_fs w) c); simpl; [|done].
  apply IH. intros c' Hc'. apply Hok. by right.
Qed.

(** The composer in front of an entry named [model-best]. *)
Lemma collate_best_model_existing_run components w :
  is_Some (w_fs w !! "model-best") →
  ∃ e,
    _collate_best_model components w
    = (Raise e, set_trace (w_trace w ++ [Collate]) w) ∧
    ((∀ c, c ∈ components → is_ok (_find_best (w_fs w) c) = true) →
     is_Some (lookup_dir (w_fs w) "model-final") →
     e = FileExistsError "model-best").
Proof.
  intros [x Hx]. unfold _collate_best_model.
  rewrite run_bind. unfold log at 1, modify at 1. simpl.
  set (w1 := set_trace _ w). rewrite run_bind.
  pose proof (collect_bests_world components [] w1) as Hw.
  pose proof (collect_bests_ok components [] w1) as Hok.
  destruct (collect_bests components [] w1) as [[bests|e] w2]; simpl in *;
    subst w2.
  2:{ exists e. split; [done|]. intros H _. by apply Hok in H. }
  rewrite run_bind. unfold copytree at 1. rewrite run_bind. simpl.
  destruct (lookup_dir (w_fs w) "model-final") as [final|] eqn:Hf; simpl.
  - unfold exists_path. rewrite Hx. simpl. eexists. split; [done|done].
  - eexists. split; [done|]. by intros _ [? ?].
Qed.

(** X3. The composer never replaces an existing [model-best]: when the
    output directory holds an entry of that name, whatever it is, the
    composer raises and leaves the directory and the meta descriptor as
    they were. When the tournaments return and the final snapshot is
    there, the exception is the [FileExistsError] of [shutil.copytree]. *)
Theorem collate_best_model_existing components w :
  is_Some (w_fs w !! "model-best") →
  ∃ e,
    _collate_best_model components w
    = (Raise e, set_trace (w_trace w ++ [Collate]) w) ∧
    ((∀ c, c ∈ components → is_ok (_find_best (w_fs w) c) = true) →
     is_Some (lookup_dir (w_fs w) "model-final") →
     e = FileExistsError "model-best").
Proof. apply collate_best_model_existing_run. Qed.

Lemma collate_best_model_existing_witness :
  _collate_best_model ["tagger"] second_run
  = (Raise (FileExistsError "model-best"),
     set_trace [Collate] second_run).
Proof.
  destruct (collate_best_model_existing ["tagger"] second_run)
    as (e & Hrun & He).
  { exists (IsDir (saved ["tagger"] 1 (Some {[ "tags_acc" := 0.9%Q ]}))).
    vm_compute; reflexivity. }
  rewrite Hrun. f_equal. f_equal. apply He.
  - intros c ->%list_elem_of_singleton. vm_compute; reflexivity.
  - exists (saved ["tagger"] 2 None). vm_compute; reflexivity.
Defined.

(** *** An accuracy record that lacks a metric *)




(** *** The components of the composite *)

Lemma for_each_Ok_inv {A} (I : world → Prop) l (body : A → M unit) w w' :
  for_each l body w = (Ok tt, w') → I w →
  (∀ x w1 w2, x ∈ l → I w1 → body x w1 = (Ok tt, w2) → I w2) → I w'.
Proof.
  revert w. induction l as [|x l IH]; intros w Hrun Hi Hstep.
  { rewrite for_each_nil in Hrun. by simplify_eq. }
  rewrite for_each_cons in Hrun.
  destruct (body x w) as [[[]|e] w1] eqn:Hx; [|done].
  apply (IH w1); [done| |].
  - apply (Hstep x w w1); [by left|done..].
  - intros y w2 w3 Hy. apply Hstep. by right.
Qed.

Lemma dict_set_keys_incl {V} (d : list (string * V)) k v k' :
  k' ∈ (dict_set d k v).*1 → k' = k ∨ k' ∈ d.*1.
Proof.
  induction d as [|[k0 v0] d IH]; simpl.
  { intros ->%list_elem_of_singleton. by left. }
  destruct (String.eqb k k0); simpl; rewrite !elem_of_cons; [tauto|].
  intros [->|H]; [auto|]. destruct (IH H); auto.
Qed.

Lemma collect_bests_keys components bests0 w bests w' c :
  collect_bests components bests0 w = (Ok bests, w') →
  c ∈ bests.*1 → c ∈ bests0.*1 ∨ c ∈ components.
Proof.
  revert bests0. induction components as [|c0 components IH];
    intros bests0; simpl.
  { intros [= <- <-]. auto. }
  unfold find_best. run_monad.
  destruct (_find_best (w_fs w) c0) as [b|e]; simpl; [|done].
  intros Hrun Hc. destruct (IH _ Hrun Hc) as [Hk|Hk]; [|right; by right].
  apply dict_set_keys_incl in Hk as [->|Hk]; [right; by left|by left].
Qed.

Lemma same_fs_merge_loop (a : accs) metrics :
  preserves (same w_fs) (for_each metrics (fun metric =>
    match a !! metric with
    | None => raise (KeyError metric)
    | Some v => set_accuracy metric v
    end)).
Proof. preserves_same. Qed.

(** A component of [model-best] that has been collated: its
    sub-directory has been removed and copied again. *)
Lemma collate_component_inv c src w w' best :
  collate_component c src w = (Ok tt, w') →
  lookup_dir (w_fs w) "model-best" = Some best →
  is_Some (d_pipes best !! c) ∧
  ∃ b, lookup_dir (w_fs w') "model-best"
       = Some (Dir (<[c := b]> (d_pipes best)) (d_accuracy best) (d_meta best)).
Proof.
  intros Hrun Hbest. unfold collate_component in Hrun.
  apply bind_Ok_inv in Hrun as ([] & w1 & H1 & Hrun).
  unfold rmtree_in in H1. rewrite run_bind in H1. simpl in H1.
  rewrite Hbest in H1. simpl in H1.
  destruct (d_pipes best !! c) as [b0|] eqn:Hc; [|done].
  injection H1 as <-. split; [done|].
  apply bind_Ok_inv in Hrun as (s & w2 & H2 & Hrun).
  destruct src as [src|]; [|done]. injection H2 as <- <-.
  apply bind_Ok_inv in Hrun as ([] & w3 & H3 & Hrun).
  unfold copytree_in in H3. rewrite run_bind in H3. simpl in H3.
  destruct (lookup_dir _ src ≫= _) as [b|]; [|done].
  rewrite lookup_dir_insert_eq in H3. simpl in H3.
  rewrite lookup_delete_eq in H3. injection H3 as <-.
  apply bind_Ok_inv in Hrun as (a & w4 & H4 & Hrun).
  unfold load_accuracy in H4. rewrite run_bind in H4. simpl in H4.
  destruct (lookup_dir _ src ≫= d_accuracy); [|done].
  injection H4 as -> <-.
  pose proof (same_fs_merge_loop a (_get_metrics c)) as Hfs.
  match type of Hrun with for_each _ _ ?w0 = _ => specialize (Hfs w0) end.
  rewrite Hrun in Hfs. unfold same in Hfs. simpl in Hfs.
  exists b. rewrite Hfs, lookup_dir_insert_eq. by rewrite insert_delete_eq.
Qed.

(** The composite that the composer leaves. *)
Lemma collate_best_model_Ok_inv components w w' final :
  _collate_best_model components w = (Ok tt, w') →
  lookup_dir (w_fs w) "model-final" = Some final →
  ∃ best, lookup_dir (w_fs w') "model-best" = Some best ∧
    dom (d_pipes best) = dom (d_pipes final) ∧
    (∀ c, c ∉ components → d_pipes best !! c = d_pipes final !! c) ∧
    d_accuracy best = d_accuracy final ∧
    d_meta best = Some (w_meta w').
Proof.
  intros Hrun Hfinal. unfold _collate_best_model in Hrun.
  apply bind_Ok_inv in Hrun as ([] & w1 & H1 & Hrun).
  injection H1 as <-.
  apply bind_Ok_inv in Hrun as (bests & w2 & H2 & Hrun).
  pose proof (collect_bests_world components [] (set_trace (w_trace w ++ [Collate]) w))
    as Hw. rewrite H2 in Hw. simpl in Hw. subst w2.
  apply bind_Ok_inv in Hrun as ([] & w3 & H3 & Hrun).
  unfold copytree in H3. rewrite run_bind in H3. simpl in H3.
  rewrite Hfinal in H3. simpl in H3.
  destruct (exists_path (w_fs w) "model-best"); [done|]. injection H3 as <-.
  apply bind_Ok_inv in Hrun as ([] & w4 & H4 & Hrun).
  set (I := fun w : world =>
    ∃ best, lookup_dir (w_fs w) "model-best" = Some best ∧
      dom (d_pipes best) = dom (d_pipes final) ∧
      (∀ c, c ∉ components → d_pipes best !! c = d_pipes final !! c) ∧
      d_accuracy best = d_accuracy final ∧ d_meta best = d_meta final).
  assert (I w4) as (best & Hbest & Hdom & Hout & Hacc & Hmeta).
  { apply (for_each_Ok_inv I _ _ _ _ H4).
    - exists final. simpl. by rewrite lookup_dir_insert_eq.
    - intros [c src] wa wb Hin (best & Hbest & Hdom & Hout & Hacc & Hmeta) Hc.
      simpl in Hc.
      destruct (collate_component_inv _ _ _ _ _ Hc Hbest) as [[b0 Hb0] [b Hb]].
      eexists. split; [exact Hb|]. simpl. split_and!; [|..|done|done].
      + rewrite dom_insert_L, <-Hdom.
        apply elem_of_dom_2 in Hb0. set_solver.
      + intros c' Hc'. rewrite lookup_insert_ne; [by apply Hout|].
        intros <-. apply Hc'.
        assert (c ∈ bests.*1) as Hk
          by (apply list_elem_of_fmap; by exists (c, src)).
        by destruct (collect_bests_keys _ _ _ _ _ _ H2 Hk)
          as [[]%elem_of_nil|?]. }
  unfold write_meta in Hrun. rewrite !run_bind in Hrun. simpl in Hrun.
  rewrite Hbest in Hrun. injection Hrun as <-. simpl.
  eexists. rewrite lookup_dir_insert_eq. by split_and!.
Qed.

(** X7. When the composer returns, [model-best] holds the components
    that [model-final] holds, no more and no fewer; those that are not
    among the components passed to the composer are in the state of the
    final snapshot; its accuracy record is the one of [model-final], and
    its meta descriptor is the one the run ends with. *)
Theorem collate_best_model_components components w w' final :
  _collate_best_model components w = (Ok tt, w') →
  lookup_dir (w_fs w) "model-final" = Some final →
  ∃ best, lookup_dir (w_fs w') "model-best" = Some best ∧
    dom (d_pipes best) = dom (d_pipes final) ∧
    (∀ c, c ∉ components → d_pipes best !! c = d_pipes final !! c) ∧
    d_accuracy best = d_accuracy final ∧
    d_meta best = Some (w_meta w').
Proof. apply collate_best_model_Ok_inv. Qed.

Lemma collate_best_model_components_witness :
  ∃ best,
    lookup_dir (w_fs (_collate_best_model ["parser"] scenario_A).2) "model-best"
    = Some best ∧
    dom (d_pipes best) = {[ "parser" ]}.
Proof.
  destruct (collate_best_model_components ["parser"] scenario_A
              (_collate_best_model ["parser"] scenario_A).2
              (saved ["parser"] 3 None))
    as (best & Hbest & Hdom & _).
  - vm_compute; reflexivity.
  - vm_compute; reflexivity.
  - exists best. split; [done|]. rewrite Hdom. simpl.
    by rewrite dom_insert_L, dom_empty_L, union_empty_r_L.
Defined.

(** ** What the command changes in the output directory *)

Lemma train_run E a w :
  train E a w
  = match training E a w with
    | (Ok _, w2) => _collate_best_model (w_pipe_names w2) w2
    | (Raise e, w2) => (Raise e, w2)
    end.
Proof.
  unfold train, training. rewrite !run_bind.
  destruct (prepare E a w) as [[[]|e] w1]; [|done].
  rewrite run_bind.
  by destruct (try_finally (epoch_loop E a) (save_final E) w1) as [[[]|e] w2].
Qed.

Lemma epoch_path_inj i j : epoch_path i = epoch_path j → i = j.
Proof.
  unfold epoch_path. intros H. simplify_eq. by apply (inj pretty).
Qed.

Lemma changes_training E a (P : string → Prop) :
  (∀ i, (i < Z.to_nat (n_iter a))%nat → P (epoch_path i)) →
  P "model-final" →
  preserves (changes P) (training E a).
Proof.
  intros Hep Hfin.
  unfold training, prepare, configure, epoch_loop, epoch, checkpoint,
    checkpoint_steps, save_final.
  preserves_changes ltac:(first
    [ exact Hfin
    | apply Hep;
      match goal with H : _ ∈ seq _ _ |- _ => apply elem_of_seq in H; lia end ]).
Qed.

Lemma changes_epoch E a i :
  preserves (changes (fun name => name = epoch_path i)) (epoch E a i).
Proof.
  unfold epoch, checkpoint, checkpoint_steps.
  preserves_changes ltac:(reflexivity).
Qed.

Lemma changes_train E a : preserves (changes (train_paths a)) (train E a).
Proof.
  intros w. rewrite train_run.
  pose proof (changes_training E a (train_paths a)) as H.
  specialize (H (fun i Hi => or_introl (ex_intro _ i (conj Hi eq_refl)))
                (or_intror (or_introl eq_refl)) w).
  destruct (training E a w) as [[[]|e] w2]; simpl in *; [|done].
  etrans; [exact H|].
  eapply changes_mono; [|apply changes_collate_best_model].
  intros name ->. right. by right.
Qed.

(** X14. Whatever [train] does and however it ends, it changes nothing
    in the output directory but the directories of its epochs
    ([model0] to [model<n_iter-1>]), the final snapshot and the
    composite, and no entry of the output directory disappears. *)
Theorem train_changes_its_directories E a w :
  (∀ name, ¬ train_paths a name →
     w_fs (train E a w).2 !! name = w_fs w !! name) ∧
  (∀ name, is_Some (w_fs w !! name) →
     is_Some (w_fs (train E a w).2 !! name)).
Proof. apply changes_train. Qed.

(** X18. An epoch changes no entry of the output directory but its own
    directory: the directories of the other epochs, the final snapshot
    and the composite are as they were, whether the epoch returns or
    raises. *)
Theorem epoch_changes_its_directory E a i w :
  (∀ name, name ≠ epoch_path i →
     w_fs (epoch E a i w).2 !! name = w_fs w !! name) ∧
  (∀ j, j ≠ i →
     w_fs (epoch E a i w).2 !! epoch_path j = w_fs w !! epoch_path j) ∧
  w_fs (epoch E a i w).2 !! "model-final" = w_fs w !! "model-final" ∧
  w_fs (epoch E a i w).2 !! "model-best" = w_fs w !! "model-best".
Proof.
  destruct (changes_epoch E a i w) as [H _].
  split_and!; [done|..].
  - intros j Hj. apply H. intros Heq. by apply epoch_path_inj in Heq.
  - apply H. apply no_epoch_path_final.
  - apply H. apply no_epoch_path_best.
Qed.

(** X4. A run of [train] on an output directory that holds an entry
    named [model-best] ends with an exception, at the latest when the
    composer is reached after the training, and the entry is as it
    was. *)
Theorem train_existing_model_best E a w :
  is_Some (w_fs w !! "model-best") →
  (∃ e, (train E a w).1 = Raise e) ∧
  w_fs (train E a w).2 !! "model-best" = w_fs w !! "model-best".
Proof.
  intros Hbest. rewrite train_run.
  pose proof (changes_training E a (fun name => name ≠ "model-best")) as H.
  destruct (H (fun i _ => not_eq_sym (no_epoch_path_best i))
              ltac:(done) w) as [Hfs _].
  specialize (Hfs "model-best" ltac:(by intros ?)).
  destruct (training E a w) as [[[]|e] w2]; simpl in *; [|eauto].
  rewrite <-Hfs in Hbest.
  destruct (collate_best_model_existing_run (w_pipe_names w2) w2 Hbest)
    as (e & -> & _).
  simpl. eauto.
Qed.

Lemma train_existing_model_best_witness :
  ∃ e, (train (collaborators never) (command "tagger" 1 (-1) "" false)
          second_run).1 = Raise e.
Proof.
  apply (train_existing_model_best (collaborators never)
           (command "tagger" 1 (-1) "" false) second_run).
  exists (IsDir (saved ["tagger"] 1 (Some {[ "tags_acc" := 0.9%Q ]}))).
  vm_compute; reflexivity.
Defined.

(** ** Lines 64-73: the paths *)

(** X8. When the training data, the development data or the meta file
    is missing, or the meta file does not hold a JSON object, [train]
    exits with status 1 and has done nothing but set the verbosity: no
    collaborator has been called and nothing has been written. *)
Theorem train_bad_paths E a w :
  bad_paths a →
  train E a w
  = (Raise (SystemExit 1),
     set_trace (w_trace w ++ [EnvLog (verbose a)]) (set_log (verbose a) w)).
Proof.
  intros Hbad. unfold train, prepare, configure, check_paths, set_env_log.
  run_monad.
  destruct (train_path_exists a) eqn:H1; [|done].
  destruct (dev_path_exists a) eqn:H2; [|done].
  destruct (meta_path a) eqn:H3; try done;
    destruct Hbad as [?|[?|[?|?]]]; congruence.
Qed.

Lemma train_bad_paths_witness :
  (train (collaborators never) without_dev_data (initial ∅)).1
  = Raise (SystemExit 1).
Proof.
  rewrite (train_bad_paths (collaborators never) without_dev_data (initial ∅));
    [reflexivity|].
  right. left. reflexivity.
Defined.

(** ** Lines 80-98: the pipeline *)

Lemma contains_spec l x : contains l x = true ↔ x ∈ l.
Proof.
  unfold contains. rewrite existsb_exists. split.
  - intros (y & Hy & ->%String.eqb_eq). by apply list_elem_of_In.
  - intros H. exists x. split; [by apply list_elem_of_In|apply String.eqb_refl].
Qed.

(** A loop that returned, under an invariant indexed by the items done. *)
Lemma for_each_Ok_inv_prefix {A} (I : list A → world → Prop) l
  (body : A → M unit) w w' :
  for_each l body w = (Ok tt, w') → I [] w →
  (∀ done x w1 w2, I done w1 → body x w1 = (Ok tt, w2) → I (done ++ [x]) w2) →
  I l w'.
Proof.
  intros Hrun H0 Hstep.
  cut (∀ todo done w, for_each todo body w = (Ok tt, w') → I done w →
         I (done ++ todo) w').
  { intros Hcut. by apply (Hcut l [] w). }
  clear w Hrun H0. induction todo as [|x todo IH]; intros done w Hrun Hi.
  { rewrite for_each_nil in Hrun. rewrite app_nil_r. by simplify_eq. }
  rewrite for_each_cons in Hrun.
  destruct (body x w) as [[[]|e] w1] eqn:Hx; [|done].
  replace (done ++ x :: todo) with ((done ++ [x]) ++ todo)
    by by rewrite <-app_assoc.
  apply (IH _ w1); [done|]. by apply (Hstep done x w w1).
Qed.

(** What a computation that returned has preserved. *)
Lemma preserves_run {A} (R : relation world) (m : M A) w r w' :
  preserves R m → m w = (r, w') → R w w'.
Proof. intros H Hrun. specialize (H w). by rewrite Hrun in H. Qed.

Lemma add_pipe_Ok_inv E name w w' :
  add_pipe E name w = (Ok tt, w') →
  w_pipe_names w' = w_pipe_names w ++ [name] ∧ w_lang w' = w_lang w.
Proof.
  unfold add_pipe, call. run_monad.
  destruct (fault E (OpCreatePipe name)); simpl; [done|]. by intros [= <-].
Qed.

Lemma same_names_call E o : preserves (same w_pipe_names) (call E o).
Proof. preserves_same. Qed.

Lemma same_lang_call E o : preserves (same w_lang) (call E o).
Proof. preserves_same. Qed.

Lemma same_names_multitask_objectives E a pipes :
  preserves (same w_pipe_names) (multitask_objectives E a pipes).
Proof. preserves_same. Qed.

Lemma same_lang_multitask_objectives E a pipes :
  preserves (same w_lang) (multitask_objectives E a pipes).
Proof. preserves_same. Qed.

Lemma same_names_check_paths a : preserves (same w_pipe_names) (check_paths a).
Proof. preserves_same. Qed.

(** [configure] that returned: the world in which the pipeline was set
    up had the pipes and kept them until the end. *)
Lemma configure_Ok_inv E a w w' :
  configure E a w = (Ok tt, w') →
  ∃ w1 w2,
    w_pipe_names w1 = w_pipe_names w ∧
    setup_pipeline E a (pipeline_list a) w1 = (Ok tt, w2) ∧
    w_pipe_names w' = w_pipe_names w2 ∧ w_lang w' = w_lang w2.
Proof.
  unfold configure. intros H.
  apply bind_Ok_inv in H as ([] & wa & Ha & H).
  rewrite set_env_log_run in Ha. injection Ha as <-.
  apply bind_Ok_inv in H as ([] & wb & Hb & H).
  apply (preserves_run _ _ _ _ _ (same_names_check_paths a)) in Hb.
  apply bind_Ok_inv in H as ([] & wc & Hc & H).
  exists wb, wc. split_and!; [done|done|..].
  - by apply (preserves_run _ _ _ _ _ (same_names_multitask_objectives E a _)) in H.
  - by apply (preserves_run _ _ _ _ _ (same_lang_multitask_objectives E a _)) in H.
Qed.

(** The end of [setup_pipeline]: lines 97-101. *)
Lemma setup_tail_Ok_inv E a w w' :
  ((if learn_tokens a then add_pipe E "merge_subtokens" else ret tt);;
   match vectors a with
   | Some v => if truthy v then call E (OpLoadVectors v) else ret tt
   | None => ret tt
   end) w = (Ok tt, w') →
  w_pipe_names w' = w_pipe_names w ++ token_merger a ∧ w_lang w' = w_lang w.
Proof.
  intros H. apply bind_Ok_inv in H as ([] & w1 & H1 & H).
  assert (w_pipe_names w1 = w_pipe_names w ++ token_merger a
          ∧ w_lang w1 = w_lang w) as [Hn Hl].
  { unfold token_merger. destruct (learn_tokens a).
    - by apply add_pipe_Ok_inv in H1.
    - injection H1 as <-. by rewrite app_nil_r. }
  rewrite <-Hn, <-Hl.
  assert (w_pipe_names w' = w_pipe_names w1 ∧ w_lang w' = w_lang w1)
    as [-> ->]; [|done].
  destruct (vectors a) as [v|]; [destruct (truthy v)|];
    [|injection H as <-; done..].
  split.
  - by apply (preserves_run _ _ _ _ _ (same_names_call E _)) in H.
  - by apply (preserves_run _ _ _ _ _ (same_lang_call E _)) in H.
Qed.

Lemma blank_model_Ok_inv E a pipes w w' :
  (call E (OpGetLangClass (lang a));;
   modify (set_lang (lang a));; for_each pipes (add_pipe E)) w = (Ok tt, w') →
  w_pipe_names w' = w_pipe_names w ++ pipes ∧ w_lang w' = lang a.
Proof.
  intros H. apply bind_Ok_inv in H as ([] & w1 & H1 & H).
  apply (preserves_run _ _ _ _ _ (same_names_call E _)) in H1.
  apply bind_Ok_inv in H as ([] & w2 & H2 & H). injection H2 as <-.
  rewrite <-H1.
  apply (for_each_Ok_inv_prefix
    (fun done w => w_pipe_names w = w_pipe_names w1 ++ done ∧ w_lang w = lang a)
    _ _ _ _ H).
  - simpl. by rewrite app_nil_r.
  - intros done x wa wb [Hn Hl] Hx. apply add_pipe_Ok_inv in Hx as [-> ->].
    by rewrite Hn, app_assoc.
Qed.

(** The pipeline of a blank model. *)
Lemma configure_blank_model_inv E a w w' :
  from_blank a → w_pipe_names w = [] →
  configure E a w = (Ok tt, w') →
  w_pipe_names w' = map strip (split ","%char (pipeline a)) ++ token_merger a ∧
  w_lang w' = lang a.
Proof.
  intros Hblank Hnil H.
  apply configure_Ok_inv in H as (w1 & w2 & H1 & H & -> & ->).
  unfold setup_pipeline in H.
  apply bind_Ok_inv in H as ([] & w3 & H3 & H).
  apply setup_tail_Ok_inv in H as [-> ->].
  assert (w_pipe_names w3 = w_pipe_names w1 ++ pipeline_list a
          ∧ w_lang w3 = lang a) as [-> ->].
  { destruct (base_model a) as [name|] eqn:Hb;
      [rewrite (Hblank name Hb) in H3|]; by apply blank_model_Ok_inv in H3. }
  by rewrite H1, Hnil.
Qed.

(** X9. When no base model is given and the configuration returns, the
    pipeline of the blank model is the list of the names between the
    commas of the [pipeline] option, stripped, in their order and with
    their repetitions, followed by [merge_subtokens] when the parser
    learns the tokenization; the language is the one of the command. *)
Theorem configure_blank_model E a w w' :
  from_blank a → w_pipe_names w = [] →
  configure E a w = (Ok tt, w') →
  w_pipe_names w' = map strip (split ","%char (pipeline a)) ++ token_merger a ∧
  w_lang w' = lang a.
Proof. apply configure_blank_model_inv. Qed.

Lemma configure_blank_model_witness :
  w_pipe_names (configure (collaborators never)
                  (command "tagger, parser,ner " 1 (-1) "" false)
                  (initial ∅)).2
  = ["tagger"; "parser"; "ner"].
Proof.
  destruct (configure_blank_model (collaborators never)
              (command "tagger, parser,ner " 1 (-1) "" false) (initial ∅)
              (configure (collaborators never)
                 (command "tagger, parser,ner " 1 (-1) "" false)
                 (initial ∅)).2) as [-> _].
  - by intros name.
  - reflexivity.
  - vm_compute; reflexivity.
  - vm_compute; reflexivity.
Defined.

(** X10. When a base model is given and the configuration returns, the
    pipeline holds the pipes of the base model that the [pipeline]
    option names, in the order of the base model, followed by the names
    of the option that the base model lacks, each once: the other pipes
    of the base model are disabled, and no pipe is added twice. *)
Theorem configure_base_model E a w w' name :
  base_model a = Some name → truthy name = true →
  configure E a w = (Ok tt, w') →
  ∃ added,
    w_pipe_names w'
    = filter (fun pipe => pipe ∈ pipeline_list a) (base_pipes E)
      ++ added ++ token_merger a ∧
    NoDup added ∧
    (∀ pipe, pipe ∈ added ↔ pipe ∈ pipeline_list a ∧ pipe ∉ base_pipes E) ∧
    w_lang w' = base_lang E.
Proof.
  intros Hbase Htruthy H.
  apply configure_Ok_inv in H as (w1 & w2 & _ & H & -> & ->).
  unfold setup_pipeline in H. rewrite Hbase, Htruthy in H.
  apply bind_Ok_inv in H as ([] & w3 & H3 & H).
  apply setup_tail_Ok_inv in H as [-> ->].
  apply bind_Ok_inv in H3 as ([] & wa & Ha & H3).
  apply bind_Ok_inv in H3 as ([] & wb & Hb & H3). injection Hb as <-.
  apply bind_Ok_inv in H3 as ([] & wc & Hc & H3). injection Hc as <-.
  set (kept := filter (fun pipe => pipe ∈ pipeline_list a) (base_pipes E)).
  set (I := fun (done : list string) (w : world) =>
    ∃ added, w_pipe_names w = kept ++ added ∧ NoDup added ∧
      (∀ pipe, pipe ∈ added ↔ pipe ∈ done ∧ pipe ∉ kept) ∧
      w_lang w = base_lang E).
  assert (I (pipeline_list a) w3) as (added & Hn & Hnd & Hin & Hl).
  { apply (for_each_Ok_inv_prefix I _ _ _ _ H3).
    - exists []. simpl. split_and!; [|constructor| |done].
      + rewrite app_nil_r. unfold kept. apply list_filter_iff.
        intros pipe. apply contains_spec.
      + intros pipe. rewrite elem_of_nil. tauto.
    - intros done x wd we (added & Hn & Hnd & Hin & Hl) Hx.
      apply bind_Ok_inv in Hx as (names & wf & Hf & Hx).
      injection Hf as <- <-.
      destruct (contains (w_pipe_names wd) x) eqn:Hc.
      + injection Hx as <-. apply contains_spec in Hc.
        exists added. split_and!; [done..| |done].
        intros pipe. rewrite Hin, elem_of_app, list_elem_of_singleton.
        split; [tauto|]. intros [[?| ->] Hk]; [done|].
        rewrite Hn, elem_of_app in Hc. destruct Hc as [?|Hc]; [done|].
        by apply Hin in Hc.
      + apply add_pipe_Ok_inv in Hx as [Hx Hl'].
        assert (x ∉ w_pipe_names wd) as Hnot.
        { intros Hc'%contains_spec. congruence. }
        rewrite Hn, not_elem_of_app in Hnot. destruct Hnot as [Hk Ha'].
        exists (added ++ [x]). split_and!; [| | |by rewrite Hl'].
        * by rewrite Hx, Hn, app_assoc.
        * apply NoDup_app. split_and!; [done| |apply NoDup_singleton].
          intros y Hy ->%list_elem_of_singleton. done.
        * intros pipe. rewrite !elem_of_app, Hin, list_elem_of_singleton.
          split; [intros [[??]| ->]; auto|]. intros [[?| ->] ?]; auto. }
  exists added. split_and!; [by rewrite Hn, app_assoc|done| |done].
  intros pipe. rewrite Hin. unfold kept. rewrite list_elem_of_filter.
  split; intros [H1 H2]; (split; [done|]); tauto.
Qed.

Lemma configure_base_model_witness :
  w_pipe_names (configure with_base_model (on_base "ner,textcat,tagger")
                  (initial ∅)).2
  = ["tagger"; "ner"; "textcat"].
Proof.
  destruct (configure_base_model with_base_model
              (on_base "ner,textcat,tagger") (initial ∅)
              (configure with_base_model (on_base "ner,textcat,tagger")
                 (initial ∅)).2 "en_base") as (added & _ & _ & _ & _).
  - reflexivity.
  - reflexivity.
  - vm_compute; reflexivity.
  - vm_compute; reflexivity.
Defined.

(** ** Lines 142-185: what a checkpoint records *)

Lemma call_Ok_inv E o w w' : call E o w = (Ok tt, w') → w' = called o w.
Proof.
  unfold call. run_monad. destruct (fault E o); simpl; [done|].
  by intros [= <-].
Qed.

Lemma to_disk_Ok_inv E path w w' :
  to_disk E path w = (Ok tt, w') →
  w' = set_fs (<[path := IsDir (to_disk_dir w path)]> (w_fs w))
         (called (OpToDisk path) w).
Proof.
  unfold to_disk, call, to_disk_dir. run_monad.
  destruct (fault E (OpToDisk path)); simpl; [done|].
  destruct (w_fs w !! path) as [[|d]|]; simpl; [done|..]; by intros [= <-].
Qed.

Lemma write_accuracy_Ok_inv path scores w w' :
  write_accuracy path scores w = (Ok tt, w') →
  ∃ d, w_fs w !! path = Some (IsDir d) ∧
    w' = set_fs (<[path := IsDir (Dir (d_pipes d) (Some scores) (d_meta d))]>
                   (w_fs w)) w.
Proof.
  unfold write_accuracy. run_monad.
  destruct (lookup_dir (w_fs w) path) as [d|] eqn:Hd; simpl; [|done].
  intros [= <-]. exists d. by apply lookup_dir_Some in Hd.
Qed.

Lemma write_meta_Ok_inv path w w' :
  write_meta path w = (Ok tt, w') →
  ∃ d, w_fs w !! path = Some (IsDir d) ∧
    w' = set_fs (<[path := IsDir (Dir (d_pipes d) (d_accuracy d)
                                      (Some (w_meta w)))]> (w_fs w)) w.
Proof.
  unfold write_meta. run_monad.
  destruct (lookup_dir (w_fs w) path) as [d|] eqn:Hd; simpl; [|done].
  intros [= <-]. exists d. by apply lookup_dir_Some in Hd.
Qed.

Lemma same_state_benchmark E a i path n :
  preserves (same (fun w => (w_fs w, pipeline_state w)))
    (benchmark E a i path n).
Proof. preserves_same. Qed.

Lemma checkpoint_steps_Ok_inv E a i w w' :
  checkpoint_steps E a i w = (Ok tt, w') →
  ∃ d scores s,
    w_fs w' !! epoch_path i = Some (IsDir d) ∧
    d_accuracy d = Some scores ∧ d_meta d = Some (w_meta w') ∧
    w_meta w'
    = Meta (Some (w_lang w)) (Some (w_pipe_names w))
        (Some (">=" +:+ about_version E)) (Some scores) (Some s)
        (Some (vectors_stats E))
        (Some (default (epoch_path i) (m_name (w_meta w))))
        (Some (default (version a) (m_version (w_meta w)))) ∧
    d_pipes d = d_pipes (to_disk_dir w (epoch_path i)) ∧
    w_scopes w' = w_scopes w.
Proof.
  unfold checkpoint_steps. fold (epoch_path i). intros H.
  apply bind_Ok_inv in H as ([] & w1 & H1 & H).
  rewrite set_env_log_run in H1. injection H1 as <-.
  apply bind_Ok_inv in H as ([] & w2 & H2 & H).
  apply to_disk_Ok_inv in H2 as ->.
  apply bind_Ok_inv in H as ([] & w3 & H3 & H).
  apply call_Ok_inv in H3 as ->.
  apply bind_Ok_inv in H as ([] & w4 & H4 & H).
  apply call_Ok_inv in H4 as ->.
  apply bind_Ok_inv in H as (r & w5 & H5 & H).
  assert (w_scopes w5 = w_scopes w) as Hsc.
  { pose proof (preserves_benchmark E a (fun _ => True) (fun _ => False)
      ltac:(done) i (epoch_path i)
      (batch_words (dev_docs E i false))) as Hb.
    apply (preserves_run _ _ _ _ _ Hb) in H5 as (_ & Hs & _). by rewrite Hs. }
  apply (preserves_run _ _ _ _ _ (same_state_benchmark E a i _ _)) in H5.
  unfold same, pipeline_state in H5. simpl in H5.
  injection H5 as Hfs Hmeta Hlang Hnames Hupd.
  apply bind_Ok_inv in H as ([] & w6 & H6 & H).
  apply call_Ok_inv in H6 as ->.
  apply bind_Ok_inv in H as ([] & w7 & H7 & H).
  apply write_accuracy_Ok_inv in H7 as (d7 & Hd7 & ->).
  apply bind_Ok_inv in H as ([] & w8 & H8 & H).
  injection H8 as <-.
  apply bind_Ok_inv in H as ([] & w9 & H9 & H).
  apply call_Ok_inv in H9 as ->.
  apply bind_Ok_inv in H as ([] & w10 & H10 & H).
  apply write_meta_Ok_inv in H10 as (d10 & Hd10 & ->).
  rewrite set_env_log_run in H. injection H as <-. simpl in *.
  rewrite Hfs, lookup_insert_eq in Hd7. injection Hd7 as <-.
  rewrite lookup_insert_eq in Hd10. injection Hd10 as <-. simpl.
  eexists _, r.2, _. rewrite lookup_insert_eq.
  split_and!; [done|done|done| |done|done].
  by rewrite Hmeta, Hlang, Hnames.
Qed.



(** ** Lines 180-181: the name and the version of the model *)

#[global] Instance keeps_identity_preorder : PreOrder keeps_identity.
Proof.
  split; [by intros w|]. intros w1 w2 w3 [H1 G1] [H2 G2]. split; auto.
Qed.

Lemma keeps_same_meta w w' : w_meta w' = w_meta w → keeps_identity w w'.
Proof. intros H. split; intros x; by rewrite H. Qed.

Lemma keeps_update_meta E a i scores s :
  preserves keeps_identity (update_meta E a i scores s).
Proof.
  intros w. unfold update_meta. run_monad.
  split; intros x Hx; simpl; by rewrite Hx.
Qed.

Lemma keeps_set_accuracy metric v :
  preserves keeps_identity (set_accuracy metric v).
Proof.
  intros w. unfold set_accuracy. run_monad.
  by destruct (m_accuracy (w_meta w)).
Qed.

Lemma preserves_collect_bests (R : relation world) `{!PreOrder R}
  components bests :
  preserves R (collect_bests components bests).
Proof. intros w. by rewrite collect_bests_world. Qed.

Ltac preserves_identity :=
  preserves_with ltac:(apply keeps_same_meta; reflexivity)
    ltac:(first
      [ apply keeps_update_meta
      | apply keeps_set_accuracy
      | apply preserves_collect_bests; apply _
      | progress cbv zeta
      | progress unfold to_disk, write_accuracy, write_meta, copytree,
          copytree_in, rmtree_in ]).

Lemma bind_cong_run {A B} (m m' : M A) (k : A → M B) w w' :
  m w = m' w' → (m ≫= k) w = (m' ≫= k) w'.
Proof. intros H. by rewrite !run_bind, H. Qed.

(** [train] after the paths have been checked. *)
Lemma train_after_check_paths E a w m :
  train_path_exists a = true → dev_path_exists a = true →
  meta_path a = MetaDict m →
  ∃ rest : M unit,
    preserves keeps_identity rest ∧
    train E a w
    = rest (set_meta m (set_trace (w_trace w ++ [EnvLog (verbose a)])
                          (set_log (verbose a) w))).
Proof.
  intros H1 H2 H3.
  exists (((setup_pipeline E a (pipeline_list a);;
            multitask_objectives E a (pipeline_list a));;
           call E OpCountTrain;; call E OpOptimizer);;
          try_finally (epoch_loop E a) (save_final E);;
          names ← gets w_pipe_names; _collate_best_model names).
  split.
  - unfold epoch_loop, epoch, checkpoint, checkpoint_steps, save_final,
      _collate_best_model, collate_component.
    preserves_identity.
  - unfold train, prepare. do 2 apply bind_cong_run.
    unfold configure. rewrite (bind_Ok _ _ _ _ _ (set_env_log_run _ _)).
    rewrite run_bind. unfold check_paths. rewrite H1, H2, H3. done.
Qed.

(** X12. The name and the version that the meta file gives to the model
    are never overwritten: when the paths are there and the meta file
    holds a name or a version, the meta descriptor holds it when
    [train] ends, however it ends. *)
Theorem train_keeps_name_and_version E a w m :
  train_path_exists a = true → dev_path_exists a = true →
  meta_path a = MetaDict m →
  (∀ n, m_name m = Some n → m_name (w_meta (train E a w).2) = Some n) ∧
  (∀ v, m_version m = Some v → m_version (w_meta (train E a w).2) = Some v).
Proof.
  intros H1 H2 H3.
  destruct (train_after_check_paths E a w m H1 H2 H3) as (rest & Hrest & ->).
  match goal with |- context [rest ?w0] => exact (Hrest w0) end.
Qed.

Lemma train_keeps_name_and_version_witness :
  m_name (w_meta (train (collaborators never) with_meta_file (initial ∅)).2)
  = Some "en_custom".
Proof.
  destruct (train_keeps_name_and_version (collaborators never) with_meta_file
              (initial ∅) named_meta) as [H _]; [reflexivity..|].
  by apply H.
Defined.

(** ** Lines 151-166: an evaluation that takes no time *)

(** X13. When no collaborator raises, the measurement of the throughput
    raises exactly when a timed evaluation took no time, by the
    division of the number of words by the elapsed time, whatever the
    number of words: the first evaluation on either backend, the second
    one on the accelerated backend. The scope of the baseline device
    is left in all cases. *)
Theorem benchmark_zero_elapsed E a i path n w :
  no_fault E →
  let e1 := (clock E (S (w_clock w)) - clock E (w_clock w))%Q in
  let e2 := (clock E (S (S (S (w_clock w))))
             - clock E (S (S (w_clock w))))%Q in
  ((benchmark E a i path n w).1 = Raise ZeroDivisionError ↔
   (e1 == 0)%Q ∨ ((0 <= use_gpu a)%Z ∧ (e2 == 0)%Q)) ∧
  (is_ok (benchmark E a i path n w).1 = false →
   (benchmark E a i path n w).1 = Raise ZeroDivisionError) ∧
  w_scopes (benchmark E a i path n w).2 = w_scopes w.
Proof.
  intros Hnf e1 e2.
  unfold benchmark, timer, call, wps, with_scope, try_finally. run_monad.
  rewrite !Hnf. simpl. fold e1.
  destruct (Qeq_bool e1 0) eqn:E1; simpl.
  { apply Qeq_bool_iff in E1. destruct (use_gpu a <? 0)%Z; simpl; tauto. }
  apply Qeq_bool_neq in E1.
  destruct (Z.ltb_spec (use_gpu a) 0); simpl.
  { split_and!; [|done..]. split; [done|]. intros [?|[? _]]; [done|lia]. }
  fold e2.
  destruct (Qeq_bool e2 0) eqn:E2; simpl.
  { apply Qeq_bool_iff in E2. tauto. }
  apply Qeq_bool_neq in E2.
  split_and!; [|done..]. split; [done|]. intros [?|[_ ?]]; done.
Qed.

Lemma benchmark_zero_elapsed_witness :
  (benchmark stopped_clock (command "tagger" 1 (-1) "" false) 0 "model0" 2
     (initial ∅)).1
  = Raise ZeroDivisionError.
Proof.
  destruct (benchmark_zero_elapsed stopped_clock
              (command "tagger" 1 (-1) "" false) 0 "model0" 2 (initial ∅))
    as [[_ H] _]; [by intros o|].
  apply H. left. reflexivity.
Defined.

(** ** Line 183: the meta descriptor is written last *)

Lemma raises_in_preserves {A} (R : relation world) (m : M A) :
  preserves R m → raises_in R m.
Proof. intros H w e w' Hrun. by apply (preserves_run R m w (Raise e) w'). Qed.








(** ** Lines 104-111: the side objectives *)

Lemma add_multitask_objectives_Ok_inv E pipes pipe_name multitasks w w' :
  add_multitask_objectives E pipes pipe_name multitasks w = (Ok tt, w') →
  w_objectives w' = w_objectives w ++ requested pipe_name multitasks.
Proof.
  unfold add_multitask_objectives, requested.
  destruct (truthy multitasks).
  2:{ intros [= <-]. by rewrite app_nil_r. }
  intros H. apply bind_Ok_inv in H as ([] & w1 & H1 & H).
  destruct (contains pipes pipe_name); [|done]. injection H1 as <-.
  apply bind_Ok_inv in H as ([] & w2 & H2 & H).
  apply call_Ok_inv in H2 as ->.
  apply (for_each_Ok_inv_prefix
    (fun done w' => w_objectives w' = w_objectives w ++ map (pair pipe_name) done)
    _ _ _ _ H).
  - simpl. by rewrite app_nil_r.
  - intros done objective wa wb Ha Hb.
    apply bind_Ok_inv in Hb as ([] & wc & Hc & Hb).
    apply call_Ok_inv in Hc as ->. injection Hb as <-. simpl.
    by rewrite Ha, map_app, app_assoc.
Qed.

Lemma multitask_objectives_Ok_inv E a pipes w w' :
  multitask_objectives E a pipes w = (Ok tt, w') →
  w_objectives w'
  = w_objectives w ++ requested "parser" (parser_multitasks a)
    ++ requested "ner" (entity_multitasks a).
Proof.
  unfold multitask_objectives. rewrite for_each_cons.
  destruct (add_multitask_objectives E pipes _ _ w) as [[[]|e] w1] eqn:H1;
    [|done].
  rewrite for_each_cons.
  destruct (add_multitask_objectives E pipes _ _ w1) as [[[]|e] w2] eqn:H2;
    [|done].
  rewrite for_each_nil. intros [= <-]. simpl in *.
  apply add_multitask_objectives_Ok_inv in H1, H2.
  by rewrite H2, H1, app_assoc.
Qed.

Lemma same_objectives_set_env_log v :
  preserves (same w_objectives) (set_env_log v).
Proof. preserves_same. Qed.

Lemma same_objectives_check_paths a :
  preserves (same w_objectives) (check_paths a).
Proof. preserves_same. Qed.

Lemma same_objectives_setup_pipeline E a pipes :
  preserves (same w_objectives) (setup_pipeline E a pipes).
Proof. preserves_same. Qed.

(** What [train] does after the configuration leaves the objectives as
    they are. *)
Lemma same_objectives_training E a :
  preserves (same w_objectives)
    ((call E OpCountTrain;; call E OpOptimizer);;
     try_finally (epoch_loop E a) (save_final E);;
     names ← gets w_pipe_names; _collate_best_model names).
Proof.
  unfold epoch_loop, epoch, checkpoint, checkpoint_steps, save_final,
    _collate_best_model, collate_component.
  preserves_with ltac:(unfold same; simpl; reflexivity)
    ltac:(first
      [ apply preserves_collect_bests; apply _
      | progress cbv zeta
      | progress unfold to_disk, write_accuracy, write_meta, copytree,
          copytree_in, rmtree_in ]).
Qed.

(** The objectives after a configuration that returned, and when
    [train] ends. *)
Lemma configure_objectives E a w w1 :
  configure E a w = (Ok tt, w1) →
  w_objectives w1
  = w_objectives w ++ requested "parser" (parser_multitasks a)
    ++ requested "ner" (entity_multitasks a) ∧
  w_objectives (train E a w).2 = w_objectives w1.
Proof.
  intros Hconf. split.
  - unfold configure in Hconf.
    apply bind_Ok_inv in Hconf as ([] & wa & Ha & H).
    apply bind_Ok_inv in H as ([] & wb & Hb & H).
    apply bind_Ok_inv in H as ([] & wc & Hc & H).
    apply multitask_objectives_Ok_inv in H. rewrite H. f_equal.
    apply (preserves_run _ _ _ _ _ (same_objectives_set_env_log _)) in Ha.
    apply (preserves_run _ _ _ _ _ (same_objectives_check_paths _)) in Hb.
    apply (preserves_run _ _ _ _ _ (same_objectives_setup_pipeline E a _)) in Hc.
    unfold same in *. congruence.
  - assert (train E a w
            = ((call E OpCountTrain;; call E OpOptimizer);;
               try_finally (epoch_loop E a) (save_final E);;
               names ← gets w_pipe_names; _collate_best_model names) w1)
      as ->.
    { unfold train, prepare. apply bind_cong_run.
      by rewrite run_bind, Hconf. }
    apply (same_objectives_training E a w1).
Qed.

(** A configuration that nothing disturbs returns. *)
Lemma configure_returns E a w :
  no_fault E → ¬ bad_paths a →
  ¬ misconfigured a "parser" (parser_multitasks a) →
  ¬ misconfigured a "ner" (entity_multitasks a) →
  ∃ w1, configure E a w = (Ok tt, w1).
Proof.
  intros Hnf Hpaths Hparser Hner.
  destruct (sound_configure E a (fun _ => True) (fun _ => True)
              (fun _ _ => I) w) as [_ Hexn].
  destruct (configure E a w) as [[[]|e] w1] eqn:Hrun; simpl in *; [eauto|].
  destruct (Hexn e eq_refl) as [[_ ?]|[[o Ho]|[[_ ?]|[_ ?]]]]; try done.
  by rewrite Hnf in Ho.
Qed.

(** C7. When an objective list is given for parser or ner and the
    pipeline list lacks that component, [train] raises before the corpus
    is counted, the optimizer created or an epoch run: the trace holds
    events of the configuration only, and the exception is the
    configuration error [Needs '...' in pipeline] unless a path is
    missing or a collaborator raised before. When the component is in
    the pipeline list, every objective of the comma-separated list is
    registered on it: by the loop of lines 110-111 alone, and by
    [train], where the objectives registered when the configuration has
    returned, and still when [train] ends, are those that the two lists
    ask for, on the parser and on the entity recogniser, in the order of
    the lists; the configuration returns when the paths are there, the
    listed components are in the pipeline and no collaborator raises. *)
Theorem multitask_objective_needs_component :
  (∀ E a w,
     misconfigured a "parser" (parser_multitasks a)
     ∨ misconfigured a "ner" (entity_multitasks a) →
     ∃ e, (train E a w).1 = Raise e ∧
       configure_error E a e ∧
       (no_fault E → ¬ bad_paths a → e = needs "parser" ∨ e = needs "ner") ∧
       traces setup_event w (train E a w).2) ∧
  (∀ E pipes pipe_name multitasks w,
     truthy multitasks = true → contains pipes pipe_name = true →
     no_fault E →
     ∃ w', add_multitask_objectives E pipes pipe_name multitasks w
           = (Ok tt, w') ∧
       w_objectives w'
       = w_objectives w ++ map (pair pipe_name) (split ","%char multitasks)) ∧
  (∀ E a w w1,
     configure E a w = (Ok tt, w1) →
     w_objectives w1
     = w_objectives w ++ requested "parser" (parser_multitasks a)
       ++ requested "ner" (entity_multitasks a) ∧
     w_objectives (train E a w).2 = w_objectives w1) ∧
  (∀ E a w,
     no_fault E → ¬ bad_paths a →
     ¬ misconfigured a "parser" (parser_multitasks a) →
     ¬ misconfigured a "ner" (entity_multitasks a) →
     ∃ w1, configure E a w = (Ok tt, w1) ∧
       w_objectives (train E a w).2
       = w_objectives w ++ requested "parser" (parser_multitasks a)
         ++ requested "ner" (entity_multitasks a)).
Proof.
  split_and!; [|apply add_multitask_objectives_run|apply configure_objectives|].
  - intros E a w Hmis.
    destruct (fails_configure E a Hmis w) as [e He].
    destruct (sound_configure E a setup_event (fun _ => True) (fun _ H => H) w)
      as [(_ & _ & Ht) Hexn].
    assert (train E a w = (Raise e, (configure E a w).2)) as Hrun.
    { assert (prepare E a w = (Raise e, (configure E a w).2)) as Hp
        by (by apply bind_fails_run).
      unfold train. rewrite (bind_fails_run (prepare E a) _ w e); by rewrite Hp. }
    rewrite Hrun. exists e. simpl. split_and!; [done|by apply Hexn| |done].
    intros Hf Hp. destruct (Hexn e He) as [[_ ?]|[[o Ho]|[[? _]|[? _]]]]; auto.
    + done.
    + by rewrite Hf in Ho.
  - intros E a w Hnf Hpaths Hparser Hner.
    destruct (configure_returns E a w Hnf Hpaths Hparser Hner) as [w1 Hconf].
    exists w1. split; [done|].
    destruct (configure_objectives E a w w1 Hconf) as [H1 H2].
    by rewrite H2, H1.
Qed.

(** Scenario B of the specification: [--entity-multitasks dep] with the
    pipeline [tagger,parser]; and [--entity-multitasks dep,tag] with the
    pipeline [tagger,ner]. *)
Lemma multitask_objective_needs_component_witness :
  (∃ e,
     (train (collaborators never) (command "tagger,parser" 30 (-1) "dep" false)
        (initial ∅)).1 = Raise e ∧
     e = needs "ner") ∧
  w_objectives
    (train (collaborators never) (command "tagger,ner" 1 (-1) "dep,tag" false)
       (initial ∅)).2
  = [("ner", "dep"); ("ner", "tag")].
Proof.
  split.
  - destruct (proj1 multitask_objective_needs_component (collaborators never)
                (command "tagger,parser" 30 (-1) "dep" false) (initial ∅))
      as (e & He & _ & Hn & _).
    + right. split; vm_compute; reflexivity.
    + exists e. split; [exact He|]. destruct Hn as [Hn|Hn].
      * intros o. reflexivity.
      * intros [H|[H|[H|H]]]; discriminate.
      * rewrite Hn in He. vm_compute in He. discriminate.
      * exact Hn.
  - destruct (proj2 (proj2 (proj2 multitask_objective_needs_component))
                (collaborators never)
                (command "tagger,ner" 1 (-1) "dep,tag" false) (initial ∅))
      as (w1 & _ & ->).
    + intros o. reflexivity.
    + intros [H|[H|[H|H]]]; discriminate.
    + intros [H _]. discriminate.
    + intros [_ H]. vm_compute in H. discriminate.
    + reflexivity.
Defined.

(** ** The composer without an epoch *)

Lemma find_best_no_epoch (f : fs) component :
  no_epoch f → _find_best f component = Ok None.
Proof.
  intros Hno. apply find_best_None. split.
  - intros name d Hin Hne. apply elem_of_iterdir in Hin.
    by apply Hno in Hin.
  - destruct (candidates (iterdir f) component) as [|[s name] l] eqn:E;
      [done|].
    assert ((s, name) ∈ candidates (iterdir f) component) as Hin
      by (rewrite E; left).
    apply elem_of_candidates in Hin as (Hne & d & a & Hin & _).
    apply elem_of_iterdir in Hin. by apply Hno in Hin.
Qed.

(** Without an epoch every tournament returns [None], and the first
    component stays the first key of [bests]. *)
Lemma collect_bests_no_epoch components c tl w :
  no_epoch (w_fs w) →
  ∃ tl', collect_bests components ((c, None) :: tl) w
         = (Ok ((c, None) :: tl'), w).
Proof.
  intros Hno. revert tl. induction components as [|c' components IH];
    intros tl; simpl; [by exists tl|].
  unfold find_best. rewrite !run_bind. simpl.
  rewrite (find_best_no_epoch _ c' Hno). simpl.
  destruct (String.eqb_spec c' c) as [->|Hne]; [apply IH|].
  destruct (String.eqb c' c) eqn:E; [by apply String.eqb_eq in E|].
  apply IH.
Qed.

(** X19. When the output directory holds no epoch directory (as after a
    run of no iteration) and the composer is given a component that the
    final snapshot holds, the composer raises the [TypeError] of
    [None / component]: it has copied [model-final] to [model-best] and
    removed the first component from the copy, and it writes no meta
    descriptor. *)
Theorem collate_best_model_no_epoch c components w final :
  no_epoch (w_fs w) →
  w_fs w !! "model-final" = Some (IsDir final) →
  w_fs w !! "model-best" = None →
  is_Some (d_pipes final !! c) →
  ∃ w',
    _collate_best_model (c :: components) w = (Raise none_path, w') ∧
    w_fs w' !! "model-best"
    = Some (IsDir (Dir (delete c (d_pipes final)) (d_accuracy final)
                       (d_meta final))).
Proof.
  intros Hno Hfinal Hbest [b Hc].
  unfold _collate_best_model.
  rewrite run_bind. unfold log at 1, modify at 1. simpl.
  set (w1 := set_trace _ w). rewrite run_bind. simpl.
  unfold find_best at 1. rewrite !run_bind. simpl.
  rewrite (find_best_no_epoch _ c Hno). simpl.
  destruct (collect_bests_no_epoch components c [] w1 Hno) as [tl ->].
  rewrite run_bind. unfold copytree at 1. rewrite run_bind. simpl.
  rewrite (proj2 (lookup_dir_Some _ _ _) Hfinal). simpl.
  unfold exists_path. rewrite Hbest. unfold modify at 1.
  rewrite run_bind. unfold bind at 1.
  unfold collate_component at 1. rewrite run_bind.
  unfold rmtree_in at 1. rewrite run_bind. simpl.
  rewrite lookup_dir_insert_eq. simpl. rewrite Hc. simpl.
  eexists. split; [done|]. simpl. by rewrite insert_insert_eq, lookup_insert_eq.
Qed.

Lemma collate_best_model_no_epoch_witness :
  (_collate_best_model ["tagger"; "parser"] only_final).1 = Raise none_path.
Proof.
  destruct (collate_best_model_no_epoch "tagger" ["parser"] only_final
              (saved ["tagger"; "parser"] 0 None)) as (w' & -> & _).
  - intros name d Hd.
    destruct (decide (name = "model-final")) as [->|Hne]; [done|].
    destruct (decide (name = "train.log")) as [->|Hne'].
    + vm_compute in Hd. done.
    + unfold only_final, after_epochs in Hd. simpl in Hd.
      by rewrite lookup_insert_ne, lookup_singleton_ne in Hd.
  - vm_compute; reflexivity.
  - vm_compute; reflexivity.
  - exists (Blob Averaged 0). vm_compute; reflexivity.
  - reflexivity.
Defined.

(** ** Lines 252-276: the progress row *)

Ltac lookup_scores :=
  unfold progress_scores, progress_columns, shown; simpl;
  repeat first
    [ rewrite lookup_insert_eq
    | rewrite lookup_insert_ne by done
    | rewrite lookup_union
    | rewrite lookup_empty ];
  try match goal with |- context [?m !! ?k] => destruct (m !! k) end;
  reflexivity.

Lemma progress_scores_loss losses dev_scores cpu_wps gpu_wps :
  progress_scores losses dev_scores cpu_wps gpu_wps !! "dep_loss"
  = Some (shown dev_scores "dep_loss" (default 0%Q (losses !! "parser"))) ∧
  progress_scores losses dev_scores cpu_wps gpu_wps !! "ner_loss"
  = Some (shown dev_scores "ner_loss" (default 0%Q (losses !! "ner"))).
Proof. split; lookup_scores. Qed.

Lemma progress_scores_metric losses dev_scores cpu_wps gpu_wps col :
  col ∈ ["uas"; "ents_p"; "ents_r"; "ents_f"; "tags_acc"; "token_acc"] →
  progress_scores losses dev_scores cpu_wps gpu_wps !! col
  = Some (shown dev_scores col 0%Q).
Proof.
  intros H. repeat (apply elem_of_cons in H as [->|H]; [lookup_scores|]).
  by apply elem_of_nil in H.
Qed.

Lemma progress_scores_wps losses dev_scores cpu_wps gpu_wps :
  progress_scores losses dev_scores cpu_wps gpu_wps !! "cpu_wps"
  = Some cpu_wps ∧
  progress_scores losses dev_scores cpu_wps gpu_wps !! "gpu_wps"
  = Some (or_zero gpu_wps).
Proof. split; lookup_scores. Qed.

Lemma print_progress_run itn losses dev_scores cpu_wps gpu_wps :
  print_progress itn losses dev_scores cpu_wps gpu_wps
  = Ok (itn,
        [ shown dev_scores "dep_loss" (default 0%Q (losses !! "parser"));
          shown dev_scores "ner_loss" (default 0%Q (losses !! "ner"));
          shown dev_scores "uas" 0%Q;
          shown dev_scores "ents_p" 0%Q;
          shown dev_scores "ents_r" 0%Q;
          shown dev_scores "ents_f" 0%Q;
          shown dev_scores "tags_acc" 0%Q;
          shown dev_scores "token_acc" 0%Q;
          cpu_wps;
          or_zero gpu_wps ]).
Proof.
  unfold print_progress, template_fields, format_fields.
  destruct (progress_scores_loss losses dev_scores cpu_wps gpu_wps) as [-> ->].
  destruct (progress_scores_wps losses dev_scores cpu_wps gpu_wps) as [-> ->].
  rewrite !progress_scores_metric by set_solver. done.
Qed.

(** X16. [print_progress] prints a row for every input: each named
    field of the template is a key of [scores], also [ner_loss], which
    is not among the columns set to 0.0 first. A metric that
    [dev_scores] lacks is shown as 0.0; the losses shown are those of
    the parser and of the entity recogniser, 0.0 when [losses] lacks
    them, unless [dev_scores] holds an entry named like the column; the
    two throughput columns show the arguments, [None] as 0.0, whatever
    [dev_scores] holds. *)
Theorem print_progress_row itn losses dev_scores cpu_wps gpu_wps :
  print_progress itn losses dev_scores cpu_wps gpu_wps
  = Ok (itn,
        [ shown dev_scores "dep_loss" (default 0%Q (losses !! "parser"));
          shown dev_scores "ner_loss" (default 0%Q (losses !! "ner"));
          shown dev_scores "uas" 0%Q;
          shown dev_scores "ents_p" 0%Q;
          shown dev_scores "ents_r" 0%Q;
          shown dev_scores "ents_f" 0%Q;
          shown dev_scores "tags_acc" 0%Q;
          shown dev_scores "token_acc" 0%Q;
          cpu_wps;
          or_zero gpu_wps ]).
Proof. apply print_progress_run. Qed.

(** X17. The row depends on nothing but the losses of the parser and
    of the entity recogniser and the entries of [dev_scores] named like
    the fields of the template: the loss of the tagger, which
    [print_progress] reads, and the labelled attachment score are never
    shown. *)
Theorem print_progress_depends_on itn losses losses' dev_scores dev_scores'
  cpu_wps gpu_wps :
  losses !! "parser" = losses' !! "parser" →
  losses !! "ner" = losses' !! "ner" →
  (∀ field, field ∈ template_fields →
     dev_scores !! field = dev_scores' !! field) →
  print_progress itn losses' dev_scores' cpu_wps gpu_wps
  = print_progress itn losses dev_scores cpu_wps gpu_wps.
Proof.
  intros Hp Hn Hdev. rewrite !print_progress_run. unfold shown.
  rewrite Hp, Hn. unfold template_fields in Hdev.
  by rewrite !Hdev by set_solver.
Qed.

Lemma print_progress_depends_on_witness :
  print_progress 3 {[ "tagger" := 7.5%Q ]} (<[ "las" := 0.5%Q ]> (scores_at 0))
    100 None
  = print_progress 3 ∅ (scores_at 0) 100 None.
Proof.
  apply print_progress_depends_on; [reflexivity..|].
  intros field Hf. unfold template_fields in Hf.
  repeat (apply elem_of_cons in Hf as [->|Hf]; [vm_compute; reflexivity|]).
  by apply elem_of_nil in Hf.
Defined.

(** ** A run that nothing disturbs *)

Lemma same_state_train_epoch E i :
  preserves (same (fun w => (w_fs w, w_pipe_names w, w_meta w)))
    (train_epoch E i).
Proof. preserves_same. Qed.

Lemma train_epoch_run E i w :
  no_fault E →
  ∃ w', train_epoch E i w = (Ok tt, w') ∧
    w_fs w' = w_fs w ∧ w_pipe_names w' = w_pipe_names w ∧
    w_meta w' = w_meta w.
Proof.
  intros Hnf.
  assert (∃ w', train_epoch E i w = (Ok tt, w')) as [w' Hrun].
  { unfold train_epoch. rewrite run_bind, call_run by done.
    rewrite run_bind. simpl. rewrite run_bind. simpl.
    destruct (train_batches_run E i
      (minibatch_by_words (train_docs E i) (batch_sizes E)
         (w_batch_cursor w)).1
      (set_batch_cursor
         (minibatch_by_words (train_docs E i) (batch_sizes E)
            (w_batch_cursor w)).2 (called (OpTrainDocs i) w)) Hnf)
      as (w' & Hrun & _).
    by exists w'. }
  exists w'. split; [done|].
  pose proof (preserves_run _ _ _ _ _ (same_state_train_epoch E i) Hrun) as H.
  unfold same in H. by simplify_eq.
Qed.

Lemma same_names_epoch E a i :
  preserves (same w_pipe_names) (epoch E a i).
Proof.
  unfold epoch, checkpoint, checkpoint_steps.
  preserves_with ltac:(unfold same; simpl; reflexivity)
    ltac:(first
      [ progress cbv zeta
      | progress unfold to_disk, write_accuracy, write_meta ]).
Qed.

(** An epoch that nothing disturbs. *)
Lemma epoch_run E a i w :
  no_fault E →
  (∀ n, Qeq_bool (clock E (S n) - clock E n) 0 = false) →
  w_fs w !! epoch_path i ≠ Some IsFile →
  ∃ w' d on_cpu,
    epoch E a i w = (Ok tt, w') ∧
    w_fs w' !! epoch_path i = Some (IsDir d) ∧
    d_accuracy d = Some (scorer_scores E i on_cpu) ∧
    (∀ c, c ∈ w_pipe_names w → is_Some (d_pipes d !! c)) ∧
    is_Some (m_accuracy (w_meta w')) ∧
    w_pipe_names w' = w_pipe_names w ∧
    (∀ name, name ≠ epoch_path i → w_fs w' !! name = w_fs w !! name).
Proof.
  intros Hnf Hclock Hfile.
  destruct (train_epoch_run E i w Hnf) as (w1 & H1 & Hfs1 & Hn1 & _).
  assert (∃ w' d on_cpu,
    checkpoint E a i w1 = (Ok tt, w') ∧
    w_fs w' !! epoch_path i = Some (IsDir d) ∧
    d_accuracy d = Some (scorer_scores E i on_cpu) ∧
    (∀ c, c ∈ w_pipe_names w1 → is_Some (d_pipes d !! c)) ∧
    is_Some (m_accuracy (w_meta w')))
    as (w' & d & on_cpu & H2 & Hd & Hacc & Hpipes & Hmeta).
  { unfold checkpoint. rewrite with_scope_run.
    destruct (checkpoint_steps_run E a Hnf Hclock i (enter AveragedParams w1))
      as (r & tb & w2 & d & m & Hrun & Hd & Hacc & _ & _ & _ & Hneg & Hpos).
    { simpl. by rewrite Hfs1. }
    destruct (checkpoint_steps_Ok_inv _ _ _ _ _ Hrun)
      as (d' & scores & s & Hd' & _ & _ & Hm & Hpipes & _).
    assert (d' = d) as -> by congruence.
    rewrite Hrun. simpl.
    exists (leave AveragedParams w2), d,
      (if decide (use_gpu a < 0)%Z then false else true).
    split_and!; [done|done| | |].
    - rewrite Hacc. f_equal. destruct (decide (use_gpu a < 0)%Z) as [Hlt|Hge].
      + by destruct (Hneg Hlt) as [-> _].
      + by destruct (Hpos ltac:(lia)) as [-> _].
    - intros c Hc. rewrite Hpipes, lookup_to_disk_dir; [eauto|done].
    - simpl. rewrite Hm. simpl. eauto. }
  exists w', d, on_cpu.
  assert (epoch E a i w = (Ok tt, w')) as Hrun
    by (unfold epoch; by rewrite (bind_Ok _ _ _ _ _ H1)).
  split_and!; [done|done|done| |done| |].
  - intros c Hc. apply Hpipes. by rewrite Hn1.
  - by apply (preserves_run _ _ _ _ _ (same_names_epoch E a i)) in Hrun.
  - intros name Hname.
    destruct (preserves_run _ _ _ _ _ (changes_epoch E a i) Hrun) as [H _].
    by apply H.
Qed.

Lemma same_state_save_final E :
  preserves (same (fun w => (w_pipe_names w, w_meta w))) (save_final E).
Proof.
  unfold save_final.
  preserves_with ltac:(unfold same; simpl; reflexivity)
    ltac:(first [ progress cbv zeta | progress unfold to_disk ]).
Qed.

(** The preparation of a blank model that nothing disturbs. *)
Lemma prepare_run E a w :
  no_fault E → ¬ bad_paths a → from_blank a →
  ¬ misconfigured a "parser" (parser_multitasks a) →
  ¬ misconfigured a "ner" (entity_multitasks a) →
  w_pipe_names w = [] →
  ∃ w', prepare E a w = (Ok tt, w') ∧
    w_fs w' = w_fs w ∧ w_pipe_names w' = blank_pipeline a.
Proof.
  intros Hnf Hpaths Hblank Hparser Hner Hnames.
  destruct (sound_configure E a (fun _ => True) (fun _ => True)
              (fun _ _ => I) w) as [(Hfs & _) Hexn].
  destruct (configure E a w) as [[[]|e] w1] eqn:Hrun; simpl in *.
  2:{ destruct (Hexn e eq_refl) as [[_ ?]|[[o Ho]|[[_ ?]|[_ ?]]]]; try done.
      by rewrite Hnf in Ho. }
  apply configure_blank_model_inv in Hrun as Hpipes; [|done..].
  destruct Hpipes as [Hpipes _].
  unfold prepare. rewrite (bind_Ok _ _ _ _ _ Hrun).
  rewrite run_bind, call_run by done. rewrite call_run by done.
  eexists. split; [done|]. simpl. split; [|done].
  apply map_eq. intros name. by apply Hfs.
Qed.

(** *** The whole command *)

(** X20. A run that nothing disturbs completes. For a blank model, when
    the paths are there, the side objectives fit the pipeline, at least
    one iteration is asked for, the output directory is empty, no
    collaborator raises, the clock advances between two readings and
    the scorer reports the metrics of every component, [train] returns,
    and the output directory then holds one directory with an accuracy
    record per epoch, the final snapshot with every component of the
    pipeline, the composite with the same components and the meta
    descriptor of the run, and nothing else. *)
Theorem train_completes E a w :
  no_fault E →
  (∀ n, Qeq_bool (clock E (S n) - clock E n) 0 = false) →
  ¬ bad_paths a → from_blank a →
  ¬ misconfigured a "parser" (parser_multitasks a) →
  ¬ misconfigured a "ner" (entity_multitasks a) →
  (0 < n_iter a)%Z →
  scores_cover E (blank_pipeline a) →
  w_fs w = ∅ → w_pipe_names w = [] →
  ∃ w' best final,
    train E a w = (Ok tt, w') ∧
    w_fs w' !! "model-best" = Some (IsDir best) ∧
    w_fs w' !! "model-final" = Some (IsDir final) ∧
    d_meta best = Some (w_meta w') ∧
    dom (d_pipes best) = dom (d_pipes final) ∧
    (∀ c, c ∈ blank_pipeline a → is_Some (d_pipes final !! c)) ∧
    (∀ i, (i < Z.to_nat (n_iter a))%nat →
       ∃ d, w_fs w' !! epoch_path i = Some (IsDir d) ∧
         is_Some (d_accuracy d)) ∧
    (∀ name, is_Some (w_fs w' !! name) → train_paths a name).
Proof.
  intros Hnf Hclock Hpaths Hblank Hparser Hner Hiter Hcover Hfresh Hnames.
  set (P := blank_pipeline a) in *.
  set (n := Z.to_nat (n_iter a)).
  destruct (prepare_run E a w Hnf Hpaths Hblank Hparser Hner Hnames)
    as (w1 & Hprep & Hfs1 & Hn1).
  (* the epochs *)
  set (I := fun (done : list nat) (w : world) =>
    w_pipe_names w = P ∧
    (done ≠ [] → is_Some (m_accuracy (w_meta w))) ∧
    (∀ name x, w_fs w !! name = Some x →
       ∃ i d on_cpu, i ∈ done ∧ name = epoch_path i ∧ x = IsDir d ∧
         d_accuracy d = Some (scorer_scores E i on_cpu) ∧
         ∀ c, c ∈ P → is_Some (d_pipes d !! c)) ∧
    (∀ i, i ∈ done → is_Some (w_fs w !! epoch_path i))).
  destruct (for_each_Ok I (seq 0 n) (epoch E a) w1)
    as (w2 & Hloop & Hn2 & Hmeta2 & Hdirs & Hall).
  { split_and!; [done|done| |].
    - intros name x. by rewrite Hfs1, Hfresh, lookup_empty.
    - intros i []%elem_of_nil. }
  { intros done i todo wa _ (Hna & _ & Hdirs & Hall).
    destruct (epoch_run E a i wa Hnf Hclock)
      as (wb & d & on_cpu & Hrun & Hd & Hacc & Hpipes & Hmeta & Hnb & Hframe).
    { intros Hfile. by destruct (Hdirs _ _ Hfile) as (? & ? & ? & _ & _ & ? & _). }
    exists wb. split; [done|]. split_and!; [congruence|done| |].
    - intros name x Hx. destruct (decide (name = epoch_path i)) as [->|Hne].
      + exists i, d, on_cpu. rewrite Hd in Hx. injection Hx as <-.
        split_and!; [set_solver|done|done|done|].
        intros c Hc. apply Hpipes. by rewrite Hna.
      + rewrite (Hframe name Hne) in Hx.
        destruct (Hdirs name x Hx) as (j & dj & b & ? & ? & ? & ? & ?).
        exists j, dj, b. split_and!; [set_solver|done..].
    - intros j [Hj| ->%list_elem_of_singleton]%elem_of_app.
      + destruct (decide (epoch_path j = epoch_path i)) as [Heq|Hne].
        * rewrite Heq, Hd. eauto.
        * rewrite (Hframe _ Hne). by apply Hall.
      + rewrite Hd. eauto. }
  assert (0 ∈ seq 0 n)%nat as H0 by (apply elem_of_seq; lia).
  (* the final save *)
  destruct (save_final_spec E w2) as (_ & Hframe & Hsave).
  assert (w_fs w2 !! "model-final" = None) as Hnofinal.
  { destruct (w_fs w2 !! "model-final") as [x|] eqn:Hx; [|done].
    destruct (Hdirs _ _ Hx) as (i & _ & _ & _ & Heq & _).
    by apply no_epoch_path_final in Heq. }
  assert (w_fs w2 !! "model-best" = None) as Hnobest.
  { destruct (w_fs w2 !! "model-best") as [x|] eqn:Hx; [|done].
    destruct (Hdirs _ _ Hx) as (i & _ & _ & _ & Heq & _).
    by apply no_epoch_path_best in Heq. }
  destruct Hsave as (Hok & final & Hfinal & Hfpipes);
    [done|by rewrite Hnofinal|].
  destruct (save_final E w2) as [r w3] eqn:Hsf. simpl in *. subst r.
  pose proof (preserves_run _ _ _ _ _ (same_state_save_final E) Hsf) as Hst.
  unfold same in Hst. injection Hst as Hn3 Hm3.
  assert (training E a w = (Ok tt, w3)) as Htraining.
  { unfold training. rewrite (bind_Ok _ _ _ _ _ Hprep).
    unfold try_finally, epoch_loop. fold n. by rewrite Hloop, Hsf. }
  (* the composer *)
  assert (∀ name x, w_fs w3 !! name = Some x → name ≠ "model-final" →
            w_fs w2 !! name = Some x) as Hback.
  { intros name x Hx Hne. by rewrite <-(Hframe name Hne). }
  destruct (Hmeta2 ltac:(by intros Hnil; rewrite Hnil in H0;
                            apply elem_of_nil in H0)) as [acc0 Hacc0].
  destruct (collate_best_model_run P w3 final acc0)
    as (w' & pipes & acc' & Hrun & Hfs' & _).
  - done.
  - by rewrite (Hframe "model-best").
  - by rewrite Hm3.
  - intros name d Hin Hne. apply elem_of_iterdir in Hin.
    destruct (Hdirs _ _ (Hback _ _ Hin Hne))
      as (i & di & b & _ & _ & [= ->] & -> & _). eauto.
  - destruct (Hall 0%nat H0) as [x Hx].
    destruct (Hdirs _ _ Hx) as (i & di & b & _ & Heq & -> & Hacc & _).
    exists (epoch_path 0), (scorer_scores E i b). split.
    + apply not_eq_sym, no_epoch_path_final.
    + exists di. split; [|done]. rewrite (Hframe (epoch_path 0)); [done|].
      apply not_eq_sym, no_epoch_path_final.
  - intros c Hc. rewrite Hfpipes; [eauto|]. by rewrite Hn2.
  - intros c winner d acc Hc Hwin Hd Hacc.
    apply find_best_spec in Hwin as (acc1 & [Hne _] & _).
    destruct (Hdirs _ _ (Hback _ _ Hd Hne))
      as (i & di & b & _ & _ & [= ->] & Hacc' & Hpipes).
    split; [by apply Hpipes|].
    intros metric Hmetric. rewrite Hacc' in Hacc. injection Hacc as <-.
    by apply (Hcover i b c).
  - assert (lookup_dir (w_fs w3) "model-final" = Some final) as Hfinal'
      by by apply lookup_dir_Some.
    destruct (collate_best_model_Ok_inv P w3 w' final Hrun Hfinal')
      as (best & Hbest & Hdom & _ & _ & Hbmeta).
    apply lookup_dir_Some in Hbest.
    exists w', best, final. split_and!.
    + rewrite train_run, Htraining. by rewrite Hn3, Hn2.
    + done.
    + by rewrite Hfs', lookup_insert_ne.
    + done.
    + done.
    + intros c Hc. rewrite Hfpipes; [eauto|]. by rewrite Hn2.
    + intros i Hi. assert (i ∈ seq 0 n) as Hin by (apply elem_of_seq; lia).
      destruct (Hall i Hin) as [x Hx].
      destruct (Hdirs _ _ Hx) as (j & dj & b & _ & _ & -> & Hacc & _).
      exists dj. split; [|by rewrite Hacc].
      rewrite Hfs', lookup_insert_ne by apply no_epoch_path_best.
      rewrite (Hframe (epoch_path i)); [done|].
      apply not_eq_sym, no_epoch_path_final.
    + intros name Hname. rewrite Hfs' in Hname.
      destruct (decide (name = "model-best")) as [->|Hnb];
        [right; by right|].
      rewrite lookup_insert_ne in Hname by done.
      destruct (decide (name = "model-final")) as [->|Hnf'];
        [right; by left|].
      rewrite (Hframe name Hnf') in Hname. destruct Hname as [x Hx].
      destruct (Hdirs _ _ Hx) as (i & _ & _ & Hi & -> & _).
      left. exists i. split; [|done]. apply elem_of_seq in Hi. lia.
Qed.

Lemma train_completes_witness :
  ∃ w' best,
    train (collaborators never) (command "tagger,parser" 3 (-1) "" false)
      (initial ∅) = (Ok tt, w') ∧
    w_fs w' !! "model-best" = Some (IsDir best).
Proof.
  destruct (train_completes (collaborators never)
              (command "tagger,parser" 3 (-1) "" false) (initial ∅))
    as (w' & best & final & Hrun & Hbest & _).
  - intros o. reflexivity.
  - apply clock_advances.
  - intros [H|[H|[H|H]]]; discriminate.
  - intros name H. discriminate.
  - intros [H _]. discriminate.
  - intros [H _]. discriminate.
  - reflexivity.
  - intros i on_cpu c metric Hc Hm.
    change (c ∈ ["tagger"; "parser"]) in Hc.
    change (is_Some (scores_at i !! metric)).
    apply elem_of_cons in Hc as [->|Hc].
    + change (metric ∈ ["tags_acc"]) in Hm.
      apply list_elem_of_singleton in Hm as ->.
      unfold scores_at. eexists.
      rewrite !lookup_insert_ne by discriminate.
      apply lookup_singleton_eq.
    + apply list_elem_of_singleton in Hc as ->.
      change (metric ∈ ["las"; "uas"; "token_acc"]) in Hm.
      unfold scores_at.
      apply elem_of_cons in Hm as [->|Hm];
        [eexists; apply lookup_insert_eq|].
      apply elem_of_cons in Hm as [->|Hm];
        [eexists; rewrite lookup_insert_ne by discriminate;
         apply lookup_insert_eq|].
      apply list_elem_of_singleton in Hm as ->.
      eexists. rewrite !lookup_insert_ne by discriminate.
      apply lookup_insert_eq.
  - reflexivity.
  - reflexivity.
  - exists w', best. split; [exact Hrun|exact Hbest].
Defined.
